(** * The minio-js client: a model of src/main/minio.js

    The model follows the source function by function.  Asynchronous code is
    written as state passing over a [World] that holds the client object, the
    events the transport will deliver and the requests sent so far; a callback
    outcome is a [result].  Code of the library that is not part of minio.js
    (helpers.js, signing.js, xml-parsers.js, multipart.js) and of Node (url,
    crypto, http) enters through type classes; the stream transformers of
    transformers.js are modelled from the specification, where their comments
    say so. *)

From Stdlib Require Import ZArith Lia String Ascii List Bool DecimalString.
From stdpp Require Import gmap strings list.
Import ListNotations.
Open Scope string_scope.
Open Scope Z_scope.

(** ** JavaScript values used by the client

    A [string] stands for a JavaScript string whose code units are all below
    256; a value that may be undefined is an [option]; sizes, ports, status
    codes and counts are integers ([Z]), all far below 2^53, where the
    arithmetic of doubles is exact; the numbers a caller hands to
    getPartialObject and to a post policy are doubles ([Number.t]). *)
Module Js.

(** Truthiness of a string-or-undefined: undefined and the empty string are
    falsy. *)
Definition truthy (v : option string) : bool :=
  match v with
  | Some (String _ _) => true
  | _ => false
  end.

(** A value inside a template literal. *)
Definition template (v : option string) : string :=
  match v with
  | Some s => s
  | None => "undefined"
  end.

(** Number to string, for an integer. *)
Definition Number_toString (n : Z) : string :=
  NilZero.string_of_int (Z.to_int n).

(** White space as [String.prototype.trim] removes it (code units below
    256): TAB, LF, VT, FF, CR, SP and NBSP. *)
Definition isWhiteSpace (c : ascii) : bool :=
  let n := nat_of_ascii c in
  ((9 <=? n)%nat && (n <=? 13)%nat) || (n =? 32)%nat || (n =? 160)%nat.

(** [trim_is_empty s] is [s.trim() === ''] . *)
Fixpoint trim_is_empty (s : string) : bool :=
  match s with
  | EmptyString => true
  | String c s' => isWhiteSpace c && trim_is_empty s'
  end.

(** Regular expressions of the shape the client uses: a sequence of
    literal characters and dots, closed by the end anchor. *)
Inductive atom := Lit (c : ascii) | Dot.

(** The dot matches every character but a line terminator (LF, CR). *)
Definition isLineTerminator (c : ascii) : bool :=
  let n := nat_of_ascii c in (n =? 10)%nat || (n =? 13)%nat.

Definition atom_matches (a : atom) (c : ascii) : bool :=
  match a with
  | Lit d => if ascii_dec c d then true else false
  | Dot => negb (isLineTerminator c)
  end.

(** [match_here p s]: the atoms [p] followed by the end anchor match [s]
    from its first character on. *)
Fixpoint match_here (p : list atom) (s : string) : bool :=
  match p, s with
  | [], EmptyString => true
  | a :: p', String c s' => atom_matches a c && match_here p' s'
  | _, _ => false
  end.

(** [search p s]: the pattern matches at some position of [s], as
    [String.prototype.match] tries them from left to right. *)
Fixpoint search (p : list atom) (s : string) : bool :=
  match_here p s ||
  match s with
  | EmptyString => false
  | String _ s' => search p s'
  end.

(** The atoms of a pattern given as a string: a dot is [Dot], every other
    character is itself. *)
Fixpoint atoms (pattern : string) : list atom :=
  match pattern with
  | EmptyString => []
  | String c rest =>
      (if ascii_dec c "."%char then Dot else Lit c) :: atoms rest
  end.

End Js.

(** ** JavaScript numbers

    A number is NaN, an infinity or a finite double; [Finite m e] stands for
    [m * 2^e].  Every operation reads its arguments as JavaScript reads a
    numeral, as the double nearest to the value with ties to the even
    mantissa, and gives the double nearest to the exact result (IEEE 754
    binary64, round to nearest).  The two zeros are not told apart: the
    client compares numbers, adds them and prints them, and none of these
    tells them apart. *)
Module Number.

Inductive t :=
| NaN
| Infinity (negative : bool)
| Finite (m e : Z).

Definition of_Z (z : Z) : t := Finite z 0.

(** ToNumber of a value that is a number or undefined. *)
Definition of_value (v : option t) : t :=
  match v with
  | Some x => x
  | None => NaN
  end.


(** The safe integers (Number.isSafeInteger): those of magnitude below
    2^53. *)
Definition safe (z : Z) : Prop := - 2 ^ 53 < z < 2 ^ 53.

(** The number of binary digits of an integer. *)
Definition bits (a : Z) : Z := if a =? 0 then 0 else Z.log2 (Z.abs a) + 1.

(** [m * 2^e] is a double as it stands: at most 53 binary digits, within the
    range of exponents. *)
Definition representable (m e : Z) : bool :=
  (bits m <=? 53) && (-1074 <=? e) && (e + bits m <=? 1024).

(** The double nearest to [n / d], for [d > 0]: ties go to the even
    mantissa, and what lies beyond the largest double is an infinity. *)
Definition round (n d : Z) : t :=
  if n =? 0 then Finite 0 0
  else
    let a := Z.abs n in
    let E0 := Z.log2 a - Z.log2 d in
    let below := if 0 <=? E0 then a <? d * 2 ^ E0 else a * 2 ^ (- E0) <? d in
    let E := if below then E0 - 1 else E0 in
    let q := Z.max (E - 52) (-1074) in
    let num := if q <? 0 then a * 2 ^ (- q) else a in
    let den := if q <? 0 then d else d * 2 ^ q in
    let quo := num / den in
    let rem := num mod den in
    let up := (den <? 2 * rem) || ((2 * rem =? den) && Z.odd quo) in
    let mant := if up then quo + 1 else quo in
    if 1024 <? bits mant + q then Infinity (n <? 0)
    else Finite (if n <? 0 then - mant else mant) q.

(** A value as JavaScript reads it: itself when it is a double. *)
Definition read (x : t) : t :=
  match x with
  | Finite m e =>
      if representable m e then x
      else if 0 <=? e then round (m * 2 ^ e) 1 else round m (2 ^ (- e))
  | _ => x
  end.

(** ToBoolean: NaN and the zeros are falsy. *)
Definition truthy (x : t) : bool :=
  match read x with
  | NaN => false
  | Infinity _ => true
  | Finite m _ => negb (m =? 0)
  end.

Definition add (x y : t) : t :=
  match read x, read y with
  | NaN, _ | _, NaN => NaN
  | Infinity s, Infinity s' => if Bool.eqb s s' then Infinity s else NaN
  | Infinity s, Finite _ _ | Finite _ _, Infinity s => Infinity s
  | Finite m e, Finite m' e' =>
      let q := Z.min e e' in
      read (Finite (m * 2 ^ (e - q) + m' * 2 ^ (e' - q)) q)
  end.

Definition opp (x : t) : t :=
  match x with
  | NaN => NaN
  | Infinity s => Infinity (negb s)
  | Finite m e => Finite (- m) e
  end.

Definition sub (x y : t) : t := add x (opp y).

(** [x < y]: false when either is NaN. *)
Definition ltb (x y : t) : bool :=
  match read x, read y with
  | NaN, _ | _, NaN => false
  | Infinity s, Infinity s' => s && negb s'
  | Infinity s, Finite _ _ => s
  | Finite _ _, Infinity s => negb s
  | Finite m e, Finite m' e' =>
      let q := Z.min e e' in
      m * 2 ^ (e - q) <? m' * 2 ^ (e' - q)
  end.

Definition eqb (x y : t) : bool :=
  match read x, read y with
  | Infinity s, Infinity s' => Bool.eqb s s'
  | Finite m e, Finite m' e' =>
      let q := Z.min e e' in
      m * 2 ^ (e - q) =? m' * 2 ^ (e' - q)
  | _, _ => false
  end.

Definition gtb (x y : t) : bool := ltb y x.

Fixpoint zeros (n : nat) : string :=
  match n with
  | O => ""
  | S n' => String "0" (zeros n')
  end.

(** The double nearest to [s * 10^p]. *)
Definition of_decimal (s p : Z) : t :=
  if 0 <=? p then round (s * 10 ^ p) 1 else round s (10 ^ (- p)).

(** The least [n], from [n] on, with [num / den < 10^n]. *)
Fixpoint magnitude (fuel : nat) (num den n : Z) : Z :=
  match fuel with
  | O => n
  | S fuel' =>
      if (if 0 <=? n then num <? den * 10 ^ n else num * 10 ^ (- n) <? den)
      then n
      else magnitude fuel' num den (n + 1)
  end.

(** The shortest digits: the least [k], from [k] on, with a number of [k]
    digits times a power of ten that reads as [x], which is [num / den] with
    [n] digits before the point; of two such numbers, the nearer to [x]. *)
Fixpoint shortest (fuel : nat) (x : t) (num den n k : Z) : Z * Z :=
  match fuel with
  | O => (0, 0)
  | S fuel' =>
      let p := n - k in
      let num' := if 0 <=? p then num else num * 10 ^ (- p) in
      let den' := if 0 <=? p then den * 10 ^ p else den in
      let lo := num' / den' in
      let rem := num' mod den' in
      let hi := lo + 1 in
      let lo_reads := (0 <? lo) && eqb (of_decimal lo p) x in
      let hi_reads := eqb (of_decimal hi p) x in
      if lo_reads && hi_reads then
        if (2 * rem <? den') || ((2 * rem =? den') && Z.even lo) then (lo, p) else (hi, p)
      else if lo_reads then (lo, p)
      else if hi_reads then (hi, p)
      else shortest fuel' x num den n (k + 1)
  end.

(** [s * 10^p] without the zeros that end [s]. *)
Fixpoint strip (fuel : nat) (s p : Z) : Z * Z :=
  match fuel with
  | O => (s, p)
  | S fuel' =>
      if (s mod 10 =? 0) && negb (s =? 0) then strip fuel' (s / 10) (p + 1) else (s, p)
  end.

(** Number::toString for a positive finite double [m * 2^e]: the shortest
    digits that read as it, written as an integer, with a point, or with an
    exponent. *)
Definition toString_positive (m e : Z) : string :=
  let num := if 0 <=? e then m * 2 ^ e else m in
  let den := if 0 <=? e then 1 else 2 ^ (- e) in
  let estimate := ((Z.log2 num - Z.log2 den) * 1233) / 4096 in
  let n := magnitude 8 num den (estimate - 2) in
  let '(s, p) := shortest 17 (Finite m e) num den n 1 in
  let '(s, p) := strip 400 s p in
  let digits := Js.Number_toString s in
  let k := Z.of_nat (String.length digits) in
  let n := k + p in
  if (k <=? n) && (n <=? 21) then digits ++ zeros (Z.to_nat (n - k))
  else if (0 <? n) && (n <=? 21) then
    substring 0 (Z.to_nat n) digits ++ "." ++ substring (Z.to_nat n) (Z.to_nat (k - n)) digits
  else if (-6 <? n) && (n <=? 0) then "0." ++ zeros (Z.to_nat (- n)) ++ digits
  else
    let exponent := (if n - 1 <? 0 then "-" else "+") ++ Js.Number_toString (Z.abs (n - 1)) in
    if k =? 1 then digits ++ "e" ++ exponent
    else substring 0 1 digits ++ "." ++ substring 1 (Z.to_nat (k - 1)) digits
           ++ "e" ++ exponent.

(** Number::toString, as a template literal applies it.  An integer of at
    most 2^53 in magnitude has the digits of its decimal numeral, which are
    the shortest that read as it. *)
Definition toString (x : t) : string :=
  match read x with
  | NaN => "NaN"
  | Infinity negative => if negative then "-Infinity" else "Infinity"
  | Finite m e =>
      let num := if 0 <=? e then m * 2 ^ e else m in
      let den := if 0 <=? e then 1 else 2 ^ (- e) in
      if (num mod den =? 0) && (Z.abs (num / den) <=? 2 ^ 53) then Js.Number_toString (num / den)
      else if m <? 0 then "-" ++ toString_positive (- m) e
      else toString_positive m e
  end.

End Number.

(** An integer where a number is expected is the number of that numeral. *)
Coercion Number.of_Z : Z >-> Number.t.

(** ** Part size of a multipart upload (putObject, lines 626-636) *)

Definition minimumPartSize : Z := 5 * 1024 * 1024.
Definition maximumPartSize : Z := 5 * 1025 * 1024 * 1024.

Definition calculatePartSize (size : Z) : Z :=
  let partSize := size / 9999 in
  if partSize >? maximumPartSize then maximumPartSize
  else Z.max minimumPartSize partSize.

(** The sizes the specification names. *)
Definition MiB : Z := 1024 * 1024.
Definition GiB : Z := 1024 * 1024 * 1024.
Definition TiB : Z := 1024 * 1024 * 1024 * 1024.

Definition clamp (x lo hi : Z) : Z := Z.max lo (Z.min x hi).

(** The part size as the specification words it. *)
Definition partSize_spec (size : Z) : Z := clamp (size / 9999) (5 * MiB) (5 * GiB).

(** Number of parts of [partSize] bytes that [size] bytes need:
    ceil(size / partSize). *)
Definition partCount (size partSize : Z) : Z := (size + partSize - 1) / partSize.

(** ** Errors, streams and responses *)

(** Exceptions thrown synchronously at the call site. *)
Inductive Exception :=
| InvalidEndPointException (msg : string)
| InvalidProtocolException (msg : string)
| InvalidBucketNameException (msg : string)
| InvalidObjectNameException (msg : string)
| InvalidArgumentException (msg : string)
| TypeError (msg : string).

(** An error object handed to a callback: [code] and [message] are the
    properties listBuckets reads and writes, [fields] holds the others
    (requestid, resource, errno, ...). *)
Record Error := {
  code : option string;
  message : string;
  fields : list (string * string)
}.

(** A readable stream by what it delivers: its chunks in order, then the end
    or an error event. *)
Record Stream := {
  chunks : list string;
  failure : option Error
}.

(** The response object the transport hands to its listener. *)
Module Response.
Record t := {
  statusCode : Z;
  headers : list (string * string);
  body : Stream
}.
End Response.

(** What the transport answers a request with: an error event on the request
    or a response. *)
Inductive TransportEvent :=
| OnError (e : Error)
| OnResponse (response : Response.t).

(** The outcome of an operation for its caller: the callback called with a
    value, the callback called with an error, an exception thrown at the call
    site, or the callback never called (the transport has delivered no
    event). *)
Inductive result (A : Type) :=
| Value (a : A)
| Failed (e : Error)
| Thrown (x : Exception)
| Pending.
Arguments Value {A} a.
Arguments Failed {A} e.
Arguments Thrown {A} x.
Arguments Pending {A}.

(** ** The client object *)

Inductive Transport :=
| Http
| Https
| Override (id : nat).

Record Params := {
  host : string;
  port : Z;
  protocol : string;
  accessKey : string;
  secretKey : string;
  userAgent : string
}.

Record Client := {
  params : Params;
  transport : Transport;
  minioStorage : bool;
  regionMap : gmap string string
}.

(** The argument of the constructor. *)
Record ConstructorParams := {
  endPoint : string;
  cp_accessKey : string;
  cp_secretKey : string
}.

(** The result of Node's [Url.parse] on the end point, as far as the
    constructor reads it: [url_port] is the port's digits as the number they
    denote, absent when the URL names no port. *)
Record ParsedUrl := {
  url_protocol : option string;
  url_hostname : option string;
  url_port : option Z
}.

(** Unary plus on the port of a parsed URL: null becomes 0. *)
Definition port_to_number (p : option Z) : Z :=
  match p with
  | Some n => n
  | None => 0
  end.

(** The process and package the library runs in (user agent, lines 89-90). *)
Class Platform := {
  process_platform : string;
  process_arch : string;
  Package_version : string
}.

Definition dquote : string := String "034"%char EmptyString.

Definition amazonaws_pattern : list Js.atom := Js.atoms ".amazonaws.com".

Section Construction.
Context `{Platform}.

Definition libraryAgent : string :=
  "Minio (" ++ process_platform ++ "; " ++ process_arch ++ ") minio-js/"
    ++ Package_version.

(** The protocol switch of the constructor (lines 57-82), entered when no
    transport is given: the transport, the protocol and the port. *)
Definition select_transport (parsedUrl_protocol : option string) (port : Z)
  : Exception + (Transport * string * Z) :=
  let unknown (shown : string) :=
    inl (InvalidProtocolException ("Unknown protocol: " ++ shown)) in
  match parsedUrl_protocol with
  | Some s =>
      if String.eqb s "http:" then
        inr (Http, "http:", if port =? 0 then 80 else port)
      else if String.eqb s "https:" then
        inr (Https, "https:", if port =? 0 then 443 else port)
      else unknown s
  | None => unknown "null"
  end.

(** [new Client(params, transport)] with [parsedUrl = Url.parse(params.endPoint)]
    (lines 42-106). *)
Definition constructor (p : ConstructorParams) (parsedUrl : ParsedUrl)
    (transport : option Transport) : Exception + Client :=
  let port := port_to_number (url_port parsedUrl) in
  match url_hostname parsedUrl with
  | None => inl (TypeError "Cannot read property 'match' of null")
  | Some host =>
      let protocol := "" in
      let amazon := Js.search amazonaws_pattern host in
      if amazon && negb (String.eqb host "s3.amazonaws.com") then
        inl (InvalidEndPointException
               ("endPoint " ++ endPoint p ++ " invalid, endPoint has to be "
                  ++ dquote ++ "https://s3.amazonaws.com" ++ dquote ++ " for AWS S3"))
      else
        let minioStorage := negb amazon in
        let selected :=
          match transport with
          | Some t => inr (t, protocol, port)
          | None => select_transport (url_protocol parsedUrl) port
          end in
        match selected with
        | inl x => inl x
        | inr (transport, protocol, port) =>
            let newParams :=
              {| host := host; port := port; protocol := protocol;
                 accessKey := cp_accessKey p; secretKey := cp_secretKey p;
                 userAgent := libraryAgent |} in
            inr {| params := newParams; transport := transport;
                   minioStorage := minioStorage; regionMap := ∅ |}
        end
  end.

End Construction.

(** ** Request options (getRequestOptions, lines 108-142) *)

(** The argument of getRequestOptions and makeRequest. *)
Module Options.
Record t := {
  method : string;
  bucketName : option string;
  objectName : option string;
  headers : option (list (string * string));
  query : option string
}.
End Options.

(** The request descriptor handed to the signer and the transport. *)
Module ReqOptions.
Record t := {
  method : string;
  port : Z;
  protocol : string;
  headers : option (list (string * string));
  path : string;
  host : string
}.
End ReqOptions.

(** helpers.js, as far as minio.js calls it. *)
Class Helpers := {
  uriResourceEscape : string -> string;
  isValidBucketName : string -> bool;
  isValidObjectName : string -> bool
}.

(** What getBucketRegion hands on as the region: a string, or the value of a
    property of Object.prototype.  The cache of regions is a plain object,
    so that [this.regionMap[bucketName]] finds such a property (a function,
    or the prototype itself under __proto__) for a bucket name that is the
    name of one and no entry of the cache. *)
Inductive Region :=
| RegionName (name : string)
| Inherited (property : string).

Coercion RegionName : string >-> Region.

(** signing.js and Node's crypto: [signV4 reqOptions sha256 accessKey
    secretKey region] is the request with the signature headers added,
    [sha256_hex payload] the lower-case hexadecimal digest. *)
Class Signing := {
  signV4 : ReqOptions.t -> string -> string -> string -> Region -> ReqOptions.t;
  sha256_hex : string -> string
}.

(** xml-parsers.js and the parsing transformers of transformers.js: each
    reads a whole document. *)
Class Parsers := {
  parseError : Response.t -> string -> Error;
  parseBucketRegion : string -> Error + string;
  parseListBucket : string -> Error + list (string * string)
}.

Section RequestOptions.
Context `{Helpers}.

Definition getRequestOptions (c : Client) (opts : Options.t) : ReqOptions.t :=
  let bucketName := Options.bucketName opts in
  let objectName := Options.objectName opts in
  let query := Options.query opts in
  let objectName :=
    if Js.truthy objectName
    then Some (uriResourceEscape (Js.template objectName))
    else objectName in
  let path := "/" in
  let '(host, path) :=
    if minioStorage c then
      let path :=
        if Js.truthy bucketName then "/" ++ Js.template bucketName else path in
      let path :=
        if Js.truthy objectName
        then "/" ++ Js.template bucketName ++ "/" ++ Js.template objectName
        else path in
      (host (params c), path)
    else
      let host :=
        if Js.truthy bucketName
        then Js.template bucketName ++ "." ++ host (params c)
        else host (params c) in
      let path :=
        if Js.truthy objectName then "/" ++ Js.template objectName else path in
      (host, path) in
  let path := if Js.truthy query then path ++ "?" ++ Js.template query else path in
  {| ReqOptions.method := Options.method opts;
     ReqOptions.port := port (params c);
     ReqOptions.protocol := protocol (params c);
     ReqOptions.headers := Options.headers opts;
     ReqOptions.path := path;
     ReqOptions.host := host |}.

End RequestOptions.

(** setAppInfo (lines 155-169): an exception, or the client with the longer
    user agent. *)
Definition setAppInfo (c : Client) (appName appVersion : string) : Exception + Client :=
  if Js.trim_is_empty appName then
    inl (InvalidArgumentException "Input appName cannot be empty.")
  else if Js.trim_is_empty appVersion then
    inl (InvalidArgumentException "Input appVersion cannot be empty.")
  else
    let p := params c in
    inr {| params :=
             {| host := host p; port := port p; protocol := protocol p;
                accessKey := accessKey p; secretKey := secretKey p;
                userAgent := userAgent p ++ " " ++ appName ++ "/" ++ appVersion |};
           transport := transport c;
           minioStorage := minioStorage c;
           regionMap := regionMap c |}.

(** ** Stream pipelines (pipesetup with the transformers of transformers.js) *)

(** Modelled from the spec: the Concat transformer of transformers.js
    (getConcater), which buffers the chunks of its input and emits a single
    value; an error of the input stream passes down the pipeline instead. *)
Definition concater (s : Stream) : Error + string :=
  match failure s with
  | Some e => inl e
  | None => inr (String.concat "" (chunks s))
  end.

(** Modelled from the spec: the Passthrough transformer of transformers.js
    (getDummyTransformer), which hands the raw byte stream on. *)
Definition dummyTransformer (s : Stream) : Stream := s.

Section Pipelines.
Context `{Parsers}.

(** Modelled from the spec: the ErrorParser of transformers.js
    (getErrorTransformer), always fatal for its pipeline.
    [errorPipeline response] is the error that
    [pipesetup(response, concater, errorTransformer)] emits. *)
Definition errorPipeline (response : Response.t) : Error :=
  match concater (Response.body response) with
  | inl e => e
  | inr xml => parseError response xml
  end.

(** [pipesetup(response, concater, getBucketRegionTransformer())]: an error
    event or one data event. *)
Definition bucketRegionPipeline (response : Response.t) : Error + string :=
  match concater (Response.body response) with
  | inl e => inl e
  | inr xml => parseBucketRegion xml
  end.

(** [pipesetup(response, concater, getListBucketTransformer())]: what the
    stream handed to the caller of listBuckets emits. *)
Definition listBucketPipeline (response : Response.t) : Error + list (string * string) :=
  match concater (Response.body response) with
  | inl e => inl e
  | inr xml => parseListBucket xml
  end.

End Pipelines.

(** ** The world of a client: state passing for asynchronous calls *)

(** A request as the transport received it: the options and the payload
    written by [req.end]. *)
Record Sent := {
  sent_options : ReqOptions.t;
  sent_payload : string
}.

(** The client object, the events the transport will answer the coming
    requests with (one per request, in order, like the queue of the mock
    transport), and the requests sent so far. *)
Record World := {
  client : Client;
  events : list TransportEvent;
  requests : list Sent
}.

Definition M (A : Type) : Type := World -> result A * World.

#[global] Instance M_ret : MRet M := fun A (a : A) (w : World) => (Value a, w).

#[global] Instance M_bind : MBind M :=
  fun A B (k : A -> M B) (m : M A) (w : World) =>
    match m w with
    | (Value a, w') => k a w'
    | (Failed e, w') => (Failed e, w')
    | (Thrown x, w') => (Thrown x, w')
    | (Pending, w') => (Pending, w')
    end.

(** A node-style callback [(e, value) => ...] attached to an operation: it
    runs once the operation calls back, with the error or with the value. *)
Definition callback {A B : Type} (m : M A) (cb : Error + A -> M B) : M B :=
  fun w =>
    match m w with
    | (Value a, w') => cb (inr a) w'
    | (Failed e, w') => cb (inl e) w'
    | (Thrown x, w') => (Thrown x, w')
    | (Pending, w') => (Pending, w')
    end.

Definition fail {A : Type} (e : Error) : M A := fun w => (Failed e, w).
Definition throw {A : Type} (x : Exception) : M A := fun w => (Thrown x, w).
Definition this : M Client := fun w => (Value (client w), w).

Definition set_regionMap (c : Client) (m : gmap string string) : Client :=
  {| params := params c; transport := transport c;
     minioStorage := minioStorage c; regionMap := m |}.

(** The world once a request is sent: it is recorded, and [rest] are the
    events still to come. *)
Definition after_request (w : World) (sent : Sent) (rest : list TransportEvent) : World :=
  {| client := client w; events := rest; requests := (requests w ++ [sent])%list |}.

(** [this.transport.request(reqOptions, ...)] followed by [req.end(payload)]:
    the request is recorded and the next event of the transport is
    delivered; with no event left the listeners are never called. *)
Definition transport_request (reqOptions : ReqOptions.t) (payload : string)
  : M TransportEvent :=
  fun w =>
    let sent := {| sent_options := reqOptions; sent_payload := payload |} in
    match events w with
    | [] => (Pending, after_request w sent [])
    | ev :: rest => (Value ev, after_request w sent rest)
    end.

(** ** Region lookup (getBucketRegion, lines 205-236)

    The function has two phases: the call itself (lines 206-216 and 235),
    which answers at once or sends a location request, and the listeners
    (lines 217-234), which run when the transport delivers the event of that
    request. *)

(** The names of the properties of Object.prototype (Node). *)
Definition Object_prototype : list string :=
  ["constructor"; "hasOwnProperty"; "isPrototypeOf"; "propertyIsEnumerable";
   "toLocaleString"; "toString"; "valueOf"; "__proto__"; "__defineGetter__";
   "__defineSetter__"; "__lookupGetter__"; "__lookupSetter__"].

(** [this.regionMap[bucketName]]: the entry of the cache, or else the
    property of Object.prototype of that name, or else undefined. *)
Definition regionMap_get (c : Client) (bucketName : string) : option Region :=
  match regionMap c !! bucketName with
  | Some region => Some (RegionName region)
  | None =>
      if existsb (String.eqb bucketName) Object_prototype
      then Some (Inherited bucketName)
      else None
  end.

Inductive Lookup :=
| Answered (region : Region)
| Requested (bucketName : string) (reqOptions : ReqOptions.t).

Section Region.
Context `{Signing} `{Parsers}.

Definition getBucketRegion_call (c : Client) (bucketName : option string) : Lookup :=
  if negb (String.eqb (host (params c)) "s3.amazonaws.com") then Answered "us-east-1"
  else if negb (Js.truthy bucketName) then Answered "us-east-1"
  else
    let bucketName := Js.template bucketName in
    let reqOptions :=
      {| ReqOptions.method := "GET";
         ReqOptions.host := host (params c);
         ReqOptions.port := port (params c);
         ReqOptions.protocol := protocol (params c);
         ReqOptions.headers := None;
         ReqOptions.path := "/" ++ bucketName ++ "?location" |} in
    let requested :=
      Requested bucketName
        (signV4 reqOptions "" (accessKey (params c)) (secretKey (params c)) "us-east-1") in
    match regionMap_get c bucketName with
    | Some (RegionName region) =>
        if Js.truthy (Some region) then Answered region else requested
    | Some (Inherited property) => Answered (Inherited property)
    | None => requested
    end.

(** The listeners of the location request for [bucketName]: the callback's
    outcome and the client afterwards. *)
Definition getBucketRegion_event (c : Client) (bucketName : string)
    (ev : TransportEvent) : result Region * Client :=
  match ev with
  | OnError e => (Failed e, c)
  | OnResponse response =>
      if negb (Response.statusCode response =? 200) then
        (Failed (errorPipeline response), c)
      else
        match bucketRegionPipeline response with
        | inl e => (Failed e, c)
        | inr region =>
            let region := if Js.truthy (Some region) then region else "us-east-1" in
            (Value (RegionName region),
             set_regionMap c (<[bucketName := region]> (regionMap c)))
        end
  end.

(** A lookup run to its end: the call, then the event of its request. *)
Definition getBucketRegion (bucketName : option string) : M Region :=
  fun w =>
    match getBucketRegion_call (client w) bucketName with
    | Answered region => (Value region, w)
    | Requested name reqOptions =>
        match transport_request reqOptions "" w with
        | (Value ev, w') =>
            let '(r, c') := getBucketRegion_event (client w') name ev in
            (r, {| client := c'; events := events w'; requests := requests w' |})
        | (Failed e, w') => (Failed e, w')
        | (Thrown x, w') => (Thrown x, w')
        | (Pending, w') => (Pending, w')
        end
    end.

End Region.

(** ** Requests (makeRequest and the operations built on it) *)

Section Requests.
Context `{Helpers} `{Signing} `{Parsers}.

(** The response listener of makeRequest (lines 189-199), for the expected
    status [statusCode]. *)
Definition makeRequest_response (statusCode : Z) (response : Response.t)
  : result Response.t :=
  if statusCode =? 0 then Value response
  else if negb (statusCode =? Response.statusCode response) then
    Failed (errorPipeline response)
  else Value response.

(** makeRequest (lines 173-203).  The three-argument call
    [makeRequest(options, statusCode, cb)] is the call with the empty
    payload (lines 174-178). *)
Definition makeRequest (options : Options.t) (payload : string) (statusCode : Z)
  : M Response.t :=
  c ← this;
  let reqOptions := getRequestOptions c options in
  let sha256 := sha256_hex payload in
  region ← getBucketRegion (Options.bucketName options);
  c ← this;
  let reqOptions :=
    signV4 reqOptions sha256 (accessKey (params c)) (secretKey (params c)) region in
  ev ← transport_request reqOptions payload;
  match ev with
  | OnError e => fail e
  | OnResponse response => fun w => (makeRequest_response statusCode response, w)
  end.

Definition code_is (e : Error) (c : string) : bool :=
  match code e with
  | Some s => String.eqb s c
  | None => false
  end.

(** listBuckets (lines 291-310): the caller gets the stream of the parsed
    listing, here by what it emits. *)
Definition listBuckets : M (Error + list (string * string)) :=
  let method := "GET" in
  callback
    (makeRequest
       {| Options.method := method; Options.bucketName := None;
          Options.objectName := None; Options.headers := None;
          Options.query := None |} "" 200)
    (fun r =>
       match r with
       | inl e =>
           let e :=
             if code_is e "TemporaryRedirect" then
               {| code := Some "AccessDenied";
                  message := "Valid and authorized credentials required";
                  fields := fields e |}
             else e in
           fail e
       | inr response => mret (listBucketPipeline response)
       end).

(** The Range header value of getPartialObject (lines 557-568); the unary
    plus leaves a number as it is. *)
Definition range_of (offset length : Number.t) : string :=
  let range := "" in
  if Number.truthy offset || Number.truthy length then
    let '(range, offset) :=
      if Number.truthy offset
      then ("bytes=" ++ Number.toString offset ++ "-", offset)
      else ("bytes=0-", Number.of_Z 0) in
    if Number.truthy length
    then range ++ Number.toString (Number.sub (Number.add length offset) 1)
    else range
  else range.

(** The options getPartialObject hands to makeRequest (lines 570-576). *)
Definition getPartialObject_options (bucketName objectName : string)
    (offset length : Number.t) : Options.t :=
  let range := range_of offset length in
  let headers := if String.eqb range "" then [] else [("Range", range)] in
  {| Options.method := "GET"; Options.bucketName := Some bucketName;
     Options.objectName := Some objectName; Options.headers := Some headers;
     Options.query := None |}.

(** getPartialObject (lines 537-589): the caller gets the stream of the
    object content. *)
Definition getPartialObject (bucketName objectName : string)
    (offset length : Number.t) : M Stream :=
  if negb (isValidBucketName bucketName) then
    throw (InvalidBucketNameException ("Invalid bucket name: " ++ bucketName))
  else if negb (isValidObjectName objectName) then
    throw (InvalidObjectNameException ("Invalid object name: " ++ objectName))
  else if Js.trim_is_empty objectName then
    throw (InvalidObjectNameException "Object name cannot be empty")
  else
    callback
      (makeRequest (getPartialObject_options bucketName objectName offset length) "" 0)
      (fun r =>
         match r with
         | inl e => fail e
         | inr response =>
             if negb ((Response.statusCode response =? 200)
                      || (Response.statusCode response =? 206)) then
               fail (errorPipeline response)
             else mret (dummyTransformer (Response.body response))
         end).

(** getObject (lines 513-527). *)
Definition getObject (bucketName objectName : string) : M Stream :=
  if negb (isValidBucketName bucketName) then
    throw (InvalidBucketNameException ("Invalid bucket name: " ++ bucketName))
  else if negb (isValidObjectName objectName) then
    throw (InvalidObjectNameException ("Invalid object name: " ++ objectName))
  else if Js.trim_is_empty objectName then
    throw (InvalidObjectNameException "Object name cannot be empty")
  else getPartialObject bucketName objectName 0 0.

End Requests.

(** ** Uploads (putObject, lines 600-677) *)

(** A part of a multipart upload as the part listing reports it. *)
Inductive PartInfo := MkPart (part : Z) (etag : string) (size : Z).

(** The methods of multipart.js that putObject calls, by what each hands to
    its callback: an error or a value.  [uploadParts stream partSize size
    bucketName objectName contentType uploadId etags] stands for the pipeline
    of lines 661-666: the stream cut into blocks of [partSize] bytes
    (BlockStream2), checked against [size] (getSizeVerifierTransformer) and
    uploaded by [chunkUploader(bucketName, objectName, contentType, uploadId,
    etags)]. *)
Class Multipart := {
  doPutObject :
    string -> string -> string -> option string -> option Z -> string -> Error + string;
  findUploadId : string -> string -> Error + option string;
  listAllParts : string -> string -> string -> Error + list PartInfo;
  initiateNewMultipartUpload : string -> string -> string -> Error + string;
  uploadParts :
    Stream -> Z -> Z -> string -> string -> string -> string -> list PartInfo ->
    Error + list PartInfo;
  completeMultipartUpload : string -> string -> string -> list PartInfo -> Error + string
}.

(** The calls putObject makes, in order. *)
Inductive Call :=
| DoPutObject (bucketName objectName contentType : string)
    (uploadId : option string) (part : option Z) (chunk : string)
| FindUploadId (bucketName objectName : string)
| ListAllParts (bucketName objectName uploadId : string)
| InitiateNewMultipartUpload (bucketName objectName contentType : string)
| UploadParts (partSize size : Z) (bucketName objectName contentType uploadId : string)
    (etags : list PartInfo)
| CompleteMultipartUpload (bucketName objectName uploadId : string)
    (etags : list PartInfo).

(** A chain of calls with node-style callbacks, as async.waterfall runs it:
    the calls made so far, and the error that ended the chain or the value
    handed to the next task. *)
Definition Waterfall (A : Type) : Type := list Call * (Error + A).

#[global] Instance Waterfall_ret : MRet Waterfall := fun A (a : A) => ([], inr a).

#[global] Instance Waterfall_bind : MBind Waterfall :=
  fun A B (k : A -> Waterfall B) (m : Waterfall A) =>
    match m with
    | (calls, inl e) => (calls, inl e)
    | (calls, inr a) => let (calls2, r) := k a in ((calls ++ calls2)%list, r)
    end.

Definition task {A : Type} (c : Call) (answer : Error + A) : Waterfall A := ([c], answer).

(** The final callback of the waterfall (lines 671-676). *)
Definition finish {A : Type} (m : Waterfall A) : list Call * result A :=
  match m with
  | (calls, inl err) => (calls, Failed err)
  | (calls, inr etag) => (calls, Value etag)
  end.

Section Uploads.
Context `{Helpers} `{Multipart}.

Definition putObject (bucketName objectName : string) (stream : Stream) (size : Z)
    (contentType : string) : list Call * result string :=
  if negb (isValidBucketName bucketName) then
    ([], Thrown (InvalidBucketNameException ("Invalid bucket name: " ++ bucketName)))
  else if negb (isValidObjectName objectName) then
    ([], Thrown (InvalidObjectNameException ("Invalid object name: " ++ objectName)))
  else if Js.trim_is_empty objectName then
    ([], Thrown (InvalidObjectNameException "Object name cannot be empty"))
  else
    let contentType :=
      if Js.trim_is_empty contentType then "application/octet-stream"
      else contentType in
    if size <=? 5 * 1024 * 1024 then
      match concater stream with
      | inl e => ([], Failed e)
      | inr chunk =>
          finish
            (task (DoPutObject bucketName objectName contentType None None chunk)
               (doPutObject bucketName objectName contentType None None chunk))
      end
    else
      finish
        (uploadId ← task (FindUploadId bucketName objectName)
                      (findUploadId bucketName objectName);
         found ←
           (if Js.truthy uploadId then
              let uploadId := Js.template uploadId in
              etags ← task (ListAllParts bucketName objectName uploadId)
                        (listAllParts bucketName objectName uploadId);
              mret (uploadId, etags)
            else
              uploadId ← task (InitiateNewMultipartUpload bucketName objectName contentType)
                           (initiateNewMultipartUpload bucketName objectName contentType);
              mret (uploadId, []));
         let '(uploadId, etags) := found in
         let partSize := calculatePartSize size in
         etags ← task (UploadParts partSize size bucketName objectName contentType
                         uploadId etags)
                   (uploadParts stream partSize size bucketName objectName contentType
                      uploadId etags);
         task (CompleteMultipartUpload bucketName objectName uploadId etags)
           (completeMultipartUpload bucketName objectName uploadId etags)).

End Uploads.

(** ** A client among overlapping calls

    Calls of one client overlap: a lookup whose location request is sent
    stays in flight until the transport delivers its event, and other calls
    run meanwhile.  Every operation of the client reads and writes
    [regionMap] through getBucketRegion only, so for the cache an operation
    is a sequence of lookup calls and deliveries; setAppInfo is the other
    method that changes the client object. *)

Record System := {
  instance : Client;
  inflight : list string
}.

Inductive Operation :=
| CallGetBucketRegion (bucketName : option string)
| Deliver (n : nat) (ev : TransportEvent)
| CallSetAppInfo (appName appVersion : string).

Section Overlapping.
Context `{Signing} `{Parsers}.

Definition perform (s : System) (op : Operation) : System :=
  match op with
  | CallGetBucketRegion bucketName =>
      match getBucketRegion_call (instance s) bucketName with
      | Answered _ => s
      | Requested name _ =>
          {| instance := instance s; inflight := (inflight s ++ [name])%list |}
      end
  | Deliver n ev =>
      match inflight s !! n with
      | None => s
      | Some name =>
          {| instance := snd (getBucketRegion_event (instance s) name ev);
             inflight := delete n (inflight s) |}
      end
  | CallSetAppInfo appName appVersion =>
      match setAppInfo (instance s) appName appVersion with
      | inl _ => s
      | inr c => {| instance := c; inflight := inflight s |}
      end
  end.

Definition run (s : System) (ops : list Operation) : System :=
  fold_left perform ops s.

(** The client right after construction, with nothing in flight. *)
Definition fresh (c : Client) : System :=
  {| instance := set_regionMap c ∅; inflight := [] |}.

Definition reachable (s : System) : Prop :=
  exists c ops, s = run (fresh c) ops.

(** Every entry of the cache is a non-empty region code. *)
Definition entries_truthy (m : gmap string string) : Prop :=
  forall bucketName region, m !! bucketName = Some region -> region <> "".

End Overlapping.

(** ** Bucket access control (getBucketACL, lines 404-449) *)

(** A grant of the parsed access control list: the URI of the grantee and
    the permission, either of which the document may leave out. *)
Record Grant := {
  grantee_uri : option string;
  permission : option string
}.

(** The accumulator of the reduce over the grants: a flag is set or
    missing. *)
Record Perm := {
  publicRead : bool;
  publicWrite : bool;
  authenticatedRead : bool;
  authenticatedWrite : bool
}.

Definition no_perm : Perm :=
  {| publicRead := false; publicWrite := false;
     authenticatedRead := false; authenticatedWrite := false |}.

Definition AllUsers : string := "http://acs.amazonaws.com/groups/global/AllUsers".
Definition AuthenticatedUsers : string :=
  "http://acs.amazonaws.com/groups/global/AuthenticatedUsers".

(** Strict equality of a value that may be undefined with a string. *)
Definition is_string (v : option string) (s : string) : bool :=
  match v with
  | Some x => String.eqb x s
  | None => false
  end.

(** The function reduced over the grants (lines 420-435). *)
Definition acl_step (acc : Perm) (grant : Grant) : Perm :=
  if is_string (grantee_uri grant) AllUsers then
    if is_string (permission grant) "READ" then
      {| publicRead := true; publicWrite := publicWrite acc;
         authenticatedRead := authenticatedRead acc;
         authenticatedWrite := authenticatedWrite acc |}
    else if is_string (permission grant) "WRITE" then
      {| publicRead := publicRead acc; publicWrite := true;
         authenticatedRead := authenticatedRead acc;
         authenticatedWrite := authenticatedWrite acc |}
    else acc
  else if is_string (grantee_uri grant) AuthenticatedUsers then
    if is_string (permission grant) "READ" then
      {| publicRead := publicRead acc; publicWrite := publicWrite acc;
         authenticatedRead := true;
         authenticatedWrite := authenticatedWrite acc |}
    else if is_string (permission grant) "WRITE" then
      {| publicRead := publicRead acc; publicWrite := publicWrite acc;
         authenticatedRead := authenticatedRead acc;
         authenticatedWrite := true |}
    else acc
  else acc.

(** The canned ACL of the flags (lines 436-445). *)
Definition cannedACL_of (perm : Perm) : string :=
  if publicRead perm && publicWrite perm
     && negb (authenticatedRead perm) && negb (authenticatedWrite perm)
  then "public-read-write"
  else if publicRead perm && negb (publicWrite perm)
          && negb (authenticatedRead perm) && negb (authenticatedWrite perm)
  then "public-read"
  else if negb (publicRead perm) && negb (publicWrite perm)
          && authenticatedRead perm && negb (authenticatedWrite perm)
  then "authenticated-read"
  else if negb (publicRead perm) && negb (publicWrite perm)
          && negb (authenticatedRead perm) && negb (authenticatedWrite perm)
  then "private"
  else "unsupported-acl".

(** The data listener of getBucketACL: the canned ACL of a parsed list. *)
Definition cannedACL (acl : list Grant) : string :=
  cannedACL_of (fold_left acl_step acl no_perm).

(** The ACL parser of transformers.js (getAclTransformer), reading a whole
    document. *)
Class AclParser := {
  parseAcl : string -> Error + list Grant
}.

Section BucketACL.
Context `{Helpers} `{Signing} `{Parsers} `{AclParser}.

Definition getBucketACL (bucketName : string) : M string :=
  if negb (isValidBucketName bucketName) then
    throw (InvalidBucketNameException ("Invalid bucket name: " ++ bucketName))
  else
    callback
      (makeRequest
         {| Options.method := "GET"; Options.bucketName := Some bucketName;
            Options.objectName := None; Options.headers := None;
            Options.query := Some "acl" |} "" 200)
      (fun r =>
         match r with
         | inl e => fail e
         | inr response =>
             match concater (Response.body response) with
             | inl e => fail e
             | inr xml =>
                 match parseAcl xml with
                 | inl e => fail e
                 | inr acl => mret (cannedACL acl)
                 end
             end
         end).

End BucketACL.

(** [grants_to acl uri perm]: some grant of the list gives the permission
    [perm] to the group [uri]. *)
Definition grants_to (acl : list Grant) (uri perm : string) : Prop :=
  exists grant, In grant acl
                /\ grantee_uri grant = Some uri /\ permission grant = Some perm.

(** ** Listing objects (listObjectsOnce and listObjects, lines 679-760) *)

(** uriEscape of helpers.js. *)
Class Escaping := {
  uriEscape : string -> string
}.

(** [Array.prototype.sort] without a comparator, on strings: the sorted
    permutation by code units (unique, equal strings being the same). *)
Fixpoint sort_insert (x : string) (l : list string) : list string :=
  match l with
  | [] => [x]
  | y :: l' => if String.leb x y then x :: l else y :: sort_insert x l'
  end.

Definition Array_sort (l : list string) : list string := fold_right sort_insert [] l.

(** [queries.push(x)]. *)
Definition push (queries : list string) (x : string) : list string :=
  (queries ++ [x])%list.

(** The query string of listObjectsOnce (lines 680-705); [maxKeys] is a
    number, falsy when 0. *)
Section ListQuery.
Context `{Escaping}.

Definition listObjectsOnce_query (prefix marker delimiter : option string) (maxKeys : Z)
  : string :=
  let queries : list string := [] in
  let queries :=
    if Js.truthy prefix
    then push queries ("prefix=" ++ uriEscape (Js.template prefix)) else queries in
  let queries :=
    if Js.truthy marker
    then push queries ("marker=" ++ uriEscape (Js.template marker)) else queries in
  let queries :=
    if Js.truthy delimiter
    then push queries ("delimiter=" ++ uriEscape (Js.template delimiter))
    else queries in
  let queries :=
    if negb (maxKeys =? 0) then
      let maxKeys := if maxKeys >=? 1000 then 1000 else maxKeys in
      push queries ("max-keys=" ++ Js.Number_toString maxKeys)
    else queries in
  let queries := Array_sort queries in
  let query := "" in
  if (0 <? Z.of_nat (length queries)) then String.concat "&" queries else query.

End ListQuery.

(** An object of a listing, and one page of it as the parser of
    transformers.js (getListObjectsTransformer) hands it on. *)
Record ListedObject := {
  object_name : string;
  object_size : Z;
  object_etag : string;
  object_lastModified : string
}.

Record ListObjectsResult := {
  objects : list ListedObject;
  isTruncated : bool;
  nextMarker : option string
}.

Class ListParser := {
  parseListObjects : string -> Error + ListObjectsResult
}.

(** How the stream that listObjects returns ends: with the end of the
    stream, with an error event, with an exception in a listener, or not at
    all (the transport has delivered no event). *)
Inductive Ending :=
| Ended
| Errored (e : Error)
| Crashed (x : Exception)
| Open.

(** What the stream of listObjects delivers: the objects pushed, in order,
    and how it ends. *)
Record Listing := {
  listed : list ListedObject;
  ending : Ending
}.

Section ListObjects.
Context `{Helpers} `{Signing} `{Parsers} `{Escaping} `{ListParser}.

(** The options of the request of listObjectsOnce (lines 706-708). *)
Definition listObjectsOnce_options (bucketName : string)
    (prefix marker delimiter : option string) (maxKeys : Z) : Options.t :=
  {| Options.method := "GET"; Options.bucketName := Some bucketName;
     Options.objectName := None; Options.headers := None;
     Options.query := Some (listObjectsOnce_query prefix marker delimiter maxKeys) |}.

(** listObjectsOnce: the stream it returns emits one parsed page, or an
    error. *)
Definition listObjectsOnce (bucketName : string) (prefix marker delimiter : option string)
    (maxKeys : Z) : M ListObjectsResult :=
  callback
    (makeRequest (listObjectsOnce_options bucketName prefix marker delimiter maxKeys) "" 200)
    (fun r =>
       match r with
       | inl e => fail e
       | inr response =>
           match concater (Response.body response) with
           | inl e => fail e
           | inr xml =>
               match parseListObjects xml with
               | inl e => fail e
               | inr result => mret result
               end
           end
       end).

(** listNext of listObjects (lines 744-757); [fuel] bounds the number of
    pages asked for. *)
Fixpoint listNext (fuel : nat) (bucketName : string) (prefix delimiter marker : option string)
    (w : World) : option (Listing * World) :=
  match fuel with
  | O => None
  | S fuel' =>
      match listObjectsOnce bucketName prefix marker delimiter 1000 w with
      | (Value result, w') =>
          if isTruncated result then
            match listNext fuel' bucketName prefix delimiter (nextMarker result) w' with
            | Some (rest, w'') =>
                Some ({| listed := (objects result ++ listed rest)%list;
                         ending := ending rest |}, w'')
            | None => None
            end
          else Some ({| listed := objects result; ending := Ended |}, w')
      | (Failed e, w') => Some ({| listed := []; ending := Errored e |}, w')
      | (Thrown x, w') => Some ({| listed := []; ending := Crashed x |}, w')
      | (Pending, w') => Some ({| listed := []; ending := Open |}, w')
      end
  end.

(** listObjects (lines 730-760): an exception at the call, or the listing
    and the world after it.  Every page uses up an event of the transport,
    so one more page than there are events is fuel enough. *)
Definition listObjects (bucketName : string) (prefix : option string) (recursive : bool)
    (w : World) : Exception + option (Listing * World) :=
  if negb (isValidBucketName bucketName) then
    inl (InvalidBucketNameException ("Invalid bucket name: " ++ bucketName))
  else
    let delimiter := if recursive then None else Some "/" in
    inr (listNext (S (length (events w))) bucketName prefix delimiter None w).

(** The request of one page, as the transport receives it when the region
    is [region]. *)
Definition page_request (c : Client) (region : Region) (bucketName : string)
    (prefix delimiter marker : option string) : Sent :=
  {| sent_options :=
       signV4
         (getRequestOptions c
            (listObjectsOnce_options bucketName prefix marker delimiter 1000))
         (sha256_hex "") (accessKey (params c)) (secretKey (params c)) region;
     sent_payload := "" |}.

(** A response that carries the page [result]. *)
Definition carries_page (response : Response.t) (result : ListObjectsResult) : Prop :=
  Response.statusCode response = 200
  /\ exists xml, concater (Response.body response) = inr xml
                 /\ parseListObjects xml = inr result.

End ListObjects.

(** The markers of the requests for the pages [pages], the first request
    having the marker [marker]: each later request has the nextMarker of the
    page before it; and the marker that the request after them has. *)
Fixpoint markers_from (marker : option string)
    (pages : list (Response.t * ListObjectsResult)) : list (option string) :=
  match pages with
  | [] => []
  | page :: pages' => marker :: markers_from (nextMarker (snd page)) pages'
  end.

Fixpoint marker_after (marker : option string)
    (pages : list (Response.t * ListObjectsResult)) : option string :=
  match pages with
  | [] => marker
  | page :: pages' => marker_after (nextMarker (snd page)) pages'
  end.

(** The objects of the pages, in order. *)
Definition objects_of (pages : list (Response.t * ListObjectsResult)) : list ListedObject :=
  concat (map (fun page => objects (snd page)) pages).

(** The responses of the pages as events of the transport. *)
Definition responses_of (pages : list (Response.t * ListObjectsResult))
  : list TransportEvent :=
  map (fun page => OnResponse (fst page)) pages.

(** ** Objects and buckets (makeBucket, bucketExists, removeBucket,
    statObject and removeObject) *)

(** The value of a property of the headers object of a response. *)
Fixpoint header (name : string) (headers : list (string * string)) : option string :=
  match headers with
  | [] => None
  | (key, value) :: rest => if String.eqb key name then Some value else header name rest
  end.

(** The replace of statObject (line 791): the string without its double
    quotes. *)
Fixpoint remove_quotes (s : string) : string :=
  match s with
  | EmptyString => EmptyString
  | String c rest =>
      if ascii_dec c "034"%char then remove_quotes rest else String c (remove_quotes rest)
  end.

(** Unary plus on the value of a header: the number it denotes, when it
    denotes an integer. *)
Class Numbers := {
  toNumber : option string -> option Z
}.

(** The result of statObject (lines 789-794). *)
Record Stat := {
  stat_size : option Z;
  stat_etag : string;
  stat_contentType : option string;
  stat_lastModified : option string
}.

(** The object that makeBucketWithACL hands to the xml package (lines
    264-275): a CreateBucketConfiguration element with its xmlns attribute
    and its LocationConstraint; and the package. *)
Record CreateBucketConfiguration := {
  xmlns : string;
  LocationConstraint : string
}.

Class XmlPackage := {
  Xml : CreateBucketConfiguration -> string
}.

Section ObjectsAndBuckets.
Context `{Helpers} `{Signing} `{Parsers} `{Numbers} `{XmlPackage}.

(** makeBucketWithACL (lines 251-281). *)
Definition makeBucketWithACL (bucketName acl : string) (region : option string)
  : M Response.t :=
  if negb (isValidBucketName bucketName) then
    throw (InvalidBucketNameException ("Invalid bucket name: " ++ bucketName))
  else
    let payload :=
      if Js.truthy region then
        Xml {| xmlns := "http://s3.amazonaws.com/doc/2006-03-01/";
               LocationConstraint := Js.template region |}
      else "" in
    makeRequest
      {| Options.method := "PUT"; Options.bucketName := Some bucketName;
         Options.objectName := None; Options.headers := Some [("x-amz-acl", acl)];
         Options.query := None |} payload 200.

(** makeBucket (lines 243-249); no region stands for the call
    [makeBucket(bucketName, cb)]. *)
Definition makeBucket (bucketName : string) (region : option string) : M Response.t :=
  let region :=
    match region with
    | None => Some "us-east-1"
    | Some given => Some given
    end in
  makeBucketWithACL bucketName "private" region.

(** bucketExists (lines 372-381). *)
Definition bucketExists (bucketName : string) : M Response.t :=
  if negb (isValidBucketName bucketName) then
    throw (InvalidBucketNameException ("Invalid bucket name: " ++ bucketName))
  else
    makeRequest
      {| Options.method := "HEAD"; Options.bucketName := Some bucketName;
         Options.objectName := None; Options.headers := None;
         Options.query := None |} "" 200.

(** removeBucket (lines 388-397). *)
Definition removeBucket (bucketName : string) : M Response.t :=
  if negb (isValidBucketName bucketName) then
    throw (InvalidBucketNameException ("Invalid bucket name: " ++ bucketName))
  else
    makeRequest
      {| Options.method := "DELETE"; Options.bucketName := Some bucketName;
         Options.objectName := None; Options.headers := None;
         Options.query := None |} "" 204.

(** statObject (lines 772-797).  Without an etag header the listener throws
    while it builds the result, and the callback is not called. *)
Definition statObject (bucketName objectName : string) : M Stat :=
  if negb (isValidBucketName bucketName) then
    throw (InvalidBucketNameException ("Invalid bucket name: " ++ bucketName))
  else if negb (isValidObjectName objectName) then
    throw (InvalidObjectNameException ("Invalid object name: " ++ objectName))
  else if Js.trim_is_empty objectName then
    throw (InvalidObjectNameException "Object name cannot be empty")
  else
    callback
      (makeRequest
         {| Options.method := "HEAD"; Options.bucketName := Some bucketName;
            Options.objectName := Some objectName; Options.headers := None;
            Options.query := None |} "" 200)
      (fun r =>
         match r with
         | inl e => fail e
         | inr response =>
             let headers := Response.headers response in
             let size := toNumber (header "content-length" headers) in
             match header "etag" headers with
             | None => throw (TypeError "Cannot read property 'replace' of undefined")
             | Some etag =>
                 mret {| stat_size := size;
                         stat_etag := remove_quotes etag;
                         stat_contentType := header "content-type" headers;
                         stat_lastModified := header "last-modified" headers |}
             end
         end).

(** removeObject (lines 805-820). *)
Definition removeObject (bucketName objectName : string) : M Response.t :=
  if negb (isValidBucketName bucketName) then
    throw (InvalidBucketNameException ("Invalid bucket name: " ++ bucketName))
  else if negb (isValidObjectName objectName) then
    throw (InvalidObjectNameException ("Invalid object name: " ++ objectName))
  else if Js.trim_is_empty objectName then
    throw (InvalidObjectNameException "Object name cannot be empty")
  else
    makeRequest
      {| Options.method := "DELETE"; Options.bucketName := Some bucketName;
         Options.objectName := Some objectName; Options.headers := None;
         Options.query := None |} "" 204.

End ObjectsAndBuckets.

(** The requests that makeRequest adds: the location request, when the
    lookup sends one, and then the request itself, when the lookup has
    answered with a region. *)
Section RequestsSent.
Context `{Helpers} `{Signing} `{Parsers}.

Definition lookup_requests (c : Client) (bucketName : option string) : list Sent :=
  match getBucketRegion_call c bucketName with
  | Answered _ => []
  | Requested _ reqOptions => [{| sent_options := reqOptions; sent_payload := "" |}]
  end.

Definition own_request (c : Client) (options : Options.t) (payload : string)
    (region : Region) : Sent :=
  {| sent_options :=
       signV4 (getRequestOptions c options) (sha256_hex payload)
         (accessKey (params c)) (secretKey (params c)) region;
     sent_payload := payload |}.

End RequestsSent.

(** ** Post policies (class PostPolicy, lines 915-985) *)

(** A condition of a policy: the arrays pushed by the setters. *)
Inductive Condition :=
| ConditionEq (field value : string)
| ConditionStartsWith (field value : string)
| ConditionContentLengthRange (min max : option Number.t).

Record Policy := {
  conditions : list Condition;
  expiration : option string
}.

Record PostPolicy := {
  policy : Policy;
  formData : gmap string string
}.

(** What a method of PostPolicy throws: the outcome of [throw new
    errors(msg)], where errors is the default export of errors.js, or the
    reference error of a name that is declared nowhere. *)
Inductive Raised :=
| ErrorsThrown (msg : string)
| ReferenceError (name : string).

(** The moment package, as far as PostPolicy and presignedPostPolicy use
    it: moments (of a native date, or of the clock), and their text in a
    given format. *)
Class MomentPackage := {
  NativeDate : Type;
  Moment : Type;
  Moment_of : NativeDate -> Moment;
  Moment_format : Moment -> string -> string
}.

(** The constructor (lines 916-921). *)
Definition PostPolicy_new : PostPolicy :=
  {| policy := {| conditions := []; expiration := None |}; formData := ∅ |}.

Definition push_condition (p : PostPolicy) (c : Condition) : PostPolicy :=
  {| policy := {| conditions := (conditions (policy p) ++ [c])%list;
                  expiration := expiration (policy p) |};
     formData := formData p |}.

Definition set_formData (p : PostPolicy) (name value : string) : PostPolicy :=
  {| policy := policy p; formData := <[name := value]> (formData p) |}.

(** setExpires (lines 924-934): a moment is an object, so the check for a
    missing date never fires. *)
Definition setExpires `{MomentPackage} (p : PostPolicy) (nativedate : NativeDate)
  : Raised + PostPolicy :=
  let date := Moment_of nativedate in
  inr {| policy := {| conditions := conditions (policy p);
                      expiration := Some (Moment_format date "YYYY-MM-DDThh:mm:ss.SSS" ++ "Z") |};
         formData := formData p |}.

(** setKey (lines 937-943). *)
Definition setKey (p : PostPolicy) (key : option string) : Raised + PostPolicy :=
  if negb (Js.truthy key) then inl (ErrorsThrown "key can not be null")
  else
    let key := Js.template key in
    inr (set_formData (push_condition p (ConditionEq "$key" key)) "key" key).

(** setKeyStartsWith (lines 946-952): the array pushed names keyStartsWith,
    which is declared nowhere. *)
Definition setKeyStartsWith (p : PostPolicy) (prefix : option string)
  : Raised + PostPolicy :=
  if negb (Js.truthy prefix) then inl (ErrorsThrown "key prefix can not be null")
  else inl (ReferenceError "keyStartsWith").

(** setBucket (lines 955-961). *)
Definition setBucket (p : PostPolicy) (bucket : option string) : Raised + PostPolicy :=
  if negb (Js.truthy bucket) then inl (ErrorsThrown "bucket can not be null")
  else
    let bucket := Js.template bucket in
    inr (set_formData (push_condition p (ConditionEq "$bucket" bucket)) "bucket" bucket).

(** setContentType (lines 964-970). *)
Definition setContentType (p : PostPolicy) (type : option string) : Raised + PostPolicy :=
  if negb (Js.truthy type) then inl (ErrorsThrown "content-type can not be null")
  else
    let type := Js.template type in
    inr (set_formData (push_condition p (ConditionEq "$Content-Type" type))
           "Content-Type" type).

(** setContentLength (lines 973-984), for arguments that are numbers or
    undefined, which the comparisons take for NaN: the first throw names
    errrors, which
    is declared nowhere. *)
Definition setContentLength (p : PostPolicy) (min max : option Number.t)
  : Raised + PostPolicy :=
  if Number.gtb (Number.of_value min) (Number.of_value max) then
    inl (ReferenceError "errrors")
  else if Number.ltb (Number.of_value min) 0 then inl (ErrorsThrown "min has to be > 0")
  else if Number.ltb (Number.of_value max) 0 then inl (ErrorsThrown "max has to be > 0")
  else inr (push_condition p (ConditionContentLengthRange min max)).

(** A call of a setter, and a sequence of calls on one policy object; an
    exception ends the sequence. *)
Inductive SetterCall `{MomentPackage} :=
| CallSetExpires (nativedate : NativeDate)
| CallSetKey (key : option string)
| CallSetKeyStartsWith (prefix : option string)
| CallSetBucket (bucket : option string)
| CallSetContentType (type : option string)
| CallSetContentLength (min max : option Number.t).

Definition call_setter `{MomentPackage} (p : PostPolicy) (call : SetterCall)
  : Raised + PostPolicy :=
  match call with
  | CallSetExpires nativedate => setExpires p nativedate
  | CallSetKey key => setKey p key
  | CallSetKeyStartsWith prefix => setKeyStartsWith p prefix
  | CallSetBucket bucket => setBucket p bucket
  | CallSetContentType type => setContentType p type
  | CallSetContentLength min max => setContentLength p min max
  end.

Fixpoint call_setters `{MomentPackage} (p : PostPolicy) (calls : list SetterCall)
  : Raised + PostPolicy :=
  match calls with
  | [] => inr p
  | call :: calls' =>
      match call_setter p call with
      | inl raised => inl raised
      | inr p' => call_setters p' calls'
      end
  end.

(** ** Presigned URLs and post policies (lines 828-911) *)

(** signing.js, helpers.js and Node, as far as the presigning methods call
    them: [presignSignatureV4 options expires accessKey secretKey region]
    is the URL for the request options with their expires property;
    [encodePolicy] is the base64 text of JSON.stringify of a policy. *)
Class Presigning `{MomentPackage} := {
  presignSignatureV4 : ReqOptions.t -> string -> string -> string -> Region -> string;
  postPresignSignatureV4 : Region -> Moment -> string -> string -> string;
  getScope : Region -> Moment -> string;
  encodePolicy : Policy -> string
}.

Section Presigned.
Context `{Helpers} `{Signing} `{Parsers} `{MomentPackage} `{!Presigning}.




(** presignedPostPolicy (lines 886-911) with [date] for the moment that the
    clock gives: the caller gets the form data, and the policy object is
    left with the conditions and fields added.  The line printed on the
    console (line 889) is left out. *)
Definition presignedPostPolicy (postPolicy : PostPolicy) (date : Moment)
  : M (gmap string string * PostPolicy) :=
  region ← getBucketRegion (formData postPolicy !! "bucket");
  c ← this;
  let dateStr := Moment_format date "YYYYMMDDTHHmmss" ++ "Z" in
  let p := push_condition postPolicy (ConditionEq "$x-amz-date" dateStr) in
  let p := set_formData p "x-amz-date" dateStr in
  let p := push_condition p (ConditionEq "$x-amz-algorithm" "AWS4-HMAC-SHA256") in
  let p := set_formData p "x-amz-algorithm" "AWS4-HMAC-SHA256" in
  let credential := accessKey (params c) ++ "/" ++ getScope region date in
  let p := push_condition p (ConditionEq "$x-amz-credential" credential) in
  let p := set_formData p "x-amz-credential" credential in
  let policyBase64 := encodePolicy (policy p) in
  let p := set_formData p "policy" policyBase64 in
  let signature := postPresignSignatureV4 region date (secretKey (params c)) policyBase64 in
  let p := set_formData p "x-amz-signature" signature in
  mret (formData p, p).

End Presigned.

(** ** Removing an incomplete upload (removeIncompleteUpload, lines 483-505) *)

(** [this.findUploadId(bucketName, objectName, callback)] of multipart.js as
    an operation of the client: it lists the uploads through the transport
    and hands on the upload id, or undefined. *)
Class UploadLookup := {
  Client_findUploadId : string -> string -> M (option string)
}.

Section IncompleteUpload.
Context `{Helpers} `{Signing} `{Parsers} `{UploadLookup}.

(** The first throw (line 485) names bucket, which is declared nowhere: its
    argument raises the reference error before anything is constructed. *)
Definition removeIncompleteUpload (bucketName objectName : string)
  : Raised + M Response.t :=
  if negb (isValidBucketName bucketName) then inl (ReferenceError "bucket")
  else if negb (isValidObjectName objectName) then
    inr (throw (InvalidObjectNameException ("Invalid object name: " ++ objectName)))
  else if Js.trim_is_empty objectName then
    inr (throw (InvalidObjectNameException "Object name cannot be empty"))
  else
    inr (uploadId ← Client_findUploadId bucketName objectName;
         let method := "DELETE" in
         let query := "uploadId=" ++ Js.template uploadId in
         makeRequest
           {| Options.method := method; Options.bucketName := Some bucketName;
              Options.objectName := Some objectName; Options.headers := None;
              Options.query := Some query |} "" 204).

End IncompleteUpload.

(** ** The transport of the tests (class MockTransport) *)

Module MockTransport.

(** What addRequest stores: each of the four may be left out.  A
    verifyParams function is taken by whether it returns (true) or throws
    (false) on the params it is given. *)
Record Request := {
  verifyParams : option (ReqOptions.t -> bool);
  statusCode : option Z;
  responseHeaders : option (list (string * string));
  responseStream : option Stream
}.

(** The object, by its array [requests]. *)
Definition t : Type := list Request.

Definition new : t := [].

Definition addRequest (m : t) (verifyParams : option (ReqOptions.t -> bool))
    (statusCode : option Z) (responseHeaders : option (list (string * string)))
    (responseStream : option Stream) : t :=
  (m ++ [{| verifyParams := verifyParams; statusCode := statusCode;
            responseHeaders := responseHeaders;
            responseStream := responseStream |}])%list.

Definition clearRequests (m : t) : t := [].

(** request (lines 37-40): [requests.shift()], which is undefined on the
    empty array. *)
Definition request (m : t) : option Request * t :=
  match m with
  | [] => (None, [])
  | req :: rest => (Some req, rest)
  end.

(** What [end()] of the request object does: the callback is called with
    a response, verifyParams throws, or a TypeError is thrown, by reading a
    property of the undefined [this.req] or by calling the callback when the
    request was made without one.  The body of the response is a new
    readable.  Without a stored stream it is ended at once ([push(null)]),
    so the response is one with an empty body.  A stored stream is piped
    into it (line 60), and a readable cannot be written to: nothing of the
    stored stream reaches the body, which delivers no chunk and does not
    end, so the response is one with a status, headers and an open body. *)
Inductive Outcome :=
| Responded (response : Response.t)
| RespondedOpen (statusCode : Z) (headers : list (string * string))
| VerifyThrew
| TypeErrorThrown.

Definition _r (req : option Request) (params : ReqOptions.t) (callback : bool) : Outcome :=
  match req with
  | None => TypeErrorThrown
  | Some req =>
      let piped :=
        match responseStream req with
        | Some _ => true
        | None => false
        end in
      let verified :=
        match verifyParams req with
        | Some verify => verify params
        | None => true
        end in
      if negb verified then VerifyThrew
      else
        let status :=
          match statusCode req with
          | Some status => if status =? 0 then 200 else status
          | None => 200
          end in
        let headers :=
          match responseHeaders req with
          | Some headers => headers
          | None => []
          end in
        if negb callback then TypeErrorThrown
        else if piped then RespondedOpen status headers
        else
          Responded {| Response.statusCode := status; Response.headers := headers;
                       Response.body := {| chunks := []; failure := None |} |}
  end.

(** [transport.request(params, callback)] followed by [end()] on the
    request object; makeRequest passes a callback, the region lookup none. *)
Definition serve (m : t) (params : ReqOptions.t) (callback : bool) : Outcome * t :=
  let '(req, m) := request m in (_r req params callback, m).

(** Requests with a callback, one after the other. *)
Fixpoint serve_all (m : t) (params : list ReqOptions.t) : list Outcome * t :=
  match params with
  | [] => ([], m)
  | p :: params' =>
      let '(outcome, m) := serve m p true in
      let '(outcomes, m) := serve_all m params' in
      (outcome :: outcomes, m)
  end.

(** What a stored request is answered with, with what the mock fills in
    for the parts left out. *)
Definition answer (req : Request) : Outcome :=
  let status :=
    match statusCode req with
    | Some 0 | None => 200
    | Some status => status
    end in
  let headers := default [] (responseHeaders req) in
  match responseStream req with
  | Some _ => RespondedOpen status headers
  | None =>
      Responded {| Response.statusCode := status; Response.headers := headers;
                   Response.body := {| chunks := []; failure := None |} |}
  end.

(** An answer is a response with a status other than 0 that delivers no
    chunk. *)
Definition delivers_nothing (outcome : Outcome) : Prop :=
  match outcome with
  | Responded response =>
      Response.statusCode response <> 0 /\ chunks (Response.body response) = []
  | RespondedOpen status _ => status <> 0
  | _ => False
  end.

Definition verifies (req : Request) (params : ReqOptions.t) : bool :=
  match verifyParams req with
  | Some verify => verify params
  | None => true
  end.

End MockTransport.

(** ** Listing incomplete uploads (listIncompleteUploads, lines 324-365) *)

(** An upload of a page as the parser of upload listings reports it, and
    a page of the listing; the common prefixes of a page are taken as their
    text. *)
Record Upload := {
  upload_key : string;
  upload_uploadId : string
}.

Record ListUploadsResult := {
  uploads : list Upload;
  prefixes : list string;
  uploads_isTruncated : bool;
  nextKeyMarker : option string;
  nextUploadIdMarker : option string
}.

(** [listIncompleteUploadsOnce(bucket, prefix, keyMarker, uploadIdMarker,
    delimiter)] of multipart.js, by what its stream emits: an error or a
    page. *)
Class UploadLister := {
  listIncompleteUploadsOnce :
    string -> option string -> option string -> option string -> option string ->
    Error + ListUploadsResult
}.

(** What the stream of listIncompleteUploads is written: a prefix, or an
    upload with its size. *)
Inductive UploadEntry :=
| PrefixEntry (prefix : string)
| SizedUpload (key uploadId : string) (size : Z).

(** How that stream ends: with the end of the stream, with an error event,
    or with an exception in a callback, after which it neither ends nor
    fails. *)
Inductive UploadsEnding :=
| UploadsEnded
| UploadsErrored (e : Error)
| UploadsCrashed (x : Raised).

Record UploadsListing := {
  entries : list UploadEntry;
  uploads_ending : UploadsEnding
}.

Definition part_size (item : PartInfo) : Z :=
  match item with
  | MkPart _ _ size => size
  end.

Section IncompleteUploads.
Context `{Helpers} `{Multipart} `{UploadLister}.

(** [async.eachSeries(result.uploads, ...)] (lines 342-349): the uploads
    written, each with the sum of the sizes of its parts, and the error that
    stopped the series. *)
Fixpoint eachSeries_uploads (bucket : string) (series : list Upload)
  : list UploadEntry * option Error :=
  match series with
  | [] => ([], None)
  | upload :: series' =>
      match listAllParts bucket (upload_key upload) (upload_uploadId upload) with
      | inl err => ([], Some err)
      | inr parts =>
          let size := fold_left (fun acc item => acc + part_size item) parts 0 in
          let '(written, err) := eachSeries_uploads bucket series' in
          (SizedUpload (upload_key upload) (upload_uploadId upload) size :: written, err)
      end
  end.

(** listNext of listIncompleteUploads (lines 337-361); [fuel] bounds the
    number of pages asked for.  The callback that ends the series names e
    when the series has failed (line 351), which is declared nowhere in its
    scope. *)
Fixpoint listIncompleteUploads_listNext (fuel : nat) (bucket : string)
    (prefix delimiter keyMarker uploadIdMarker : option string) : option UploadsListing :=
  match fuel with
  | O => None
  | S fuel' =>
      match listIncompleteUploadsOnce bucket prefix keyMarker uploadIdMarker delimiter with
      | inl e => Some {| entries := []; uploads_ending := UploadsErrored e |}
      | inr result =>
          let '(written, err) := eachSeries_uploads bucket (uploads result) in
          let page := (map PrefixEntry (prefixes result) ++ written)%list in
          match err with
          | Some _ =>
              Some {| entries := page;
                      uploads_ending := UploadsCrashed (ReferenceError "e") |}
          | None =>
              if uploads_isTruncated result then
                match listIncompleteUploads_listNext fuel' bucket prefix delimiter
                        (nextKeyMarker result) (nextUploadIdMarker result) with
                | Some rest =>
                    Some {| entries := (page ++ entries rest)%list;
                            uploads_ending := uploads_ending rest |}
                | None => None
                end
              else Some {| entries := page; uploads_ending := UploadsEnded |}
          end
      end
  end.

(** listIncompleteUploads: an exception at the call, or what the stream
    delivers when at most [fuel] pages are asked for. *)
Definition listIncompleteUploads (fuel : nat) (bucket : string) (prefix : option string)
    (recursive : bool) : Exception + option UploadsListing :=
  if negb (isValidBucketName bucket) then
    inl (InvalidBucketNameException ("Invalid bucket name: " ++ bucket))
  else
    let delimiter := if recursive then None else Some "/" in
    inr (listIncompleteUploads_listNext fuel bucket prefix delimiter None None).

End IncompleteUploads.

(** ** Collaborators to run the model with

    Instances of the classes above, for the examples and to show that the
    hypotheses of the theorems below can be met. *)

Definition isUnreservedOrSlash (c : ascii) : bool :=
  let n := nat_of_ascii c in
  (((65 <=? n) && (n <=? 90)) || ((97 <=? n) && (n <=? 122))
   || ((48 <=? n) && (n <=? 57))
   || (n =? 45) || (n =? 95) || (n =? 46) || (n =? 126) || (n =? 47))%nat.

Definition hexDigit (n : nat) : ascii :=
  nth n (list_ascii_of_string "0123456789ABCDEF") "0"%char.

Definition percentEncode (c : ascii) : string :=
  let n := nat_of_ascii c in
  String "%" (String (hexDigit (n / 16)) (String (hexDigit (n mod 16)) EmptyString)).

(** Modelled from the spec: uriResourceEscape of helpers.js, which
    percent-encodes every byte of an object key other than the unreserved
    characters and the path separator. *)
Fixpoint uriResourceEscape_spec (s : string) : string :=
  match s with
  | EmptyString => EmptyString
  | String c rest =>
      (if isUnreservedOrSlash c then String c EmptyString else percentEncode c)
        ++ uriResourceEscape_spec rest
  end.

(** Helpers that accept every name. *)
Definition lenient_helpers : Helpers :=
  {| uriResourceEscape := uriResourceEscape_spec;
     isValidBucketName := fun _ => true;
     isValidObjectName := fun _ => true |}.

(** A signer that leaves the request as it is. *)
Definition blank_signing : Signing :=
  {| signV4 := fun reqOptions _ _ _ _ => reqOptions;
     sha256_hex := fun _ => "" |}.

(** Parsers for documents that hold nothing but the text asked for: an error
    document is the error code, a location document is the region. *)
Definition plain_parsers : Parsers :=
  {| parseError := fun _ xml => {| code := Some xml; message := ""; fields := [] |};
     parseBucketRegion := fun xml => inr xml;
     parseListBucket := fun _ => inr [] |}.

Definition some_platform : Platform :=
  {| process_platform := "linux"; process_arch := "x64"; Package_version := "0.2.5" |}.

(** Multipart methods over a server that holds no upload and accepts
    everything. *)
Definition empty_server : Multipart :=
  {| doPutObject := fun _ _ _ _ _ _ => inr "etag-single";
     findUploadId := fun _ _ => inr None;
     listAllParts := fun _ _ _ => inr [];
     initiateNewMultipartUpload := fun _ _ _ => inr "upload-1";
     uploadParts := fun _ _ _ _ _ _ _ etags => inr (etags ++ [MkPart 1 "etag-1" 0])%list;
     completeMultipartUpload := fun _ _ _ _ => inr "etag-multipart" |}.

(** Multipart methods over a server that reports an upload in progress. *)
Definition resuming_server : Multipart :=
  {| doPutObject := fun _ _ _ _ _ _ => inr "etag-single";
     findUploadId := fun _ _ => inr (Some "upload-0");
     listAllParts := fun _ _ _ => inr [MkPart 1 "etag-1" 5242880];
     initiateNewMultipartUpload := fun _ _ _ => inr "upload-1";
     uploadParts := fun _ _ _ _ _ _ _ etags => inr (etags ++ [MkPart 2 "etag-2" 0])%list;
     completeMultipartUpload := fun _ _ _ _ => inr "etag-multipart" |}.

Definition text_response (status : Z) (text : string) : Response.t :=
  {| Response.statusCode := status; Response.headers := [];
     Response.body := {| chunks := [text]; failure := None |} |}.

Definition client_of (hostname : string) (pathStyle : bool) : Client :=
  {| params := {| host := hostname; port := 9000; protocol := "http:";
                  accessKey := "access"; secretKey := "secret";
                  userAgent := "Minio (linux; x64) minio-js/0.2.5" |};
     transport := Http; minioStorage := pathStyle; regionMap := ∅ |}.

Definition world_of (c : Client) (evs : list TransportEvent) : World :=
  {| client := c; events := evs; requests := [] |}.

Definition ends_with (suffix s : string) : bool :=
  let n := String.length s in
  let m := String.length suffix in
  (m <=? n)%nat && String.eqb (substring (n - m) m s) suffix.

(** A parser for access control documents that hold one word per line: the
    grantee group (all or authenticated) and the permission. *)
Definition grant_of_word (word : string) : Grant :=
  if String.eqb word "all-read" then
    {| grantee_uri := Some AllUsers; permission := Some "READ" |}
  else if String.eqb word "all-write" then
    {| grantee_uri := Some AllUsers; permission := Some "WRITE" |}
  else if String.eqb word "authenticated-read" then
    {| grantee_uri := Some AuthenticatedUsers; permission := Some "READ" |}
  else if String.eqb word "authenticated-write" then
    {| grantee_uri := Some AuthenticatedUsers; permission := Some "WRITE" |}
  else {| grantee_uri := None; permission := Some "FULL_CONTROL" |}.

Definition word_acl_parser : AclParser :=
  {| parseAcl := fun xml => inr (map grant_of_word (String.words xml)) |}.

Definition isUnreserved (c : ascii) : bool :=
  let n := nat_of_ascii c in
  (((65 <=? n) && (n <=? 90)) || ((97 <=? n) && (n <=? 122))
   || ((48 <=? n) && (n <=? 57))
   || (n =? 45) || (n =? 95) || (n =? 46) || (n =? 126))%nat.

(** Modelled from the spec: uriEscape of helpers.js, which percent-encodes
    every byte of a query value other than the unreserved characters, the
    path separator included. *)
Fixpoint uriEscape_spec (s : string) : string :=
  match s with
  | EmptyString => EmptyString
  | String c rest =>
      (if isUnreserved c then String c EmptyString else percentEncode c)
        ++ uriEscape_spec rest
  end.

Definition spec_escaping : Escaping := {| uriEscape := uriEscape_spec |}.

Definition object_named (name : string) : ListedObject :=
  {| object_name := name; object_size := 0; object_etag := "";
     object_lastModified := "" |}.

(** A parser for pages that hold the names of the objects as words; a page
    whose last word is three dots is truncated, and its next marker is the
    name before the dots. *)
Definition page_of_words (words : list string) : ListObjectsResult :=
  match rev words with
  | dots :: name :: _ =>
      if String.eqb dots "..." then
        {| objects := map object_named (removelast words); isTruncated := true;
           nextMarker := Some name |}
      else {| objects := map object_named words; isTruncated := false;
              nextMarker := None |}
  | _ => {| objects := map object_named words; isTruncated := false;
            nextMarker := None |}
  end.

Definition word_list_parser : ListParser :=
  {| parseListObjects := fun xml => inr (page_of_words (String.words xml)) |}.

(** Numbers written in decimal digits. *)
Definition decimal_numbers : Numbers :=
  {| toNumber := fun v =>
       match v with
       | Some s => option_map Z.of_int (NilZero.int_of_string s)
       | None => None
       end |}.

(** An xml package that writes the location constraint alone. *)
Definition location_xml : XmlPackage :=
  {| Xml := fun configuration => LocationConstraint configuration |}.

(** What a call of a setter that returns has pushed on the conditions. *)
Definition pushed `{MomentPackage} (call : SetterCall) : list Condition :=
  match call with
  | CallSetExpires _ => []
  | CallSetKey key => [ConditionEq "$key" (Js.template key)]
  | CallSetKeyStartsWith _ => []
  | CallSetBucket bucket => [ConditionEq "$bucket" (Js.template bucket)]
  | CallSetContentType type => [ConditionEq "$Content-Type" (Js.template type)]
  | CallSetContentLength min max => [ConditionContentLengthRange min max]
  end.

Definition is_starts_with (c : Condition) : bool :=
  match c with
  | ConditionStartsWith _ _ => true
  | _ => false
  end.

Definition is_setKeyStartsWith `{MomentPackage} (call : SetterCall) : bool :=
  match call with
  | CallSetKeyStartsWith _ => true
  | _ => false
  end.

(** Every field of the form data has its eq condition in the policy. *)
Definition backed (p : PostPolicy) : Prop :=
  forall name value,
    formData p !! name = Some value ->
    In (ConditionEq ("$" ++ name) value) (conditions (policy p)).

(** The three conditions presignedPostPolicy adds for a region and a date. *)
Definition amz_conditions `{Presigning} (c : Client) (region : Region) (date : Moment)
  : list Condition :=
  [ConditionEq "$x-amz-date" (Moment_format date "YYYYMMDDTHHmmss" ++ "Z");
   ConditionEq "$x-amz-algorithm" "AWS4-HMAC-SHA256";
   ConditionEq "$x-amz-credential" (accessKey (params c) ++ "/" ++ getScope region date)].

(** The client, or the world, with another user agent. *)
Definition set_userAgent (c : Client) (agent : string) : Client :=
  {| params :=
       {| host := host (params c); port := port (params c);
          protocol := protocol (params c); accessKey := accessKey (params c);
          secretKey := secretKey (params c); userAgent := agent |};
     transport := transport c;
     minioStorage := minioStorage c;
     regionMap := regionMap c |}.

Definition world_userAgent (w : World) (agent : string) : World :=
  {| client := set_userAgent (client w) agent; events := events w;
     requests := requests w |}.

(** Moments as seconds, written in decimal before the format asked for. *)
Definition seconds_moment : MomentPackage :=
  {| NativeDate := Z; Moment := Z; Moment_of := fun seconds => seconds;
     Moment_format := fun seconds format => Js.Number_toString seconds ++ " " ++ format |}.

(** A region as a signer that writes text would show it. *)
Definition region_text (region : Region) : string :=
  match region with
  | RegionName name => name
  | Inherited property => "[Object.prototype." ++ property ++ "]"
  end.

(** A signer that writes down what it is given. *)
Definition plain_presigning : @Presigning seconds_moment :=
  {| presignSignatureV4 := fun reqOptions expires accessKey secretKey region =>
       ReqOptions.method reqOptions ++ " " ++ ReqOptions.path reqOptions
         ++ "?expires=" ++ expires ++ "&region=" ++ region_text region;
     postPresignSignatureV4 := fun region date secretKey policyBase64 =>
       "signed(" ++ region_text region ++ "," ++ policyBase64 ++ ")";
     getScope := fun region date =>
       @Moment_format seconds_moment date "YYYYMMDD" ++ "/" ++ region_text region
         ++ "/s3/aws4_request";
     encodePolicy := fun policy =>
       Js.Number_toString (Z.of_nat (length (conditions policy))) ++ " conditions" |}.

(** An upload lookup over a server without uploads in progress: it sends
    nothing and hands on undefined. *)
Definition no_uploads : UploadLookup :=
  {| Client_findUploadId := fun _ _ w => (Value None, w) |}.

(** Calls of setAppInfo one after the other on one client; an exception
    ends the sequence. *)
Fixpoint setAppInfos (c : Client) (infos : list (string * string)) : Exception + Client :=
  match infos with
  | [] => inr c
  | (appName, appVersion) :: infos' =>
      match setAppInfo c appName appVersion with
      | inl x => inl x
      | inr c' => setAppInfos c' infos'
      end
  end.

Definition appSuffix (info : string * string) : string :=
  " " ++ fst info ++ "/" ++ snd info.

(** Calls of addRequest one after the other, each with the four parts of a
    stored request. *)
Definition addRequests (m : MockTransport.t) (added : list MockTransport.Request)
  : MockTransport.t :=
  fold_left
    (fun m req =>
       MockTransport.addRequest m (MockTransport.verifyParams req)
         (MockTransport.statusCode req) (MockTransport.responseHeaders req)
         (MockTransport.responseStream req))
    added m.

(** A lister of uploads with one page: a prefix and the uploads of two
    objects. *)
Definition two_uploads : UploadLister :=
  {| listIncompleteUploadsOnce := fun _ _ _ _ _ =>
       inr {| uploads := [{| upload_key := "video.mp4"; upload_uploadId := "upload-1" |};
                          {| upload_key := "broken.bin"; upload_uploadId := "upload-2" |}];
              prefixes := ["photos/"];
              uploads_isTruncated := false;
              nextKeyMarker := None;
              nextUploadIdMarker := None |} |}.

(** Multipart methods over a server that cannot list the parts of
    broken.bin. *)
Definition broken_parts : Multipart :=
  {| doPutObject := fun _ _ _ _ _ _ => inr "etag-single";
     findUploadId := fun _ _ => inr None;
     listAllParts := fun _ objectName _ =>
       if String.eqb objectName "broken.bin"
       then inl {| code := Some "InternalError"; message := "parts"; fields := [] |}
       else inr [MkPart 1 "etag-1" 5242880; MkPart 2 "etag-2" 1024];
     initiateNewMultipartUpload := fun _ _ _ => inr "upload-1";
     uploadParts := fun _ _ _ _ _ _ _ etags => inr etags;
     completeMultipartUpload := fun _ _ _ _ => inr "etag-multipart" |}.





(** * Theorems *)

(** ** Part size *)

Lemma calculatePartSize_clamp (size : Z) :
  calculatePartSize size = clamp (size / 9999) minimumPartSize maximumPartSize.
Proof.
  unfold calculatePartSize, clamp, minimumPartSize, maximumPartSize.
  destruct (Z.gtb_spec (size / 9999) (5 * 1025 * 1024 * 1024)); lia.
Qed.

(** Where floor(size / 9999) stays within 5 GiB the code and the
    specification choose the same part size. *)
Lemma calculatePartSize_spec_agree (size : Z) :
  size / 9999 <= 5 * GiB -> calculatePartSize size = partSize_spec size.
Proof.
  intros Hq. rewrite calculatePartSize_clamp.
  unfold partSize_spec, clamp, minimumPartSize, maximumPartSize, MiB, GiB in *. lia.
Qed.

(** The bounds of the specification hold for every size up to 5 TiB: the
    part size lies between 5 MiB and 5 GiB and at most 10 000 parts are
    needed. *)
Theorem calculatePartSize_bounds (size : Z) :
  size <= 5 * TiB ->
  5 * MiB <= calculatePartSize size <= 5 * GiB
  /\ partCount size (calculatePartSize size) <= 10000.
Proof.
  intros Hsize.
  pose proof (Z.div_mod size 9999 ltac:(lia)) as Hdm.
  pose proof (Z.mod_pos_bound size 9999 ltac:(lia)) as Hmod.
  rewrite calculatePartSize_clamp.
  unfold clamp, minimumPartSize, maximumPartSize, partCount, MiB, GiB, TiB in *.
  set (q := size / 9999) in *.
  set (p := Z.max (5 * 1024 * 1024) (Z.min q (5 * 1025 * 1024 * 1024))).
  assert (Hp : 5 * 1024 * 1024 <= p /\ q <= p /\ p <= 5 * (1024 * 1024 * 1024))
    by (subst p; lia).
  split; [lia |].
  apply Z.lt_succ_r, Z.div_lt_upper_bound; lia.
Qed.

(** Above that, the code chooses a part size beyond the 5 GiB of the
    specification. *)
Lemma calculatePartSize_spec_differ (size : Z) :
  5 * GiB < size / 9999 ->
  partSize_spec size = 5 * GiB /\ 5 * GiB < calculatePartSize size.
Proof.
  intros Hq. rewrite calculatePartSize_clamp.
  unfold partSize_spec, clamp, minimumPartSize, maximumPartSize, MiB, GiB in *. lia.
Qed.

Lemma calculatePartSize_bounds_witness :
  5 * MiB <= calculatePartSize (30 * MiB) <= 5 * GiB
  /\ partCount (30 * MiB) (calculatePartSize (30 * MiB)) <= 10000.
Proof. apply (calculatePartSize_bounds (30 * MiB)). vm_compute. discriminate. Defined.

(** C1: for a declared size of 53 681 722 500 879 bytes, which is above
    5 MiB and so takes the multipart path, the code chooses a part size of
    5 368 709 121 bytes, one more than the 5 GiB that
    clamp(floor(size/9999), 5 MiB, 5 GiB) gives: the upper bound in the code
    is 5 * 1025 * 1024 * 1024. *)
Theorem calculatePartSize_above_5GiB :
  let size := 53681722500879 in
  5 * MiB < size
  /\ calculatePartSize size = 5368709121
  /\ partSize_spec size = 5368709120
  /\ 5 * GiB < calculatePartSize size
  /\ maximumPartSize = 5 * GiB + 5 * MiB.
Proof. vm_compute. repeat split. Qed.

(** ** Strings *)

Lemma append_cons (c : ascii) (s t : string) : String c s ++ t = String c (s ++ t).
Proof. reflexivity. Qed.

Lemma append_nil_l (s : string) : "" ++ s = s.
Proof. reflexivity. Qed.

Lemma append_nil_r (s : string) : s ++ "" = s.
Proof. induction s as [|c s IH]; [reflexivity|]. now rewrite append_cons, IH. Qed.

Lemma append_assoc (s t u : string) : (s ++ t) ++ u = s ++ (t ++ u).
Proof.
  induction s as [|c s IH]; [reflexivity|]. now rewrite !append_cons, IH.
Qed.

(** ** Addressing *)

Section Addressing.
Context `{Helpers}.

(** C2, amended: the host and the path of a request descriptor in which an
    object key comes with its bucket.  Path-style
    (self-hosted): the host is the configured host and the path is a slash,
    then the bucket, then a slash and the escaped object key, each when
    present.  Virtual-host-style
    (Amazon): the host is the bucket, a dot and the configured host when a
    bucket is present, and the path is a slash and the escaped object key:
    the bucket is not part of it.  A query, when present, follows the path
    after a question mark. *)
Theorem getRequestOptions_addressing (c : Client) (opts : Options.t) :
  let bucket := Options.bucketName opts in
  let escapedObject :=
    if Js.truthy (Options.objectName opts)
    then Some (uriResourceEscape (Js.template (Options.objectName opts)))
    else None in
  let search :=
    if Js.truthy (Options.query opts)
    then "?" ++ Js.template (Options.query opts) else "" in
  let r := getRequestOptions c opts in
  (minioStorage c = true ->
   (Js.truthy escapedObject = true -> Js.truthy bucket = true) ->
   ReqOptions.host r = host (params c)
   /\ ReqOptions.path r =
        "/" ++ (if Js.truthy bucket then Js.template bucket else "")
          ++ (if Js.truthy escapedObject then "/" ++ Js.template escapedObject else "")
          ++ search)
  /\ (minioStorage c = false ->
      ReqOptions.host r =
        (if Js.truthy bucket then Js.template bucket ++ "." ++ host (params c)
         else host (params c))
      /\ ReqOptions.path r =
           "/" ++ (if Js.truthy escapedObject then Js.template escapedObject else "")
             ++ search).
Proof.
  intros bucket escapedObject search r.
  subst bucket escapedObject search r. unfold getRequestOptions.
  destruct opts as [m b o h q]; cbn [Options.bucketName Options.objectName Options.query] in *.
  split; intros ->.
  - intros Hobj. destruct (Js.truthy o) eqn:Ho.
    + destruct (Js.truthy (Some (uriResourceEscape (Js.template o)))) eqn:He.
      * rewrite (Hobj eq_refl).
        destruct (Js.truthy q); cbn [ReqOptions.host ReqOptions.path Js.template];
          rewrite ?append_assoc, ?append_cons, ?append_nil_l, ?append_nil_r;
          split; reflexivity.
      * destruct (Js.truthy b), (Js.truthy q);
          cbn [ReqOptions.host ReqOptions.path Js.template];
          rewrite ?append_assoc, ?append_cons, ?append_nil_l, ?append_nil_r;
          split; reflexivity.
    + rewrite Ho.
      destruct (Js.truthy b), (Js.truthy q);
        cbn [ReqOptions.host ReqOptions.path Js.template Js.truthy];
        rewrite ?append_assoc, ?append_cons, ?append_nil_l, ?append_nil_r;
        split; reflexivity.
  - destruct (Js.truthy o) eqn:Ho.
    + destruct (Js.truthy (Some (uriResourceEscape (Js.template o))));
        destruct (Js.truthy b), (Js.truthy q);
        cbn [ReqOptions.host ReqOptions.path Js.template];
        rewrite ?append_assoc, ?append_cons, ?append_nil_l, ?append_nil_r;
        split; reflexivity.
    + rewrite Ho.
      destruct (Js.truthy b), (Js.truthy q);
        cbn [ReqOptions.host ReqOptions.path Js.template Js.truthy];
        rewrite ?append_assoc, ?append_cons, ?append_nil_l, ?append_nil_r;
        split; reflexivity.
Qed.

(** The fields that getRequestOptions copies. *)
Lemma getRequestOptions_copies (c : Client) (opts : Options.t) :
  let r := getRequestOptions c opts in
  ReqOptions.method r = Options.method opts
  /\ ReqOptions.headers r = Options.headers opts
  /\ ReqOptions.port r = port (params c)
  /\ ReqOptions.protocol r = protocol (params c).
Proof.
  unfold getRequestOptions. destruct (minioStorage c); repeat split.
Qed.

End Addressing.

Lemma getRequestOptions_addressing_witness :
  let opts :=
    {| Options.method := "GET"; Options.bucketName := Some "mybucket";
       Options.objectName := Some "some key.txt"; Options.headers := None;
       Options.query := None |} in
  let r := @getRequestOptions lenient_helpers (client_of "play.example.com" true) opts in
  ReqOptions.host r = "play.example.com"
  /\ ReqOptions.port r = 9000
  /\ ReqOptions.path r = "/mybucket/some%20key.txt".
Proof.
  intros opts r.
  destruct (@getRequestOptions_addressing lenient_helpers
              (client_of "play.example.com" true) opts) as [Hpath _].
  destruct (Hpath eq_refl (fun _ => eq_refl)) as [Hhost Hp].
  split; [exact Hhost | split; [reflexivity | exact Hp]].
Defined.

(** C2 as stated fails for an object key without a bucket: in path-style
    mode getRequestOptions prints the missing bucket into the path, which is
    neither a slash followed by the escaped key nor a slash extended with a
    slash and the escaped key; in virtual-host mode the path is as stated.
    No caller in minio.js gives an object key without a bucket. *)
Lemma getRequestOptions_object_without_bucket :
  let opts :=
    {| Options.method := "GET"; Options.bucketName := None;
       Options.objectName := Some "key"; Options.headers := None;
       Options.query := None |} in
  let path_style :=
    @getRequestOptions lenient_helpers (client_of "play.example.com" true) opts in
  let virtual_host :=
    @getRequestOptions lenient_helpers (client_of "s3.amazonaws.com" false) opts in
  @uriResourceEscape lenient_helpers "key" = "key"
  /\ ReqOptions.path path_style = "/undefined/key"
  /\ ReqOptions.path path_style <> "/key"
  /\ ReqOptions.path path_style <> "//key"
  /\ ReqOptions.path virtual_host = "/key".
Proof.
  intros opts path_style virtual_host.
  split; [reflexivity|]. split; [reflexivity|].
  split; [discriminate|]. split; [discriminate | reflexivity].
Qed.

(** Virtual-host style on the same names: the bucket moves into the host. *)
Example getRequestOptions_virtual_host :
  let opts :=
    {| Options.method := "GET"; Options.bucketName := Some "mybucket";
       Options.objectName := Some "some key.txt"; Options.headers := None;
       Options.query := Some "acl" |} in
  let r := @getRequestOptions lenient_helpers (client_of "s3.amazonaws.com" false) opts in
  ReqOptions.host r = "mybucket.s3.amazonaws.com"
  /\ ReqOptions.path r = "/some%20key.txt?acl".
Proof. split; reflexivity. Qed.

(** ** The end point pattern *)

Lemma atom_matches_Lit (d c : ascii) : Js.atom_matches (Js.Lit d) c = true <-> c = d.
Proof. simpl. destruct (ascii_dec c d); split; congruence. Qed.

Lemma search_iff (p : list Js.atom) (s : string) :
  Js.search p s = true <->
  exists pre suf, s = pre ++ suf /\ Js.match_here p suf = true.
Proof.
  induction s as [|c s IH].
  - simpl. rewrite orb_false_r. split.
    + intros Hm. exists "", "". now split.
    + intros (pre & suf & Heq & Hm).
      destruct pre; [|discriminate]. rewrite append_nil_l in Heq. now subst suf.
  - cbn [Js.search]. rewrite orb_true_iff, IH. split.
    + intros [Hm | (pre & suf & -> & Hm)].
      * exists "", (String c s). now split.
      * exists (String c pre), suf. now split.
    + intros (pre & suf & Heq & Hm). destruct pre as [|c' pre].
      * left. rewrite append_nil_l in Heq. now subst suf.
      * right. rewrite append_cons in Heq. injection Heq as -> ->. now exists pre, suf.
Qed.

Lemma match_here_amazonaws (s : string) :
  Js.match_here amazonaws_pattern s = true <->
  exists c1 c2,
    s = String c1 ("amazonaws" ++ String c2 "com")
    /\ Js.isLineTerminator c1 = false /\ Js.isLineTerminator c2 = false.
Proof.
  unfold amazonaws_pattern. cbn [Js.atoms]. split.
  - intros Hm.
    do 14 (destruct s as [|? s]; [discriminate Hm|];
           cbn [Js.match_here] in Hm; apply andb_true_iff in Hm as [? Hm]).
    destruct s; [|discriminate Hm].
    repeat match goal with
           | Hl : Js.atom_matches (if ascii_dec ?x ?y then _ else _) _ = true |- _ =>
               destruct (ascii_dec x y); [try discriminate|try congruence]
           end.
    repeat match goal with
           | Hl : Js.atom_matches (Js.Lit _) _ = true |- _ =>
               apply atom_matches_Lit in Hl; subst
           | Hl : Js.atom_matches Js.Dot _ = true |- _ =>
               cbn [Js.atom_matches] in Hl; apply negb_true_iff in Hl
           end.
    eexists _, _. repeat split; eassumption.
  - intros (c1 & c2 & -> & H1 & H2).
    rewrite !append_cons, append_nil_l. cbn. rewrite H1, H2. reflexivity.
Qed.

(** The pattern of the constructor matches the host names that end in a
    character, amazonaws, a character and com, neither character a line
    break. *)
Lemma search_amazonaws_iff (hostname : string) :
  Js.search amazonaws_pattern hostname = true <->
  exists pre c1 c2,
    hostname = pre ++ String c1 ("amazonaws" ++ String c2 "com")
    /\ Js.isLineTerminator c1 = false /\ Js.isLineTerminator c2 = false.
Proof.
  rewrite search_iff. split.
  - intros (pre & suf & -> & Hm). apply match_here_amazonaws in Hm as (c1 & c2 & -> & ?).
    now exists pre, c1, c2.
  - intros (pre & c1 & c2 & -> & Hc). exists pre, (String c1 ("amazonaws" ++ String c2 "com")).
    split; [reflexivity|]. apply match_here_amazonaws. now exists c1, c2.
Qed.

(** ** Construction *)

Section ConstructionFacts.
Context `{Platform}.

Lemma select_transport_recognised (scheme : option string) (number : Z) :
  (scheme = Some "http:" ->
   select_transport scheme number = inr (Http, "http:", if number =? 0 then 80 else number))
  /\ (scheme = Some "https:" ->
      select_transport scheme number
      = inr (Https, "https:", if number =? 0 then 443 else number))
  /\ (scheme <> Some "http:" -> scheme <> Some "https:" ->
      exists msg, select_transport scheme number = inl (InvalidProtocolException msg)).
Proof.
  unfold select_transport. repeat split.
  - intros ->. reflexivity.
  - intros ->. reflexivity.
  - intros Hhttp Hhttps. destruct scheme as [s|]; [|eauto].
    destruct (String.eqb_spec s "http:") as [->|_]; [congruence|].
    destruct (String.eqb_spec s "https:") as [->|_]; [congruence|]. eauto.
Qed.

(** The constructor by its two decisions: the end point check, then the
    choice of transport. *)
Lemma constructor_unfold (p : ConstructorParams) (parsedUrl : ParsedUrl)
    (override : option Transport) (hostname : string) :
  url_hostname parsedUrl = Some hostname ->
  constructor p parsedUrl override =
  if Js.search amazonaws_pattern hostname && negb (String.eqb hostname "s3.amazonaws.com")
  then inl (InvalidEndPointException
              ("endPoint " ++ endPoint p ++ " invalid, endPoint has to be "
                 ++ dquote ++ "https://s3.amazonaws.com" ++ dquote ++ " for AWS S3"))
  else
    match
      match override with
      | Some t => inr (t, "", port_to_number (url_port parsedUrl))
      | None => select_transport (url_protocol parsedUrl) (port_to_number (url_port parsedUrl))
      end
    with
    | inl x => inl x
    | inr (t, scheme, number) =>
        inr {| params := {| host := hostname; port := number; protocol := scheme;
                            accessKey := cp_accessKey p; secretKey := cp_secretKey p;
                            userAgent := libraryAgent |};
               transport := t;
               minioStorage := negb (Js.search amazonaws_pattern hostname);
               regionMap := ∅ |}
    end.
Proof. intros Hhost. unfold constructor. rewrite Hhost. reflexivity. Qed.

(** Construction goes through once the end point check has passed and a
    transport is given or the scheme is recognised. *)
Lemma constructor_succeeds (p : ConstructorParams) (parsedUrl : ParsedUrl)
    (override : option Transport) (hostname : string) :
  url_hostname parsedUrl = Some hostname ->
  Js.search amazonaws_pattern hostname && negb (String.eqb hostname "s3.amazonaws.com") = false ->
  is_Some override \/ url_protocol parsedUrl = Some "http:"
    \/ url_protocol parsedUrl = Some "https:" ->
  exists c, constructor p parsedUrl override = inr c
            /\ host (params c) = hostname
            /\ minioStorage c = negb (Js.search amazonaws_pattern hostname).
Proof.
  intros Hhost Hcheck Hgo. rewrite (constructor_unfold _ _ _ _ Hhost), Hcheck.
  destruct Hgo as [[t ->] | [Hs | Hs]].
  - eexists. repeat split.
  - destruct (select_transport_recognised (url_protocol parsedUrl)
                (port_to_number (url_port parsedUrl))) as (Hsel & _).
    rewrite (Hsel Hs). destruct override; eexists; repeat split.
  - destruct (select_transport_recognised (url_protocol parsedUrl)
                (port_to_number (url_port parsedUrl))) as (_ & Hsel & _).
    rewrite (Hsel Hs). destruct override; eexists; repeat split.
Qed.

(** A client starts with an empty region cache. *)
Lemma constructor_regionMap_empty (p : ConstructorParams) (parsedUrl : ParsedUrl)
    (override : option Transport) (c : Client) :
  constructor p parsedUrl override = inr c -> regionMap c = ∅.
Proof.
  unfold constructor. destruct (url_hostname parsedUrl) as [hostname|]; [|discriminate].
  destruct (_ && _); [discriminate|].
  destruct override as [t|]; [|destruct (select_transport _ _) as [x | [[t s] n]]];
    intros Hb; inversion Hb; reflexivity.
Qed.

(** C3, amended: a host name that ends in amazonaws.com after at least one
    more character is an Amazon end point: unless it is s3.amazonaws.com the
    constructor throws the invalid end point exception, and for
    s3.amazonaws.com the client is in virtual-host mode.  A host name that does
    not end in a character, amazonaws, a character and com (amazonaws.com
    itself is one) passes the check and gives a self-hosted path-style client.
    In both cases construction succeeds when a transport is given or the
    scheme is recognised. *)
Theorem constructor_endpoint_check (p : ConstructorParams) (parsedUrl : ParsedUrl)
    (override : option Transport) (hostname : string) :
  url_hostname parsedUrl = Some hostname ->
  let built := constructor p parsedUrl override in
  let can_build :=
    is_Some override \/ url_protocol parsedUrl = Some "http:"
    \/ url_protocol parsedUrl = Some "https:" in
  ((exists pre c, hostname = pre ++ String c "amazonaws.com"
                  /\ Js.isLineTerminator c = false) ->
   (hostname <> "s3.amazonaws.com" ->
    exists msg, built = inl (InvalidEndPointException msg))
   /\ (forall c, built = inr c ->
                 hostname = "s3.amazonaws.com" /\ minioStorage c = false)
   /\ (hostname = "s3.amazonaws.com" -> can_build ->
       exists c, built = inr c /\ minioStorage c = false))
  /\ ((~ exists pre c1 c2,
           hostname = pre ++ String c1 ("amazonaws" ++ String c2 "com")
           /\ Js.isLineTerminator c1 = false /\ Js.isLineTerminator c2 = false) ->
      (forall msg, built <> inl (InvalidEndPointException msg))
      /\ (forall c, built = inr c -> minioStorage c = true)
      /\ (can_build -> exists c, built = inr c /\ minioStorage c = true)).
Proof.
  intros Hhost built can_build. subst built can_build.
  pose proof (constructor_unfold p parsedUrl override hostname Hhost) as Hu.
  assert (Hinr : forall c0, Js.search amazonaws_pattern hostname
                            && negb (String.eqb hostname "s3.amazonaws.com") = false ->
                            constructor p parsedUrl override = inr c0 ->
                            minioStorage c0 = negb (Js.search amazonaws_pattern hostname)).
  { intros c0 Hcheck Hb. rewrite Hu, Hcheck in Hb.
    destruct override as [t|]; [|destruct (select_transport _ _) as [x | [[t s] n]]];
      inversion Hb; reflexivity. }
  split.
  - intros (pre & c & Heq & Hc).
    assert (Hm : Js.search amazonaws_pattern hostname = true).
    { apply search_amazonaws_iff. exists pre, c, "."%char. now rewrite Heq. }
    rewrite Hm in Hu, Hinr. cbn [andb negb] in Hu, Hinr.
    destruct (String.eqb_spec hostname "s3.amazonaws.com") as [Hs3 | Hs3];
      cbn [negb] in Hu, Hinr.
    + split; [congruence|]. split.
      * intros c0 Hb. split; [exact Hs3 | now apply Hinr].
      * intros _ Hgo.
        destruct (constructor_succeeds p parsedUrl override hostname Hhost)
          as (c0 & Hb & _ & Hms); [now rewrite Hm, Hs3 | exact Hgo |].
        exists c0. split; [exact Hb|]. now rewrite Hms, Hm.
    + split; [intros _; eexists; exact Hu|]. split.
      * intros c0 Hb. rewrite Hu in Hb. discriminate.
      * congruence.
  - intros Hno.
    assert (Hm : Js.search amazonaws_pattern hostname = false).
    { destruct (Js.search amazonaws_pattern hostname) eqn:Hs; [|reflexivity].
      exfalso. apply Hno. now apply search_amazonaws_iff. }
    rewrite Hm in Hu, Hinr. cbn [andb negb] in Hu, Hinr. split; [|split].
    + intros msg Hb. rewrite Hu in Hb.
      destruct override as [t|]; [discriminate|].
      unfold select_transport in Hb.
      destruct (url_protocol parsedUrl) as [s|]; [|discriminate].
      destruct (String.eqb s "http:"); [discriminate|].
      destruct (String.eqb s "https:"); discriminate.
    + intros c0 Hb. now apply Hinr.
    + intros Hgo.
      destruct (constructor_succeeds p parsedUrl override hostname Hhost)
        as (c0 & Hb & _ & Hms); [now rewrite Hm | exact Hgo |].
      exists c0. split; [exact Hb|]. now rewrite Hms, Hm.
Qed.

End ConstructionFacts.

Lemma constructor_endpoint_check_witness :
  let p := {| endPoint := "https://s3.amazonaws.com"; cp_accessKey := "access";
              cp_secretKey := "secret" |} in
  let amazon := {| url_protocol := Some "https:"; url_hostname := Some "s3.amazonaws.com";
                   url_port := None |} in
  let play := {| url_protocol := Some "http:"; url_hostname := Some "play.example.com";
                 url_port := Some 9000 |} in
  (exists c, @constructor some_platform p amazon None = inr c /\ minioStorage c = false)
  /\ (exists c, @constructor some_platform p play None = inr c /\ minioStorage c = true).
Proof.
  intros p amazon play. split.
  - destruct (@constructor_endpoint_check some_platform p amazon None "s3.amazonaws.com"
                eq_refl) as [Ha _].
    destruct Ha as (_ & _ & Hbuild).
    + exists "s3", "."%char. split; reflexivity.
    + apply Hbuild; [reflexivity | right; right; reflexivity].
  - destruct (@constructor_endpoint_check some_platform p play None "play.example.com"
                eq_refl) as [_ Hb].
    destruct Hb as (_ & _ & Hbuild).
    + intros Hex. apply search_amazonaws_iff in Hex. vm_compute in Hex. discriminate Hex.
    + apply Hbuild. right; left; reflexivity.
Defined.

(** C3 as stated fails for the host name amazonaws.com: it ends in
    amazonaws.com and is not s3.amazonaws.com, yet construction succeeds and
    the client is a self-hosted path-style one. *)
Lemma constructor_amazonaws_com_self_hosted :
  let p := {| endPoint := "https://amazonaws.com"; cp_accessKey := "access";
              cp_secretKey := "secret" |} in
  let parsedUrl := {| url_protocol := Some "https:"; url_hostname := Some "amazonaws.com";
                      url_port := None |} in
  ends_with "amazonaws.com" "amazonaws.com" = true
  /\ "amazonaws.com" <> "s3.amazonaws.com"
  /\ exists c, @constructor some_platform p parsedUrl None = inr c
               /\ minioStorage c = true /\ host (params c) = "amazonaws.com".
Proof.
  intros p parsedUrl. split; [reflexivity|]. split; [discriminate|].
  eexists. split; [reflexivity|]. split; reflexivity.
Qed.

(** The dots of the pattern stand for any character: a host name that does
    not end in amazonaws.com can still be taken for an Amazon end point. *)
Example constructor_pattern_dot_is_any_character :
  let p := {| endPoint := "http://s3.amazonawsxcom"; cp_accessKey := "access";
              cp_secretKey := "secret" |} in
  let parsedUrl := {| url_protocol := Some "http:"; url_hostname := Some "s3.amazonawsxcom";
                      url_port := None |} in
  ends_with "amazonaws.com" "s3.amazonawsxcom" = false
  /\ exists msg, @constructor some_platform p parsedUrl None
                 = inl (InvalidEndPointException msg).
Proof. intros p parsedUrl. split; [reflexivity|]. eexists. reflexivity. Qed.

Section SchemeFacts.
Context `{Platform}.

(** C6, amended: when no transport is given and the host name passes the end
    point check, the scheme http gives the http transport and the port 80
    when the URL names no port (or the port 0), the scheme https gives the
    https transport and the port 443 likewise, a port named in the URL is
    kept, and every other scheme makes the constructor throw the invalid
    protocol exception. *)
Theorem constructor_scheme (p : ConstructorParams) (parsedUrl : ParsedUrl)
    (hostname : string) :
  url_hostname parsedUrl = Some hostname ->
  (Js.search amazonaws_pattern hostname = true -> hostname = "s3.amazonaws.com") ->
  let built := constructor p parsedUrl None in
  let port_or (default : Z) :=
    match url_port parsedUrl with
    | None => default
    | Some n => if n =? 0 then default else n
    end in
  (url_protocol parsedUrl = Some "http:" ->
   exists c, built = inr c /\ transport c = Http /\ protocol (params c) = "http:"
             /\ port (params c) = port_or 80)
  /\ (url_protocol parsedUrl = Some "https:" ->
      exists c, built = inr c /\ transport c = Https /\ protocol (params c) = "https:"
                /\ port (params c) = port_or 443)
  /\ (url_protocol parsedUrl <> Some "http:" ->
      url_protocol parsedUrl <> Some "https:" ->
      exists msg, built = inl (InvalidProtocolException msg)).
Proof.
  intros Hhost Hpass built port_or. subst built port_or.
  rewrite (constructor_unfold p parsedUrl None hostname Hhost).
  assert (Hcheck : Js.search amazonaws_pattern hostname
                   && negb (String.eqb hostname "s3.amazonaws.com") = false).
  { destruct (Js.search amazonaws_pattern hostname); [|reflexivity].
    rewrite (Hpass eq_refl). reflexivity. }
  rewrite Hcheck.
  destruct (select_transport_recognised (url_protocol parsedUrl)
              (port_to_number (url_port parsedUrl))) as (Hhttp & Hhttps & Hother).
  split; [|split].
  - intros Hs. rewrite (Hhttp Hs). eexists. split; [reflexivity|].
    cbn [transport protocol port params]. repeat split.
    destruct (url_port parsedUrl) as [n|]; reflexivity.
  - intros Hs. rewrite (Hhttps Hs). eexists. split; [reflexivity|].
    cbn [transport protocol port params]. repeat split.
    destruct (url_port parsedUrl) as [n|]; reflexivity.
  - intros H1 H2. destruct (Hother H1 H2) as [msg ->]. eauto.
Qed.

End SchemeFacts.

Lemma constructor_scheme_witness :
  let p := {| endPoint := "http://play.example.com"; cp_accessKey := "access";
              cp_secretKey := "secret" |} in
  let http := {| url_protocol := Some "http:"; url_hostname := Some "play.example.com";
                 url_port := None |} in
  let ftp := {| url_protocol := Some "ftp:"; url_hostname := Some "play.example.com";
                url_port := None |} in
  (exists c, @constructor some_platform p http None = inr c
             /\ transport c = Http /\ port (params c) = 80)
  /\ (exists msg, @constructor some_platform p ftp None = inl (InvalidProtocolException msg)).
Proof.
  intros p http ftp.
  assert (Hpass : Js.search amazonaws_pattern "play.example.com" = true ->
                  "play.example.com" = "s3.amazonaws.com")
    by (intros Hm; vm_compute in Hm; discriminate Hm).
  split.
  - destruct (@constructor_scheme some_platform p http "play.example.com" eq_refl Hpass)
      as (Hhttp & _ & _).
    destruct (Hhttp eq_refl) as (c & Hb & Ht & _ & Hport).
    exists c. split; [exact Hb|]. split; [exact Ht | exact Hport].
  - destruct (@constructor_scheme some_platform p ftp "play.example.com" eq_refl Hpass)
      as (_ & _ & Hother).
    apply Hother; discriminate.
Defined.

(** C6 as stated fails when a transport is given: the scheme is not looked
    at, so an ftp end point is accepted, and the port of an http end point
    without a port stays 0.  Without a transport, an end point that fails the
    Amazon check throws the invalid end point exception whatever its
    scheme. *)
Lemma constructor_transport_skips_scheme :
  let p := {| endPoint := "ftp://play.example.com"; cp_accessKey := "access";
              cp_secretKey := "secret" |} in
  let ftp := {| url_protocol := Some "ftp:"; url_hostname := Some "play.example.com";
                url_port := None |} in
  let http := {| url_protocol := Some "http:"; url_hostname := Some "play.example.com";
                 url_port := None |} in
  let amazon := {| url_protocol := Some "ftp:"; url_hostname := Some "eu.amazonaws.com";
                   url_port := None |} in
  (exists c, @constructor some_platform p ftp (Some (Override 0)) = inr c
             /\ protocol (params c) = "" /\ port (params c) = 0)
  /\ (exists c, @constructor some_platform p http (Some (Override 0)) = inr c
                /\ transport c = Override 0 /\ port (params c) = 0)
  /\ (exists msg, @constructor some_platform p amazon None
                  = inl (InvalidEndPointException msg)).
Proof.
  intros p ftp http amazon. split; [|split].
  - eexists. split; [reflexivity|]. split; reflexivity.
  - eexists. split; [reflexivity|]. split; reflexivity.
  - eexists. reflexivity.
Qed.

(** ** Requests and responses *)

Section RequestFacts.
Context `{Helpers} `{Signing} `{Parsers}.

(** What makeRequest does once the region is known: it signs and sends one
    request, and the event of the transport decides the outcome. *)
Lemma makeRequest_run (options : Options.t) (payload : string) (statusCode : Z)
    (w w1 : World) (region : Region) :
  getBucketRegion (Options.bucketName options) w = (Value region, w1) ->
  let sent :=
    {| sent_options :=
         signV4 (getRequestOptions (client w) options) (sha256_hex payload)
           (accessKey (params (client w1))) (secretKey (params (client w1))) region;
       sent_payload := payload |} in
  makeRequest options payload statusCode w =
  match events w1 with
  | [] => (Pending, after_request w1 sent [])
  | OnError e :: rest => (Failed e, after_request w1 sent rest)
  | OnResponse response :: rest =>
      (makeRequest_response statusCode response, after_request w1 sent rest)
  end.
Proof.
  intros Hregion sent. subst sent.
  unfold makeRequest, mbind, M_bind, this. rewrite Hregion.
  unfold transport_request. destruct (events w1) as [|[e|response] rest]; reflexivity.
Qed.

(** An error of the region lookup is the outcome of makeRequest, and the
    request itself is not sent. *)
Lemma makeRequest_region_failed (options : Options.t) (payload : string) (statusCode : Z)
    (w w1 : World) (e : Error) :
  getBucketRegion (Options.bucketName options) w = (Failed e, w1) ->
  makeRequest options payload statusCode w = (Failed e, w1).
Proof.
  intros Hregion. unfold makeRequest, mbind, M_bind, this. now rewrite Hregion.
Qed.

(** The outcome of getPartialObject once the region is known and the
    transport answers with a response. *)
Lemma getPartialObject_response (bucketName objectName : string)
    (offset length : Number.t)
    (w w1 : World) (region : Region) (response : Response.t)
    (rest : list TransportEvent) :
  isValidBucketName bucketName = true ->
  isValidObjectName objectName = true ->
  Js.trim_is_empty objectName = false ->
  getBucketRegion (Some bucketName) w = (Value region, w1) ->
  events w1 = OnResponse response :: rest ->
  fst (getPartialObject bucketName objectName offset length w) =
  if (Response.statusCode response =? 200) || (Response.statusCode response =? 206)
  then Value (Response.body response)
  else Failed (errorPipeline response).
Proof.
  intros Hb Ho Hne Hregion Hev.
  unfold getPartialObject. rewrite Hb, Ho, Hne. cbn [negb].
  unfold callback.
  rewrite (makeRequest_run _ "" 0 w w1 region) by exact Hregion.
  rewrite Hev. cbn [makeRequest_response Z.eqb].
  destruct (_ || _); reflexivity.
Qed.

(** C4, amended: a response whose status equals the expected status goes to
    the success path; with a non-zero expected status, a response of any
    other status goes through the error parser and the caller gets its
    error; the expected status 0 switches the check off, so that every
    status goes to the success path and the caller checks for itself; getting
    an object does so and takes exactly 200 and 206 for success, every other
    status going through the error parser. *)
Theorem makeRequest_status_dispatch (options : Options.t) (payload : string)
    (statusCode : Z) (w w1 : World) (region : Region) (response : Response.t)
    (rest : list TransportEvent) :
  getBucketRegion (Options.bucketName options) w = (Value region, w1) ->
  events w1 = OnResponse response :: rest ->
  let status := Response.statusCode response in
  let delivered := fst (makeRequest options payload statusCode w) in
  (statusCode = status -> delivered = Value response)
  /\ (statusCode <> 0 -> statusCode <> status ->
      delivered = Failed (errorPipeline response))
  /\ (statusCode = 0 -> delivered = Value response)
  /\ (forall (bucketName objectName : string) (offset length : Number.t),
        isValidBucketName bucketName = true ->
        isValidObjectName objectName = true ->
        Js.trim_is_empty objectName = false ->
        Options.bucketName options = Some bucketName ->
        let got := fst (getPartialObject bucketName objectName offset length w) in
        (status = 200 \/ status = 206 -> got = Value (Response.body response))
        /\ (status <> 200 -> status <> 206 -> got = Failed (errorPipeline response))).
Proof.
  intros Hregion Hev status delivered. subst status delivered.
  rewrite (makeRequest_run options payload statusCode w w1 region Hregion), Hev.
  cbn [fst]. unfold makeRequest_response. split; [|split; [|split]].
  - intros ->. destruct (Z.eqb_spec (Response.statusCode response) 0); [reflexivity|].
    now rewrite Z.eqb_refl.
  - intros Hnz Hne.
    destruct (Z.eqb_spec statusCode 0); [contradiction|].
    destruct (Z.eqb_spec statusCode (Response.statusCode response)); [contradiction|].
    reflexivity.
  - intros ->. reflexivity.
  - intros bucketName objectName offset length Hb Ho Hne Hname.
    rewrite Hname in Hregion.
    rewrite (getPartialObject_response bucketName objectName offset length
               w w1 region response rest Hb Ho Hne Hregion Hev).
    split.
    + intros [-> | ->]; reflexivity.
    + intros Hs1 Hs2.
      destruct (Z.eqb_spec (Response.statusCode response) 200); [contradiction|].
      destruct (Z.eqb_spec (Response.statusCode response) 206); [contradiction|].
      reflexivity.
Qed.

End RequestFacts.

Lemma makeRequest_status_dispatch_witness :
  let opts := @getPartialObject_options "mybucket" "key" 0 10 in
  let response := text_response 206 "partial content" in
  let w := world_of (client_of "play.example.com" true) [OnResponse response] in
  fst (@makeRequest lenient_helpers blank_signing plain_parsers opts "" 206 w)
  = Value response
  /\ fst (@makeRequest lenient_helpers blank_signing plain_parsers opts "" 200 w)
     = Failed {| code := Some "partial content"; message := ""; fields := [] |}
  /\ fst (@getPartialObject lenient_helpers blank_signing plain_parsers
            "mybucket" "key" 0 10 w)
     = Value (Response.body response).
Proof.
  intros opts response w.
  split; [|split].
  - destruct (@makeRequest_status_dispatch lenient_helpers blank_signing plain_parsers
                opts "" 206 w w "us-east-1" response [] eq_refl eq_refl)
      as (Hsame & _).
    apply Hsame. reflexivity.
  - destruct (@makeRequest_status_dispatch lenient_helpers blank_signing plain_parsers
                opts "" 200 w w "us-east-1" response [] eq_refl eq_refl)
      as (_ & Hother & _).
    apply Hother; discriminate.
  - destruct (@makeRequest_status_dispatch lenient_helpers blank_signing plain_parsers
                opts "" 0 w w "us-east-1" response [] eq_refl eq_refl)
      as (_ & _ & _ & Hget).
    destruct (Hget "mybucket" "key" 0 10 eq_refl eq_refl eq_refl eq_refl) as [Hok _].
    apply Hok. right. reflexivity.
Defined.

(** C4 as stated fails for the expected status 0: a response with status 404,
    which is no 2xx or 3xx status and differs from the expected status, is
    handed to the success path of makeRequest, and so is one with status
    500. *)
Lemma makeRequest_status_0_accepts_404 :
  let opts :=
    {| Options.method := "GET"; Options.bucketName := Some "mybucket";
       Options.objectName := None; Options.headers := None; Options.query := None |} in
  let answer (status : Z) :=
    fst (@makeRequest lenient_helpers blank_signing plain_parsers opts "" 0
           (world_of (client_of "play.example.com" true)
              [OnResponse (text_response status "NoSuchKey")])) in
  answer 404 = Value (text_response 404 "NoSuchKey")
  /\ answer 500 = Value (text_response 500 "NoSuchKey")
  /\ ~ (200 <= 404 < 400).
Proof. intros opts answer. split; [reflexivity|]. split; [reflexivity|]. lia. Qed.

(** ** Getting objects and listing buckets *)

(** On safe integers the numbers of JavaScript are the integers: reading,
    truthiness, sums, comparisons and printing are exact. *)
Lemma Number_bits_safe (z : Z) : Number.safe z -> Number.bits z <= 53.
Proof.
  unfold Number.safe, Number.bits. intros Hsafe.
  destruct (Z.eqb_spec z 0); [lia|].
  assert (Hlog : Z.log2 (Z.abs z) < 53) by (apply Z.log2_lt_pow2; lia).
  lia.
Qed.

Lemma Number_read_safe (z : Z) : Number.safe z -> Number.read (Number.of_Z z) = Number.of_Z z.
Proof.
  intros Hsafe. pose proof (Number_bits_safe z Hsafe) as Hbits.
  unfold Number.read, Number.of_Z, Number.representable.
  replace (Number.bits z <=? 53) with true by (symmetry; apply Z.leb_le; lia).
  replace (0 + Number.bits z <=? 1024) with true by (symmetry; apply Z.leb_le; lia).
  reflexivity.
Qed.

Lemma Number_truthy_safe (z : Z) :
  Number.safe z -> Number.truthy (Number.of_Z z) = negb (z =? 0).
Proof.
  intros Hsafe. unfold Number.truthy. now rewrite (Number_read_safe z Hsafe).
Qed.

Lemma Number_add_safe (a b : Z) :
  Number.safe a -> Number.safe b -> Number.safe (a + b) ->
  Number.add (Number.of_Z a) (Number.of_Z b) = Number.of_Z (a + b).
Proof.
  intros Ha Hb Hsum. unfold Number.add.
  rewrite (Number_read_safe a Ha), (Number_read_safe b Hb).
  unfold Number.of_Z. change (Z.min 0 0) with 0. change (0 - 0) with 0.
  change (2 ^ 0) with 1. rewrite !Z.mul_1_r.
  exact (Number_read_safe (a + b) Hsum).
Qed.

Lemma Number_sub_safe (a b : Z) :
  Number.safe a -> Number.safe b -> Number.safe (a - b) ->
  Number.sub (Number.of_Z a) (Number.of_Z b) = Number.of_Z (a - b).
Proof.
  intros Ha Hb Hdiff. unfold Number.sub.
  change (Number.opp (Number.of_Z b)) with (Number.of_Z (- b)).
  rewrite Number_add_safe; [f_equal; lia | exact Ha | |].
  - unfold Number.safe in *. lia.
  - replace (a + - b) with (a - b) by lia. exact Hdiff.
Qed.


Lemma Number_toString_safe (z : Z) :
  Number.safe z -> Number.toString (Number.of_Z z) = Js.Number_toString z.
Proof.
  intros Hsafe. unfold Number.toString. rewrite (Number_read_safe z Hsafe).
  unfold Number.of_Z. change (0 <=? 0) with true. cbv iota.
  change (2 ^ 0) with 1. rewrite Z.mul_1_r, Z.mod_1_r, Z.div_1_r.
  change (0 =? 0) with true. cbn [andb].
  replace (Z.abs z <=? 2 ^ 53) with true
    by (symmetry; apply Z.leb_le; unfold Number.safe in Hsafe; lia).
  reflexivity.
Qed.

(** The Range header for safe integers, in integer arithmetic. *)
Lemma range_of_safe (offset length : Z) :
  Number.safe offset -> Number.safe length ->
  Number.safe (offset + length) -> Number.safe (offset + length - 1) ->
  offset <> 0 \/ length <> 0 ->
  range_of offset length =
  "bytes=" ++ Js.Number_toString offset ++ "-"
    ++ (if length =? 0 then "" else Js.Number_toString (offset + length - 1)).
Proof.
  intros Hoffset Hlength Hsum Hlast Hnz. unfold range_of.
  rewrite (Number_truthy_safe offset Hoffset), (Number_truthy_safe length Hlength).
  assert (Hone : Number.safe 1) by (unfold Number.safe; lia).
  destruct (Z.eqb_spec offset 0) as [-> | Hoff], (Z.eqb_spec length 0) as [-> | Hlen];
    cbn [negb orb].
  - lia.
  - rewrite Number_add_safe, Number_sub_safe, Number_toString_safe;
      try assumption; try (unfold Number.safe; lia);
      try (replace (length + 0) with (0 + length) by lia; assumption);
      try (replace (length + 0 - 1) with (0 + length - 1) by lia; assumption).
    replace (length + 0 - 1) with (0 + length - 1) by lia. reflexivity.
  - rewrite (Number_toString_safe offset Hoffset). now rewrite append_nil_r.
  - rewrite Number_add_safe, Number_sub_safe, !Number_toString_safe;
      try assumption;
      try (replace (length + offset) with (offset + length) by lia; assumption);
      try (replace (length + offset - 1) with (offset + length - 1) by lia; assumption).
    replace (length + offset - 1) with (offset + length - 1) by lia.
    now rewrite !append_assoc.
Qed.

Lemma range_of_zero : range_of 0 0 = "".
Proof. reflexivity. Qed.

Section ObjectFacts.
Context `{Helpers} `{Signing} `{Parsers}.

(** The request that getPartialObject sends once the region is known. *)
Lemma getPartialObject_sends (bucketName objectName : string) (offset length : Z)
    (w w1 : World) (region : Region) :
  isValidBucketName bucketName = true ->
  isValidObjectName objectName = true ->
  Js.trim_is_empty objectName = false ->
  getBucketRegion (Some bucketName) w = (Value region, w1) ->
  requests (snd (getPartialObject bucketName objectName offset length w)) =
  (requests w1 ++
   [{| sent_options :=
         signV4
           (getRequestOptions (client w)
              (getPartialObject_options bucketName objectName offset length))
           (sha256_hex "") (accessKey (params (client w1)))
           (secretKey (params (client w1))) region;
       sent_payload := "" |}])%list.
Proof.
  intros Hb Ho Hne Hregion. unfold getPartialObject. rewrite Hb, Ho, Hne. cbn [negb].
  unfold callback.
  rewrite (makeRequest_run _ "" 0 w w1 region) by exact Hregion.
  destruct (events w1) as [|[e|response] rest]; try reflexivity.
  cbn [makeRequest_response Z.eqb].
  destruct (negb _); reflexivity.
Qed.

(** C8, amended: for an offset and a length that are safe integers, as
    are their sum and their sum less one, and that are not both zero, the
    request of getPartialObject carries the header Range with the value
    bytes=off-last, where last is off + len - 1, or bytes=off- when the
    length is zero. *)
Theorem getPartialObject_range (bucketName objectName : string) (offset length : Z)
    (w w1 : World) (region : Region) :
  Number.safe offset -> Number.safe length ->
  Number.safe (offset + length) -> Number.safe (offset + length - 1) ->
  offset <> 0 \/ length <> 0 ->
  isValidBucketName bucketName = true ->
  isValidObjectName objectName = true ->
  Js.trim_is_empty objectName = false ->
  getBucketRegion (Some bucketName) w = (Value region, w1) ->
  let lastByte := offset + length - 1 in
  let range :=
    "bytes=" ++ Js.Number_toString offset ++ "-"
      ++ (if length =? 0 then "" else Js.Number_toString lastByte) in
  exists reqOptions,
    requests (snd (getPartialObject bucketName objectName offset length w)) =
    (requests w1 ++
     [{| sent_options :=
           signV4 reqOptions (sha256_hex "") (accessKey (params (client w1)))
             (secretKey (params (client w1))) region;
         sent_payload := "" |}])%list
    /\ ReqOptions.method reqOptions = "GET"
    /\ ReqOptions.headers reqOptions = Some [("Range", range)].
Proof.
  intros Hoffset Hlength Hsum Hlast Hnz Hb Ho Hne Hregion lastByte range.
  subst lastByte range.
  exists (getRequestOptions (client w)
            (getPartialObject_options bucketName objectName offset length)).
  split; [now apply getPartialObject_sends|].
  destruct (getRequestOptions_copies (client w)
              (getPartialObject_options bucketName objectName offset length))
    as (-> & -> & _).
  split; [reflexivity|].
  unfold getPartialObject_options. cbn [Options.headers].
  rewrite (range_of_safe offset length Hoffset Hlength Hsum Hlast Hnz). reflexivity.
Qed.

(** C9: when the request of listBuckets fails with an error whose code is
    TemporaryRedirect, the caller gets that error with the code AccessDenied
    and the message that valid and authorized credentials are required; an
    error with any other code reaches the caller as it is. *)
Theorem listBuckets_TemporaryRedirect (w : World) (e : Error) :
  fst (makeRequest
         {| Options.method := "GET"; Options.bucketName := None;
            Options.objectName := None; Options.headers := None;
            Options.query := None |} "" 200 w) = Failed e ->
  (code e = Some "TemporaryRedirect" ->
   fst (listBuckets w) =
   Failed {| code := Some "AccessDenied";
             message := "Valid and authorized credentials required";
             fields := fields e |})
  /\ (code e <> Some "TemporaryRedirect" -> fst (listBuckets w) = Failed e).
Proof.
  intros Hfail. unfold listBuckets, callback.
  destruct (makeRequest _ "" 200 w) as [[response | e' | x |] w'];
    cbn [fst] in Hfail; try discriminate Hfail.
  injection Hfail as ->. unfold code_is, fail. cbn [fst]. split.
  - intros ->. reflexivity.
  - intros Hcode. destruct (code e) as [s|]; [|reflexivity].
    destruct (String.eqb_spec s "TemporaryRedirect") as [-> | _]; [congruence | reflexivity].
Qed.

(** C10: getObject is getPartialObject with offset 0 and length 0, for every
    bucket name, object name and world, exceptions included; such a request
    has no Range header, and a response with status 200 or 206 hands its
    body, as it is, to the caller. *)
Theorem getObject_getPartialObject_0_0 (bucketName objectName : string) :
  getObject bucketName objectName = getPartialObject bucketName objectName 0 0
  /\ Options.headers (getPartialObject_options bucketName objectName 0 0) = Some []
  /\ (forall (w w1 : World) (region : Region) (response : Response.t)
        (rest : list TransportEvent),
        isValidBucketName bucketName = true ->
        isValidObjectName objectName = true ->
        Js.trim_is_empty objectName = false ->
        getBucketRegion (Some bucketName) w = (Value region, w1) ->
        events w1 = OnResponse response :: rest ->
        Response.statusCode response = 200 \/ Response.statusCode response = 206 ->
        fst (getObject bucketName objectName w) = Value (Response.body response)
        /\ exists reqOptions,
            requests (snd (getObject bucketName objectName w)) =
            (requests w1 ++
             [{| sent_options :=
                   signV4 reqOptions (sha256_hex "") (accessKey (params (client w1)))
                     (secretKey (params (client w1))) region;
                 sent_payload := "" |}])%list
            /\ ReqOptions.headers reqOptions = Some []).
Proof.
  assert (Heq : getObject bucketName objectName = getPartialObject bucketName objectName 0 0).
  { unfold getObject, getPartialObject.
    destruct (isValidBucketName bucketName); [|reflexivity].
    destruct (isValidObjectName objectName); [|reflexivity].
    destruct (Js.trim_is_empty objectName); reflexivity. }
  split; [exact Heq|]. split; [reflexivity|].
  intros w w1 region response rest Hb Ho Hne Hregion Hev Hstatus. rewrite Heq. split.
  - rewrite (getPartialObject_response bucketName objectName 0 0
               w w1 region response rest Hb Ho Hne Hregion Hev).
    destruct Hstatus as [-> | ->]; reflexivity.
  - eexists. split; [now apply getPartialObject_sends |].
    now destruct (getRequestOptions_copies (client w)
                    (getPartialObject_options bucketName objectName 0 0))
      as (_ & -> & _).
Qed.

End ObjectFacts.

Lemma getPartialObject_range_witness :
  let w := world_of (client_of "play.example.com" true)
             [OnResponse (text_response 206 "hello")] in
  let sent (offset length : Z) :=
    requests (snd (@getPartialObject lenient_helpers blank_signing plain_parsers
                     "mybucket" "key" offset length w)) in
  (exists reqOptions,
      sent 10 5 = [{| sent_options := reqOptions; sent_payload := "" |}]
      /\ ReqOptions.headers reqOptions = Some [("Range", "bytes=10-14")])
  /\ (exists reqOptions,
         sent 10 0 = [{| sent_options := reqOptions; sent_payload := "" |}]
         /\ ReqOptions.headers reqOptions = Some [("Range", "bytes=10-")])
  /\ (exists reqOptions,
         sent 0 5 = [{| sent_options := reqOptions; sent_payload := "" |}]
         /\ ReqOptions.headers reqOptions = Some [("Range", "bytes=0-4")]).
Proof.
  intros w sent. split; [|split].
  - destruct (@getPartialObject_range lenient_helpers blank_signing plain_parsers
                "mybucket" "key" 10 5 w w "us-east-1")
      as (r & Hsent & _ & Hrange);
      [unfold Number.safe; lia | unfold Number.safe; lia | unfold Number.safe; lia
       | unfold Number.safe; lia | left; discriminate
       | reflexivity | reflexivity | reflexivity | reflexivity |].
    exists r. split; [exact Hsent | exact Hrange].
  - destruct (@getPartialObject_range lenient_helpers blank_signing plain_parsers
                "mybucket" "key" 10 0 w w "us-east-1")
      as (r & Hsent & _ & Hrange);
      [unfold Number.safe; lia | unfold Number.safe; lia | unfold Number.safe; lia
       | unfold Number.safe; lia | left; discriminate
       | reflexivity | reflexivity | reflexivity | reflexivity |].
    exists r. split; [exact Hsent | exact Hrange].
  - destruct (@getPartialObject_range lenient_helpers blank_signing plain_parsers
                "mybucket" "key" 0 5 w w "us-east-1")
      as (r & Hsent & _ & Hrange);
      [unfold Number.safe; lia | unfold Number.safe; lia | unfold Number.safe; lia
       | unfold Number.safe; lia | right; discriminate
       | reflexivity | reflexivity | reflexivity | reflexivity |].
    exists r. split; [exact Hsent | exact Hrange].
Defined.

(** C8 as stated fails beyond the safe integers: for the offset 2^53 and
    the length 2 the sum less one is 2^53 + 1, which is no double; the
    subtraction gives the double next to it, and the request carries a last
    byte of 2^53. *)
Lemma getPartialObject_range_rounds :
  let w := world_of (client_of "play.example.com" true)
             [OnResponse (text_response 206 "hello")] in
  let offset := 9007199254740992 in
  let length := 2 in
  offset = 2 ^ 53
  /\ offset + length - 1 = 9007199254740993
  /\ map (fun sent => ReqOptions.headers (sent_options sent))
       (requests (snd (@getPartialObject lenient_helpers blank_signing plain_parsers
                         "mybucket" "key" offset length w)))
     = [Some [("Range", "bytes=9007199254740992-9007199254740992")]].
Proof. intros w offset length. split; [reflexivity|]. split; vm_compute; reflexivity. Qed.

(** The Range header for numbers that are no safe integers: NaN counts as
    no offset and as no length, a fraction is printed as it is, and an
    infinite length gives an infinite last byte. *)
Example range_of_other_numbers :
  let half := Number.Finite 1 (-1) in
  range_of Number.NaN 5 = "bytes=0-4"
  /\ range_of 7 Number.NaN = "bytes=7-"
  /\ range_of Number.NaN Number.NaN = ""
  /\ range_of half 2 = "bytes=0.5-1.5"
  /\ range_of (-5) 3 = "bytes=-5--3"
  /\ range_of 0 (Number.Infinity false) = "bytes=0-Infinity"
  /\ range_of (Number.Finite 1 70) 0 = "bytes=1.1805916207174113e+21-".
Proof. vm_compute. repeat split. Qed.

Lemma listBuckets_TemporaryRedirect_witness :
  let answer (text : string) :=
    fst (@listBuckets lenient_helpers blank_signing plain_parsers
           (world_of (client_of "s3.amazonaws.com" false)
              [OnResponse (text_response 307 text)])) in
  answer "TemporaryRedirect"
  = Failed {| code := Some "AccessDenied";
              message := "Valid and authorized credentials required"; fields := [] |}
  /\ answer "SlowDown" = Failed {| code := Some "SlowDown"; message := ""; fields := [] |}.
Proof.
  intros answer. split.
  - destruct (@listBuckets_TemporaryRedirect lenient_helpers blank_signing plain_parsers
                (world_of (client_of "s3.amazonaws.com" false)
                   [OnResponse (text_response 307 "TemporaryRedirect")])
                {| code := Some "TemporaryRedirect"; message := ""; fields := [] |} eq_refl)
      as [Hrewrite _].
    exact (Hrewrite eq_refl).
  - destruct (@listBuckets_TemporaryRedirect lenient_helpers blank_signing plain_parsers
                (world_of (client_of "s3.amazonaws.com" false)
                   [OnResponse (text_response 307 "SlowDown")])
                {| code := Some "SlowDown"; message := ""; fields := [] |} eq_refl)
      as [_ Hkeep].
    apply Hkeep. discriminate.
Defined.

(** A full download against a self-hosted server: one request without
    headers, and the body of the response for the caller. *)
Example getObject_full_download :
  let response := text_response 200 "content" in
  let w := world_of (client_of "play.example.com" true) [OnResponse response] in
  let run := @getObject lenient_helpers blank_signing plain_parsers "mybucket" "key" w in
  fst run = Value (Response.body response)
  /\ exists reqOptions,
      requests (snd run) = [{| sent_options := reqOptions; sent_payload := "" |}]
      /\ ReqOptions.headers reqOptions = Some []
      /\ ReqOptions.path reqOptions = "/mybucket/key".
Proof.
  intros response w run. split; [reflexivity|].
  eexists. split; [reflexivity|]. split; reflexivity.
Qed.

(** ** Uploads *)

Section UploadFacts.
Context `{Helpers} `{Multipart}.

(** C7: putObject with a declared size of at most 5 MiB buffers the whole
    stream and makes exactly one call, the single put of the concatenated
    stream, whose ETag (or error) is the outcome.  With a larger size it takes
    the multipart path and never the single put: it first looks for an
    upload id; with one found it lists the parts of that upload, otherwise it
    initiates an upload; it then cuts the stream into parts of the calculated
    part size and uploads them; and last it completes the upload, whose ETag
    is the outcome.  An error of a step ends the chain with that error. *)
Theorem putObject_strategy (bucketName objectName : string) (stream : Stream)
    (size : Z) (contentType : string) :
  isValidBucketName bucketName = true ->
  isValidObjectName objectName = true ->
  Js.trim_is_empty objectName = false ->
  let type :=
    if Js.trim_is_empty contentType then "application/octet-stream" else contentType in
  let run := putObject bucketName objectName stream size contentType in
  let partSize := calculatePartSize size in
  (size <= 5 * MiB ->
   failure stream = None ->
   let chunk := String.concat "" (chunks stream) in
   fst run = [DoPutObject bucketName objectName type None None chunk]
   /\ snd run =
      match doPutObject bucketName objectName type None None chunk with
      | inr etag => Value etag
      | inl e => Failed e
      end)
  /\ (5 * MiB < size ->
      (exists more, fst run = FindUploadId bucketName objectName :: more)
      /\ (forall b o t u p chunk, ~ In (DoPutObject b o t u p chunk) (fst run))
      /\ (forall e, findUploadId bucketName objectName = inl e ->
                    run = ([FindUploadId bucketName objectName], Failed e))
      /\ (forall uploadId etags uploaded etag,
            findUploadId bucketName objectName = inr (Some uploadId) ->
            uploadId <> "" ->
            listAllParts bucketName objectName uploadId = inr etags ->
            uploadParts stream partSize size bucketName objectName type uploadId etags
            = inr uploaded ->
            completeMultipartUpload bucketName objectName uploadId uploaded = inr etag ->
            run = ([FindUploadId bucketName objectName;
                    ListAllParts bucketName objectName uploadId;
                    UploadParts partSize size bucketName objectName type uploadId etags;
                    CompleteMultipartUpload bucketName objectName uploadId uploaded],
                   Value etag))
      /\ (forall found uploadId uploaded etag,
            findUploadId bucketName objectName = inr found ->
            Js.truthy found = false ->
            initiateNewMultipartUpload bucketName objectName type = inr uploadId ->
            uploadParts stream partSize size bucketName objectName type uploadId []
            = inr uploaded ->
            completeMultipartUpload bucketName objectName uploadId uploaded = inr etag ->
            run = ([FindUploadId bucketName objectName;
                    InitiateNewMultipartUpload bucketName objectName type;
                    UploadParts partSize size bucketName objectName type uploadId [];
                    CompleteMultipartUpload bucketName objectName uploadId uploaded],
                   Value etag))).
Proof.
  intros Hb Ho Hne type run partSize. subst run partSize.
  unfold putObject. rewrite Hb, Ho, Hne. cbn [negb]. fold type.
  change (5 * 1024 * 1024) with (5 * MiB).
  split.
  - intros Hsmall Hend.
    destruct (Z.leb_spec size (5 * MiB)); [|lia].
    unfold concater. rewrite Hend. unfold finish, task.
    destruct (doPutObject _ _ _ _ _ _); split; reflexivity.
  - intros Hlarge.
    destruct (Z.leb_spec size (5 * MiB)); [lia|].
    unfold finish, task, mbind, mret, Waterfall_bind, Waterfall_ret.
    split; [|split; [|split; [|split]]].
    + destruct (findUploadId bucketName objectName) as [e | found]; [eexists; reflexivity|].
      destruct (Js.truthy found).
      * destruct (listAllParts _ _ _); [eexists; reflexivity|].
        destruct (uploadParts _ _ _ _ _ _ _ _); [eexists; reflexivity|].
        destruct (completeMultipartUpload _ _ _ _); eexists; reflexivity.
      * destruct (initiateNewMultipartUpload _ _ _); [eexists; reflexivity|].
        destruct (uploadParts _ _ _ _ _ _ _ _); [eexists; reflexivity|].
        destruct (completeMultipartUpload _ _ _ _); eexists; reflexivity.
    + intros b o t u p chunk.
      destruct (findUploadId bucketName objectName) as [e | found];
        [cbn; intuition discriminate|].
      destruct (Js.truthy found).
      * destruct (listAllParts _ _ _); [cbn; intuition discriminate|].
        destruct (uploadParts _ _ _ _ _ _ _ _); [cbn; intuition discriminate|].
        destruct (completeMultipartUpload _ _ _ _); cbn; intuition discriminate.
      * destruct (initiateNewMultipartUpload _ _ _); [cbn; intuition discriminate|].
        destruct (uploadParts _ _ _ _ _ _ _ _); [cbn; intuition discriminate|].
        destruct (completeMultipartUpload _ _ _ _); cbn; intuition discriminate.
    + intros e ->. reflexivity.
    + intros uploadId etags uploaded etag -> Hid Hlist Hup Hdone.
      destruct uploadId as [|a uploadId]; [contradiction|].
      cbn [Js.truthy Js.template]. rewrite Hlist. cbn -[calculatePartSize].
      rewrite Hup. cbn -[calculatePartSize]. rewrite Hdone. reflexivity.
    + intros found uploadId uploaded etag -> Hfound Hinit Hup Hdone.
      rewrite Hfound, Hinit. cbn -[calculatePartSize].
      rewrite Hup. cbn -[calculatePartSize]. rewrite Hdone. reflexivity.
Qed.

End UploadFacts.

Lemma putObject_strategy_witness :
  let stream := {| chunks := ["hello "; "world"]; failure := None |} in
  @putObject lenient_helpers empty_server "mybucket" "key" stream 11 ""
  = ([DoPutObject "mybucket" "key" "application/octet-stream" None None "hello world"],
     Value "etag-single")
  /\ @putObject lenient_helpers empty_server "mybucket" "key" stream (30 * MiB) "text/plain"
     = ([FindUploadId "mybucket" "key";
         InitiateNewMultipartUpload "mybucket" "key" "text/plain";
         UploadParts (5 * MiB) (30 * MiB) "mybucket" "key" "text/plain" "upload-1" [];
         CompleteMultipartUpload "mybucket" "key" "upload-1" [MkPart 1 "etag-1" 0]],
        Value "etag-multipart")
  /\ @putObject lenient_helpers resuming_server "mybucket" "key" stream (30 * MiB)
       "text/plain"
     = ([FindUploadId "mybucket" "key";
         ListAllParts "mybucket" "key" "upload-0";
         UploadParts (5 * MiB) (30 * MiB) "mybucket" "key" "text/plain" "upload-0"
           [MkPart 1 "etag-1" 5242880];
         CompleteMultipartUpload "mybucket" "key" "upload-0"
           [MkPart 1 "etag-1" 5242880; MkPart 2 "etag-2" 0]],
        Value "etag-multipart").
Proof.
  intros stream. split; [|split].
  - destruct (@putObject_strategy lenient_helpers empty_server "mybucket" "key" stream 11 ""
                eq_refl eq_refl eq_refl) as [Hsmall _].
    destruct Hsmall as [Hcalls Hout]; [vm_compute; discriminate | reflexivity |].
    rewrite (surjective_pairing (putObject _ _ _ _ _)), Hcalls, Hout. reflexivity.
  - destruct (@putObject_strategy lenient_helpers empty_server "mybucket" "key" stream
                (30 * MiB) "text/plain" eq_refl eq_refl eq_refl) as [_ Hlarge].
    destruct Hlarge as (_ & _ & _ & _ & Hfresh); [reflexivity|].
    exact (Hfresh None "upload-1" [MkPart 1 "etag-1" 0] "etag-multipart"
             eq_refl eq_refl eq_refl eq_refl eq_refl).
  - destruct (@putObject_strategy lenient_helpers resuming_server "mybucket" "key" stream
                (30 * MiB) "text/plain" eq_refl eq_refl eq_refl) as [_ Hlarge].
    destruct Hlarge as (_ & _ & _ & Hresume & _); [reflexivity|].
    apply (Hresume "upload-0" [MkPart 1 "etag-1" 5242880]
             [MkPart 1 "etag-1" 5242880; MkPart 2 "etag-2" 0] "etag-multipart");
      try reflexivity.
    discriminate.
Defined.

(** ** The region cache *)

Section CacheFacts.
Context `{Helpers} `{Signing} `{Parsers}.

(** The listeners of a location request either leave the client as it is or
    write one non-empty region for the bucket of the request. *)
Lemma getBucketRegion_event_writes (c : Client) (name : string) (ev : TransportEvent) :
  let after := getBucketRegion_event c name ev in
  ((exists e, fst after = Failed e) /\ snd after = c)
  \/ (exists region,
         region <> "" /\ fst after = Value (RegionName region)
         /\ snd after = set_regionMap c (<[name := region]> (regionMap c))).
Proof.
  unfold getBucketRegion_event. destruct ev as [e | response]; cbn [fst snd].
  - left. eauto.
  - destruct (negb _); [left; eauto|].
    destruct (bucketRegionPipeline response) as [e | region]; [left; eauto|].
    right. destruct region as [|a region]; cbn [Js.truthy].
    + exists "us-east-1". repeat split. discriminate.
    + exists (String a region). repeat split. discriminate.
Qed.

(** A location request is sent only for a bucket without a usable entry. *)
Lemma getBucketRegion_call_requested (c : Client) (bucketName : option string)
    (name : string) (reqOptions : ReqOptions.t) :
  getBucketRegion_call c bucketName = Requested name reqOptions ->
  Js.truthy (regionMap c !! name) = false.
Proof.
  unfold getBucketRegion_call, regionMap_get.
  destruct (negb (String.eqb _ _)); [discriminate|].
  destruct (negb (Js.truthy bucketName)); [discriminate|].
  destruct (regionMap c !! Js.template bucketName) as [region|] eqn:Hentry.
  - destruct (Js.truthy (Some region)) eqn:Hhit; [discriminate|].
    intros [= <- _]. now rewrite Hentry.
  - destruct (existsb _ _); [discriminate|]. intros [= <- _]. now rewrite Hentry.
Qed.

Lemma perform_entries_truthy (s : System) (op : Operation) :
  entries_truthy (regionMap (instance s)) ->
  entries_truthy (regionMap (instance (perform s op))).
Proof.
  intros Hinv. destruct op as [bucketName | n ev | appName appVersion]; cbn [perform].
  - destruct (getBucketRegion_call _ _); exact Hinv.
  - destruct (inflight s !! n) as [name|]; [|exact Hinv]. cbn [instance].
    destruct (getBucketRegion_event_writes (instance s) name ev)
      as [[_ ->] | (region & Hne & _ & ->)]; [exact Hinv|].
    intros b r. cbn [set_regionMap regionMap]. rewrite lookup_insert.
    case_decide; [intros [= <-]; exact Hne | apply Hinv].
  - unfold setAppInfo.
    destruct (Js.trim_is_empty appName); [exact Hinv|].
    destruct (Js.trim_is_empty appVersion); exact Hinv.
Qed.

Lemma run_entries_truthy (s : System) (ops : list Operation) :
  entries_truthy (regionMap (instance s)) ->
  entries_truthy (regionMap (instance (run s ops))).
Proof.
  revert s. induction ops as [|op ops IH]; intros s Hinv; [exact Hinv|].
  apply IH, perform_entries_truthy, Hinv.
Qed.

Lemma reachable_entries_truthy (s : System) :
  reachable s -> entries_truthy (regionMap (instance s)).
Proof.
  intros (c & ops & ->). apply run_entries_truthy.
  intros b r. cbn. rewrite lookup_empty. discriminate.
Qed.

(** One operation keeps the entry of a bucket that has no lookup in flight,
    and starts no lookup for it. *)
Lemma perform_keeps_entry (s : System) (op : Operation) (bucketName region : string) :
  region <> "" ->
  regionMap (instance s) !! bucketName = Some region ->
  bucketName ∉ inflight s ->
  regionMap (instance (perform s op)) !! bucketName = Some region
  /\ bucketName ∉ inflight (perform s op).
Proof.
  intros Hne Hentry Hidle.
  destruct op as [called | n ev | appName appVersion]; cbn [perform].
  - destruct (getBucketRegion_call (instance s) called) as [r | name req] eqn:Hcall;
      [now split|].
    cbn [instance inflight]. split; [exact Hentry|].
    apply getBucketRegion_call_requested in Hcall.
    intros [Hin | Hin%list_elem_of_singleton]%elem_of_app; [now apply Hidle|].
    subst name. rewrite Hentry in Hcall. destruct region; [contradiction|discriminate].
  - destruct (inflight s !! n) as [name|] eqn:Hn; [|now split].
    cbn [instance inflight].
    assert (Hother : name <> bucketName).
    { intros ->. apply Hidle. eapply list_elem_of_lookup_2. exact Hn. }
    split.
    + destruct (getBucketRegion_event_writes (instance s) name ev)
        as [[_ ->] | (r & _ & _ & ->)]; [exact Hentry|].
      cbn [set_regionMap regionMap]. now rewrite lookup_insert_ne.
    + intros Hin. apply Hidle. eapply list_elem_of_delete_inv. exact Hin.
  - unfold setAppInfo.
    destruct (Js.trim_is_empty appName); [now split|].
    destruct (Js.trim_is_empty appVersion); now split.
Qed.

(** No operation removes an entry: a mapped bucket stays mapped. *)
Lemma perform_keeps_mapped (s : System) (op : Operation) (bucketName : string) :
  is_Some (regionMap (instance s) !! bucketName) ->
  is_Some (regionMap (instance (perform s op)) !! bucketName).
Proof.
  intros Hentry. destruct op as [called | n ev | appName appVersion]; cbn [perform].
  - destruct (getBucketRegion_call _ _); exact Hentry.
  - destruct (inflight s !! n) as [name|]; [|exact Hentry]. cbn [instance].
    destruct (getBucketRegion_event_writes (instance s) name ev)
      as [[_ ->] | (r & _ & _ & ->)]; [exact Hentry|].
    cbn [set_regionMap regionMap]. rewrite lookup_insert. case_decide; eauto.
  - unfold setAppInfo.
    destruct (Js.trim_is_empty appName); [exact Hentry|].
    destruct (Js.trim_is_empty appVersion); exact Hentry.
Qed.

(** A lookup run to its end is the call followed by the delivery of its
    event. *)
Lemma getBucketRegion_as_operations (bucketName : option string) (w : World)
    (ev : TransportEvent) (rest : list TransportEvent) :
  events w = ev :: rest ->
  client (snd (getBucketRegion bucketName w))
  = instance (run {| instance := client w; inflight := [] |}
                [CallGetBucketRegion bucketName; Deliver 0 ev]).
Proof.
  intros Hev. unfold getBucketRegion, run. cbn [fold_left perform instance inflight].
  destruct (getBucketRegion_call (client w) bucketName) as [r | name req];
    [reflexivity|].
  unfold transport_request. rewrite Hev. cbn.
  destruct (getBucketRegion_event (client w) name ev). reflexivity.
Qed.

(** For a self-hosted end point every lookup answers us-east-1 at once: no
    request is sent and the world stays as it is. *)
Theorem getBucketRegion_self_hosted (bucketName : option string) (w : World) :
  host (params (client w)) <> "s3.amazonaws.com" ->
  getBucketRegion bucketName w = (Value (RegionName "us-east-1"), w).
Proof.
  intros Hhost. unfold getBucketRegion, getBucketRegion_call.
  destruct (String.eqb_spec (host (params (client w))) "s3.amazonaws.com");
    [contradiction | reflexivity].
Qed.

(** A lookup of a bucket that the cache maps to a region answers that region
    at once: no request is sent and the world stays as it is. *)
Theorem getBucketRegion_cached (bucketName region : string) (w : World) :
  host (params (client w)) = "s3.amazonaws.com" ->
  bucketName <> "" ->
  region <> "" ->
  regionMap (client w) !! bucketName = Some region ->
  getBucketRegion (Some bucketName) w = (Value (RegionName region), w).
Proof.
  intros Hhost Hb Hr Hentry. unfold getBucketRegion, getBucketRegion_call, regionMap_get.
  rewrite Hhost. cbn [String.eqb negb].
  destruct bucketName as [|a bucketName]; [contradiction|].
  cbn [Js.truthy Js.template negb]. rewrite Hentry.
  destruct region; [contradiction | reflexivity].
Qed.

(** C5, amended: once a bucket is mapped to a region and no location request
    for that bucket is still in flight, no later operation of the client
    changes or removes the entry; no operation ever removes an entry; and
    when a lookup fails, the client, and so the cache, is left as it was and
    the error is the outcome of the request that needed the region. *)
Theorem regionMap_monotonic :
  (forall (s : System) (bucketName region : string) (ops : list Operation),
      reachable s ->
      regionMap (instance s) !! bucketName = Some region ->
      bucketName ∉ inflight s ->
      regionMap (instance (run s ops)) !! bucketName = Some region)
  /\ (forall (s : System) (bucketName : string) (ops : list Operation),
         is_Some (regionMap (instance s) !! bucketName) ->
         is_Some (regionMap (instance (run s ops)) !! bucketName))
  /\ (forall (c : Client) (name : string) (ev : TransportEvent) (e : Error),
         fst (getBucketRegion_event c name ev) = Failed e ->
         snd (getBucketRegion_event c name ev) = c)
  /\ (forall (options : Options.t) (payload : string) (statusCode : Z)
        (w w1 : World) (e : Error),
         getBucketRegion (Options.bucketName options) w = (Failed e, w1) ->
         client w1 = client w
         /\ makeRequest options payload statusCode w = (Failed e, w1)).
Proof.
  split; [|split; [|split]].
  - intros s bucketName region ops Hreach Hentry Hidle.
    assert (Hne : region <> "") by (eapply reachable_entries_truthy; eassumption).
    clear Hreach. revert s Hentry Hidle.
    induction ops as [|op ops IH]; intros s Hentry Hidle; [exact Hentry|].
    destruct (perform_keeps_entry s op bucketName region Hne Hentry Hidle) as [He Hi].
    exact (IH _ He Hi).
  - intros s bucketName ops. revert s.
    induction ops as [|op ops IH]; intros s Hentry; [exact Hentry|].
    apply IH, perform_keeps_mapped, Hentry.
  - intros c name ev e Hfail.
    destruct (getBucketRegion_event_writes c name ev)
      as [[_ Hsame] | (r & _ & Hval & _)]; [exact Hsame|].
    rewrite Hval in Hfail. discriminate.
  - intros options payload statusCode w w1 e Hfail.
    split; [|now apply makeRequest_region_failed].
    revert Hfail. unfold getBucketRegion.
    destruct (getBucketRegion_call (client w) (Options.bucketName options))
      as [r | name req]; [discriminate|].
    unfold transport_request. destruct (events w) as [|ev rest]; [discriminate|].
    cbn [after_request client events requests].
    destruct (getBucketRegion_event (client w) name ev) as [r c'] eqn:Hev.
    intros Heq. injection Heq as Hr Hw. subst w1. cbn [client].
    pose proof (getBucketRegion_event_writes (client w) name ev) as Hwrites.
    rewrite Hev in Hwrites. cbn [fst snd] in Hwrites.
    destruct Hwrites as [[_ Hsame] | (r' & _ & Hval & _)]; [exact Hsame | congruence].
Qed.

End CacheFacts.

Lemma regionMap_monotonic_witness :
  let c := client_of "s3.amazonaws.com" false in
  let s := @run blank_signing plain_parsers (fresh c)
             [CallGetBucketRegion (Some "eu-bucket");
              Deliver 0 (OnResponse (text_response 200 "eu-west-1"))] in
  let later :=
    [CallGetBucketRegion (Some "eu-bucket");
     CallSetAppInfo "app" "1.0";
     CallGetBucketRegion (Some "other");
     Deliver 0 (OnResponse (text_response 200 "us-west-2"));
     CallGetBucketRegion (Some "third");
     Deliver 0 (OnError {| code := Some "ECONNRESET"; message := ""; fields := [] |})] in
  regionMap (instance s) !! "eu-bucket" = Some "eu-west-1"
  /\ regionMap (instance (@run blank_signing plain_parsers s later)) !! "eu-bucket"
     = Some "eu-west-1".
Proof.
  intros c s later.
  assert (Hentry : regionMap (instance s) !! "eu-bucket" = Some "eu-west-1")
    by (vm_compute; reflexivity).
  split; [exact Hentry|].
  destruct (@regionMap_monotonic lenient_helpers blank_signing plain_parsers) as [Hkeep _].
  apply Hkeep.
  - exists c. eexists. reflexivity.
  - exact Hentry.
  - assert (Hidle : inflight s = []) by (vm_compute; reflexivity).
    rewrite Hidle. apply not_elem_of_nil.
Defined.

(** C5 as stated fails when two lookups of one bucket overlap: both find the
    cache empty and send a location request; the answer to the first maps
    the bucket to eu-west-1, and the answer to the second, still in flight,
    replaces that entry by us-west-2. *)
Lemma regionMap_overwritten_by_lookup_in_flight :
  let c := client_of "s3.amazonaws.com" false in
  let s := @run blank_signing plain_parsers (fresh c)
             [CallGetBucketRegion (Some "eu-bucket");
              CallGetBucketRegion (Some "eu-bucket");
              Deliver 0 (OnResponse (text_response 200 "eu-west-1"))] in
  let s' := @perform blank_signing plain_parsers s
              (Deliver 0 (OnResponse (text_response 200 "us-west-2"))) in
  regionMap (instance s) !! "eu-bucket" = Some "eu-west-1"
  /\ inflight s = ["eu-bucket"]
  /\ regionMap (instance s') !! "eu-bucket" = Some "us-west-2".
Proof. intros c s s'. vm_compute. repeat split. Qed.

(** Region bootstrap: the first request for a bucket of s3.amazonaws.com
    sends one location request, the next request for that bucket sends none,
    and the cache holds the region the server named. *)
Example region_bootstrap :
  let c := client_of "s3.amazonaws.com" false in
  let w := world_of c [OnResponse (text_response 200 "eu-west-1");
                       OnResponse (text_response 200 "first");
                       OnResponse (text_response 200 "second")] in
  let w1 := snd (@getObject lenient_helpers blank_signing plain_parsers "eu-bucket" "a" w) in
  let w2 := snd (@getObject lenient_helpers blank_signing plain_parsers "eu-bucket" "b" w1) in
  map (fun sent => ReqOptions.path (sent_options sent)) (requests w2)
  = ["/eu-bucket?location"; "/a"; "/b"]
  /\ map (fun sent => ReqOptions.host (sent_options sent)) (requests w2)
     = ["s3.amazonaws.com"; "eu-bucket.s3.amazonaws.com"; "eu-bucket.s3.amazonaws.com"]
  /\ regionMap (client w2) !! "eu-bucket" = Some "eu-west-1".
Proof. intros c w w1 w2. vm_compute. repeat split. Qed.

Lemma getBucketRegion_self_hosted_witness :
  let w := world_of (client_of "play.example.com" true) [] in
  @getBucketRegion blank_signing plain_parsers (Some "mybucket") w = (Value (RegionName "us-east-1"), w).
Proof.
  intros w. apply (@getBucketRegion_self_hosted blank_signing plain_parsers). discriminate.
Defined.

Lemma getBucketRegion_cached_witness :
  let c := set_regionMap (client_of "s3.amazonaws.com" false) {["eu-bucket" := "eu-west-1"]} in
  let w := world_of c [] in
  @getBucketRegion blank_signing plain_parsers (Some "eu-bucket") w = (Value (RegionName "eu-west-1"), w).
Proof.
  intros c w.
  apply (@getBucketRegion_cached blank_signing plain_parsers);
    [reflexivity | discriminate | discriminate | vm_compute; reflexivity].
Defined.

(** ** Bucket access control *)

(** Whether a list of grants holds a grant of [perm] to the group [uri]. *)
Lemma acl_step_flags (acc : Perm) (grant : Grant) :
  let has uri perm :=
    is_string (grantee_uri grant) uri && is_string (permission grant) perm in
  publicRead (acl_step acc grant) = publicRead acc || has AllUsers "READ"
  /\ publicWrite (acl_step acc grant) = publicWrite acc || has AllUsers "WRITE"
  /\ authenticatedRead (acl_step acc grant)
     = authenticatedRead acc || has AuthenticatedUsers "READ"
  /\ authenticatedWrite (acl_step acc grant)
     = authenticatedWrite acc || has AuthenticatedUsers "WRITE".
Proof.
  unfold acl_step. destruct grant as [[uri|] [perm|]]; cbn [grantee_uri permission is_string].
  - destruct (String.eqb_spec uri AllUsers) as [-> | Hall].
    + destruct (String.eqb_spec perm "READ") as [-> | Hread].
      * cbn. rewrite !orb_false_r, !orb_true_r. repeat split.
      * destruct (String.eqb_spec perm "WRITE") as [-> | Hwrite];
          cbn; rewrite ?orb_false_r, ?orb_true_r; repeat split.
    + destruct (String.eqb_spec uri AuthenticatedUsers) as [-> | Hauth].
      * destruct (String.eqb_spec perm "READ") as [-> | Hread].
        -- cbn. rewrite !orb_false_r, !orb_true_r. repeat split.
        -- destruct (String.eqb_spec perm "WRITE") as [-> | Hwrite];
             cbn; rewrite ?orb_false_r, ?orb_true_r; repeat split.
      * cbn. rewrite !orb_false_r. repeat split.
  - destruct (String.eqb uri AllUsers); [|destruct (String.eqb uri AuthenticatedUsers)];
      cbn; rewrite ?andb_false_r, ?orb_false_r; repeat split.
  - cbn. rewrite !orb_false_r. repeat split.
  - cbn. rewrite !orb_false_r. repeat split.
Qed.

(** The flags after the reduce: a flag is set when the accumulator had it or
    some grant of the list gives that permission to that group. *)
Lemma acl_fold_flags (acl : list Grant) (acc : Perm) :
  let has uri perm :=
    existsb (fun grant =>
               is_string (grantee_uri grant) uri && is_string (permission grant) perm)
      acl in
  publicRead (fold_left acl_step acl acc) = publicRead acc || has AllUsers "READ"
  /\ publicWrite (fold_left acl_step acl acc) = publicWrite acc || has AllUsers "WRITE"
  /\ authenticatedRead (fold_left acl_step acl acc)
     = authenticatedRead acc || has AuthenticatedUsers "READ"
  /\ authenticatedWrite (fold_left acl_step acl acc)
     = authenticatedWrite acc || has AuthenticatedUsers "WRITE".
Proof.
  revert acc. induction acl as [|grant acl IH]; intros acc; cbn [fold_left existsb].
  - rewrite !orb_false_r. repeat split.
  - destruct (IH (acl_step acc grant)) as (-> & -> & -> & ->).
    destruct (acl_step_flags acc grant) as (-> & -> & -> & ->).
    rewrite !orb_assoc. repeat split.
Qed.

Lemma existsb_same_members {A : Type} (f : A -> bool) (l l' : list A) :
  (forall x, In x l <-> In x l') -> existsb f l = existsb f l'.
Proof.
  intros Hsame. apply eq_true_iff_eq. rewrite !existsb_exists.
  split; intros (x & Hin & Hf); exists x; (split; [apply Hsame, Hin | exact Hf]).
Qed.

(** The canned ACL that getBucketACL reports depends on which grants the
    list holds, not on their order or on how often one occurs. *)
Theorem cannedACL_same_members (acl acl' : list Grant) :
  (forall grant, In grant acl <-> In grant acl') ->
  cannedACL acl = cannedACL acl'.
Proof.
  intros Hsame. unfold cannedACL, cannedACL_of.
  destruct (acl_fold_flags acl no_perm) as (-> & -> & -> & ->).
  destruct (acl_fold_flags acl' no_perm) as (-> & -> & -> & ->).
  now rewrite !(existsb_same_members _ acl acl' Hsame).
Qed.

Lemma cannedACL_same_members_witness :
  let read := {| grantee_uri := Some AllUsers; permission := Some "READ" |} in
  let write := {| grantee_uri := Some AllUsers; permission := Some "WRITE" |} in
  cannedACL [read; write; read] = cannedACL [write; read].
Proof.
  intros read write. apply cannedACL_same_members.
  intros grant. cbn [In]. tauto.
Defined.

Lemma is_string_iff (v : option string) (s : string) : is_string v s = true <-> v = Some s.
Proof.
  destruct v as [x|]; cbn; [|split; discriminate].
  destruct (String.eqb_spec x s); split; congruence.
Qed.

Lemma existsb_grants_to (acl : list Grant) (uri perm : string) :
  existsb (fun grant =>
             is_string (grantee_uri grant) uri && is_string (permission grant) perm) acl
  = true <-> grants_to acl uri perm.
Proof.
  unfold grants_to. rewrite existsb_exists.
  split; intros (grant & Hin & Hg); exists grant; (split; [exact Hin|]).
  - apply andb_true_iff in Hg as [Hu Hp]. now rewrite <- !is_string_iff.
  - destruct Hg as [Hu Hp]. apply andb_true_iff. now rewrite !is_string_iff.
Qed.

(** The canned ACL that getBucketACL reports, by the grants of the list to
    the two groups: private without any READ or WRITE grant to them;
    public-read and public-read-write for READ, and READ with WRITE, to all
    users alone; authenticated-read for READ to authenticated users alone;
    and unsupported-acl in every other case, which are WRITE to
    authenticated users, WRITE without READ to all users, and READ to
    authenticated users together with a grant to all users. *)
Theorem cannedACL_table (acl : list Grant) :
  let publicR := grants_to acl AllUsers "READ" in
  let publicW := grants_to acl AllUsers "WRITE" in
  let authR := grants_to acl AuthenticatedUsers "READ" in
  let authW := grants_to acl AuthenticatedUsers "WRITE" in
  (cannedACL acl = "private" <-> ~ publicR /\ ~ publicW /\ ~ authR /\ ~ authW)
  /\ (cannedACL acl = "public-read" <-> publicR /\ ~ publicW /\ ~ authR /\ ~ authW)
  /\ (cannedACL acl = "public-read-write" <-> publicR /\ publicW /\ ~ authR /\ ~ authW)
  /\ (cannedACL acl = "authenticated-read" <-> ~ publicR /\ ~ publicW /\ authR /\ ~ authW)
  /\ (cannedACL acl = "unsupported-acl" <->
      authW \/ (publicW /\ ~ publicR) \/ (authR /\ (publicR \/ publicW))).
Proof.
  intros publicR publicW authR authW. subst publicR publicW authR authW.
  rewrite <- !existsb_grants_to.
  unfold cannedACL, cannedACL_of.
  destruct (acl_fold_flags acl no_perm) as (-> & -> & -> & ->).
  cbn [publicRead publicWrite authenticatedRead authenticatedWrite no_perm orb].
  destruct (existsb _ acl), (existsb _ acl), (existsb _ acl), (existsb _ acl);
    cbn [andb negb];
    repeat split; intros; try discriminate; try reflexivity;
    repeat match goal with
           | Hc : _ /\ _ |- _ => destruct Hc
           | Hc : _ \/ _ |- _ => destruct Hc
           | Hc : ~ true = true |- _ => exfalso; apply Hc; reflexivity
           end;
    try discriminate; try congruence; auto 6.
Qed.

(** ** Listing objects *)

Section ListQueryFacts.
Context `{Escaping}.


End ListQueryFacts.

Section ListObjectsFacts.
Context `{Helpers} `{Signing} `{Parsers} `{Escaping} `{ListParser}.

(** A lookup that the call answers leaves the world as it is. *)
Lemma getBucketRegion_answered (bucketName : option string) (w : World) (region : Region) :
  getBucketRegion_call (client w) bucketName = Answered region ->
  getBucketRegion bucketName w = (Value region, w).
Proof. intros Hcall. unfold getBucketRegion. now rewrite Hcall. Qed.

(** One page: with the region known, the event of the transport decides
    what listObjectsOnce hands on. *)
Lemma listObjectsOnce_run (bucketName : string) (prefix marker delimiter : option string)
    (w : World) (region : Region) :
  getBucketRegion_call (client w) (Some bucketName) = Answered region ->
  let sent := page_request (client w) region bucketName prefix delimiter marker in
  listObjectsOnce bucketName prefix marker delimiter 1000 w =
  match events w with
  | [] => (Pending, after_request w sent [])
  | OnError e :: rest => (Failed e, after_request w sent rest)
  | OnResponse response :: rest =>
      (match makeRequest_response 200 response with
       | Value response =>
           match concater (Response.body response) with
           | inl e => Failed e
           | inr xml =>
               match parseListObjects xml with
               | inl e => Failed e
               | inr result => Value result
               end
           end
       | Failed e => Failed e
       | Thrown x => Thrown x
       | Pending => Pending
       end, after_request w sent rest)
  end.
Proof.
  intros Hcall sent. subst sent. unfold listObjectsOnce, callback.
  rewrite (makeRequest_run _ "" 200 w w region)
    by (apply getBucketRegion_answered; exact Hcall).
  unfold page_request.
  destruct (events w) as [|[e|response] rest]; try reflexivity.
  destruct (makeRequest_response 200 response); try reflexivity.
  destruct (concater _); [reflexivity|].
  destruct (parseListObjects _); reflexivity.
Qed.

Lemma listObjectsOnce_page (bucketName : string) (prefix marker delimiter : option string)
    (w : World) (region : Region) (response : Response.t) (result : ListObjectsResult)
    (rest : list TransportEvent) :
  getBucketRegion_call (client w) (Some bucketName) = Answered region ->
  events w = OnResponse response :: rest ->
  carries_page response result ->
  listObjectsOnce bucketName prefix marker delimiter 1000 w =
  (Value result,
   after_request w (page_request (client w) region bucketName prefix delimiter marker) rest).
Proof.
  intros Hcall Hev (Hstatus & xml & Hxml & Hparse).
  rewrite (listObjectsOnce_run _ _ _ _ _ region Hcall), Hev.
  unfold makeRequest_response. rewrite Hstatus. cbn [Z.eqb Pos.eqb negb].
  now rewrite Hxml, Hparse.
Qed.

(** Pages that are truncated lead listNext on to the next page: after
    them it goes on with the marker they leave, in the world they leave. *)
Lemma listNext_through (pages : list (Response.t * ListObjectsResult)) :
  forall (fuel : nat) (bucketName : string) (prefix delimiter marker : option string)
         (w : World) (region : Region) (tail : list TransportEvent),
    getBucketRegion_call (client w) (Some bucketName) = Answered region ->
    events w = (responses_of pages ++ tail)%list ->
    Forall (fun page => carries_page (fst page) (snd page)
                        /\ isTruncated (snd page) = true) pages ->
    listNext (length pages + fuel) bucketName prefix delimiter marker w =
    match
      listNext fuel bucketName prefix delimiter (marker_after marker pages)
        {| client := client w; events := tail;
           requests :=
             (requests w
              ++ map (page_request (client w) region bucketName prefix delimiter)
                   (markers_from marker pages))%list |}
    with
    | Some (more, w') =>
        Some ({| listed := (objects_of pages ++ listed more)%list;
                 ending := ending more |}, w')
    | None => None
    end.
Proof.
  induction pages as [|[response result] pages IH];
    intros fuel bucketName prefix delimiter marker w region tail Hcall Hev Hpages.
  - cbn [length Nat.add responses_of map app markers_from marker_after objects_of concat]
      in *.
    rewrite app_nil_r. destruct w as [c evs reqs]. cbn [client events requests] in *.
    subst evs. destruct (listNext fuel _ _ _ _ _) as [[[l e] w']|]; reflexivity.
  - apply Forall_cons_1 in Hpages as [[Hpage Htrunc] Hpages].
    cbn [fst snd] in Hpage, Htrunc.
    cbn [length Nat.add listNext].
    rewrite (listObjectsOnce_page bucketName prefix marker delimiter w region response
               result (responses_of pages ++ tail) Hcall Hev Hpage).
    rewrite Htrunc.
    rewrite (IH fuel bucketName prefix delimiter (nextMarker result) _ region tail);
      [|exact Hcall|reflexivity|exact Hpages].
    cbn [after_request client events requests markers_from marker_after map snd].
    rewrite <- app_assoc. cbn [app].
    destruct (listNext fuel _ _ _ _ _) as [[[l e] w']|]; [|reflexivity].
    cbn [listed ending objects_of map concat snd]. now rewrite <- app_assoc.
Qed.

(** The pages of a listing, all truncated but the last: listObjects delivers
    the objects of all pages in order and ends the stream; it sends one
    request per page, the first without a marker and each later one with
    the nextMarker of the page before it. *)
Theorem listObjects_pages (bucketName : string) (prefix : option string)
    (recursive : bool) (w : World) (region : Region)
    (pages : list (Response.t * ListObjectsResult))
    (last : Response.t * ListObjectsResult) (rest : list TransportEvent) :
  isValidBucketName bucketName = true ->
  getBucketRegion_call (client w) (Some bucketName) = Answered region ->
  events w = (responses_of (pages ++ [last]) ++ rest)%list ->
  Forall (fun page => carries_page (fst page) (snd page)
                      /\ isTruncated (snd page) = true) pages ->
  carries_page (fst last) (snd last) ->
  isTruncated (snd last) = false ->
  let delimiter := if recursive then None else Some "/" in
  listObjects bucketName prefix recursive w =
  inr (Some ({| listed := objects_of (pages ++ [last]); ending := Ended |},
             {| client := client w; events := rest;
                requests :=
                  (requests w
                   ++ map (page_request (client w) region bucketName prefix delimiter)
                        (markers_from None (pages ++ [last])))%list |})).
Proof.
  intros Hvalid Hcall Hev Hpages Hlast Hend delimiter. subst delimiter.
  unfold listObjects. rewrite Hvalid. cbn [negb]. do 2 f_equal.
  assert (Hlen : S (length (events w)) = (length pages + (2 + length rest))%nat).
  { rewrite Hev. unfold responses_of.
    rewrite !length_app, length_map, length_app. cbn [length]. lia. }
  rewrite Hlen.
  unfold responses_of in Hev. rewrite map_app, <- app_assoc in Hev.
  rewrite (listNext_through pages _ _ _ _ _ w region _ Hcall Hev Hpages).
  cbn [Nat.add listNext].
  destruct last as [response result]. cbn [fst snd map app] in *.
  rewrite (listObjectsOnce_page bucketName prefix _ _ _ region response result rest);
    [|exact Hcall|reflexivity|exact Hlast].
  rewrite Hend. cbn [listed ending after_request client events requests].
  unfold objects_of. rewrite map_app, concat_app. cbn [map concat snd].
  rewrite app_nil_r. do 2 f_equal.
  unfold after_request. cbn [client events requests]. f_equal.
  rewrite <- app_assoc. f_equal.
  change [page_request (client w) region bucketName prefix
            (if recursive then None else Some "/") (marker_after None pages)]
    with (map (page_request (client w) region bucketName prefix
                 (if recursive then None else Some "/")) [marker_after None pages]).
  rewrite <- map_app. f_equal.
  clear. generalize (@None string) as marker.
  induction pages as [|[r p] pages IH]; intros marker; [reflexivity|].
  cbn [markers_from marker_after map app snd]. now rewrite <- IH.
Qed.

(** An error of the transport after some truncated pages: listObjects
    delivers the objects of those pages and then the error; the request the
    error answers is the last one sent. *)
Theorem listObjects_error (bucketName : string) (prefix : option string)
    (recursive : bool) (w : World) (region : Region)
    (pages : list (Response.t * ListObjectsResult)) (e : Error)
    (rest : list TransportEvent) :
  isValidBucketName bucketName = true ->
  getBucketRegion_call (client w) (Some bucketName) = Answered region ->
  events w = (responses_of pages ++ OnError e :: rest)%list ->
  Forall (fun page => carries_page (fst page) (snd page)
                      /\ isTruncated (snd page) = true) pages ->
  let delimiter := if recursive then None else Some "/" in
  listObjects bucketName prefix recursive w =
  inr (Some ({| listed := objects_of pages; ending := Errored e |},
             {| client := client w; events := rest;
                requests :=
                  (requests w
                   ++ map (page_request (client w) region bucketName prefix delimiter)
                        (markers_from None pages ++ [marker_after None pages]))%list |})).
Proof.
  intros Hvalid Hcall Hev Hpages delimiter. subst delimiter.
  unfold listObjects. rewrite Hvalid. cbn [negb]. do 2 f_equal.
  assert (Hlen : S (length (events w)) = (length pages + (2 + length rest))%nat).
  { rewrite Hev. unfold responses_of. rewrite !length_app, length_map. cbn [length]. lia. }
  rewrite Hlen.
  rewrite (listNext_through pages _ _ _ _ _ w region _ Hcall Hev Hpages).
  cbn [Nat.add listNext].
  rewrite (listObjectsOnce_run bucketName prefix _ _ _ region) by exact Hcall.
  cbn [events client requests after_request listed ending].
  rewrite app_nil_r, map_app, app_assoc. reflexivity.
Qed.

End ListObjectsFacts.

Section ListObjectsFuel.
Context `{Helpers} `{Signing} `{Parsers} `{Escaping} `{ListParser}.

Lemma getBucketRegion_events (bucketName : option string) (w : World) :
  (length (events (snd (getBucketRegion bucketName w))) <= length (events w))%nat.
Proof.
  unfold getBucketRegion.
  destruct (getBucketRegion_call (client w) bucketName) as [r | name req]; [reflexivity|].
  unfold transport_request. destruct (events w) as [|ev rest]; cbn; [lia|].
  destruct (getBucketRegion_event (client w) name ev). cbn. lia.
Qed.

(** A page handed on has used up an event of the transport. *)
Lemma listObjectsOnce_consumes (bucketName : string) (prefix marker delimiter : option string)
    (maxKeys : Z) (w w' : World) (result : ListObjectsResult) :
  listObjectsOnce bucketName prefix marker delimiter maxKeys w = (Value result, w') ->
  (length (events w') < length (events w))%nat.
Proof.
  unfold listObjectsOnce, callback, makeRequest, mbind, M_bind, this.
  pose proof (getBucketRegion_events (Some bucketName) w) as Hle.
  cbn [listObjectsOnce_options Options.bucketName].
  destruct (getBucketRegion (Some bucketName) w) as [[region | e | x |] w1];
    cbn [snd] in Hle; try discriminate.
  unfold transport_request. destruct (events w1) as [|ev rest] eqn:Hev; [discriminate|].
  cbn [length] in Hle.
  destruct ev as [e | response]; [discriminate|].
  destruct (makeRequest_response 200 response); try discriminate.
  destruct (concater _); [discriminate|].
  destruct (parseListObjects _); [discriminate|].
  intros [= _ <-]. cbn. lia.
Qed.

(** The fuel that listObjects gives listNext is enough: listNext comes to a
    result. *)
Lemma listNext_fuel_enough (fuel : nat) :
  forall (bucketName : string) (prefix delimiter marker : option string) (w : World),
    (length (events w) < fuel)%nat ->
    is_Some (listNext fuel bucketName prefix delimiter marker w).
Proof.
  induction fuel as [|fuel IH]; intros bucketName prefix delimiter marker w Hlen; [lia|].
  cbn [listNext].
  destruct (listObjectsOnce bucketName prefix marker delimiter 1000 w)
    as [[result | e | x |] w'] eqn:Hpage; try (eexists; reflexivity).
  destruct (isTruncated result); [|eexists; reflexivity].
  apply listObjectsOnce_consumes in Hpage.
  destruct (IH bucketName prefix delimiter (nextMarker result) w') as [[more w''] ->];
    [lia|]. eexists; reflexivity.
Qed.

End ListObjectsFuel.

Lemma listObjects_pages_witness :
  let first := text_response 200 "a b ..." in
  let second := text_response 200 "c" in
  let w := world_of (client_of "play.example.com" true)
             [OnResponse first; OnResponse second] in
  exists w',
    @listObjects lenient_helpers blank_signing plain_parsers spec_escaping word_list_parser
      "mybucket" None false w
    = inr (Some ({| listed := map object_named ["a"; "b"; "c"]; ending := Ended |}, w'))
    /\ map (fun sent => ReqOptions.path (sent_options sent)) (requests w')
       = ["/mybucket?delimiter=%2F&max-keys=1000";
          "/mybucket?delimiter=%2F&marker=b&max-keys=1000"]
    /\ events w' = [].
Proof.
  intros first second w. eexists. split.
  - apply (@listObjects_pages lenient_helpers blank_signing plain_parsers spec_escaping
             word_list_parser "mybucket" None false w "us-east-1"
             [(first, page_of_words ["a"; "b"; "..."])] (second, page_of_words ["c"]) []).
    + reflexivity.
    + reflexivity.
    + reflexivity.
    + constructor; [|constructor]. split; [|reflexivity].
      split; [reflexivity|]. exists "a b ...". split; reflexivity.
    + split; [reflexivity|]. exists "c". split; reflexivity.
    + reflexivity.
  - split; reflexivity.
Defined.

Lemma listObjects_error_witness :
  let first := text_response 200 "a b ..." in
  let e := {| code := Some "ECONNRESET"; message := ""; fields := [] |} in
  let w := world_of (client_of "play.example.com" true) [OnResponse first; OnError e] in
  exists w',
    @listObjects lenient_helpers blank_signing plain_parsers spec_escaping word_list_parser
      "mybucket" (Some "photos/") true w
    = inr (Some ({| listed := map object_named ["a"; "b"]; ending := Errored e |}, w'))
    /\ map (fun sent => ReqOptions.path (sent_options sent)) (requests w')
       = ["/mybucket?max-keys=1000&prefix=photos%2F";
          "/mybucket?marker=b&max-keys=1000&prefix=photos%2F"].
Proof.
  intros first e w. eexists. split.
  - apply (@listObjects_error lenient_helpers blank_signing plain_parsers spec_escaping
             word_list_parser "mybucket" (Some "photos/") true w "us-east-1"
             [(first, page_of_words ["a"; "b"; "..."])] e []).
    + reflexivity.
    + reflexivity.
    + reflexivity.
    + constructor; [|constructor]. split; [|reflexivity].
      split; [reflexivity|]. exists "a b ...". split; reflexivity.
  - reflexivity.
Defined.

(** ** Requests, regions and the cache *)

Section LookupFacts.
Context `{Helpers} `{Signing} `{Parsers}.

(** A location request is sent only by a client of s3.amazonaws.com, for a
    named bucket. *)
Lemma getBucketRegion_call_sends (c : Client) (bucketName : option string)
    (name : string) (reqOptions : ReqOptions.t) :
  getBucketRegion_call c bucketName = Requested name reqOptions ->
  host (params c) = "s3.amazonaws.com"
  /\ Js.truthy bucketName = true /\ name = Js.template bucketName.
Proof.
  unfold getBucketRegion_call.
  destruct (String.eqb_spec (host (params c)) "s3.amazonaws.com") as [Hhost|];
    [|discriminate].
  cbn [negb]. destruct (Js.truthy bucketName); [|discriminate]. cbn [negb].
  destruct (regionMap_get c (Js.template bucketName)) as [[region | property]|];
    [destruct (Js.truthy (Some region)); [discriminate|] | discriminate |];
    intros [= <- _]; repeat split; exact Hhost.
Qed.

Lemma getBucketRegion_call_nonempty (c : Client) (bucketName : option string)
    (region : Region) :
  getBucketRegion_call c bucketName = Answered region -> region <> "".
Proof.
  unfold getBucketRegion_call.
  destruct (negb (String.eqb _ _)); [intros [= <-]; discriminate|].
  destruct (negb (Js.truthy bucketName)); [intros [= <-]; discriminate|].
  destruct (regionMap_get c (Js.template bucketName)) as [[[|a r] | property]|];
    cbn [Js.truthy]; try discriminate; intros [= <-]; discriminate.
Qed.

(** A lookup that has answered with a region answers with it again at once:
    the region is not empty, and a second lookup of that bucket sends no
    request and leaves the world as it is, be it through the cache or
    because the end point is self-hosted. *)
Theorem getBucketRegion_again (bucketName : option string) (w w1 : World)
    (region : Region) :
  getBucketRegion bucketName w = (Value region, w1) ->
  region <> "" /\ getBucketRegion bucketName w1 = (Value region, w1).
Proof.
  unfold getBucketRegion at 1.
  destruct (getBucketRegion_call (client w) bucketName) as [r | name req] eqn:Hcall.
  - intros [= <- <-]. split; [eapply getBucketRegion_call_nonempty; eassumption|].
    unfold getBucketRegion. now rewrite Hcall.
  - apply getBucketRegion_call_sends in Hcall as (Hhost & Hname & ->).
    unfold transport_request. destruct (events w) as [|ev rest]; [discriminate|].
    cbn [after_request client events requests].
    pose proof (getBucketRegion_event_writes (client w) (Js.template bucketName) ev)
      as Hwrites.
    destruct (getBucketRegion_event (client w) (Js.template bucketName) ev) as [r c'].
    cbn [fst snd] in Hwrites. intros [= -> <-].
    destruct Hwrites as [[[e He] _] | (r & Hne & Hval & ->)]; [discriminate|].
    injection Hval as ->. split; [congruence|].
    unfold getBucketRegion, getBucketRegion_call, regionMap_get.
    cbn [client set_regionMap params regionMap].
    rewrite Hhost, Hname. cbn [String.eqb negb].
    rewrite lookup_insert_eq.
    destruct r; [contradiction | reflexivity].
Qed.

(** The requests of makeRequest: at most two.  The location request comes
    first, when the lookup sends one; the request itself follows only when
    the lookup has answered with a region, and it is signed for that region
    with the digest of its payload. *)
Theorem makeRequest_requests (options : Options.t) (payload : string) (statusCode : Z)
    (w : World) :
  let bucketName := Options.bucketName options in
  requests (snd (makeRequest options payload statusCode w)) =
  (requests w
   ++ lookup_requests (client w) bucketName
   ++ match getBucketRegion bucketName w with
      | (Value region, w1) => [own_request (client w) options payload region]
      | _ => []
      end)%list.
Proof.
  intros bucketName. subst bucketName.
  assert (Hlookup : requests (snd (getBucketRegion (Options.bucketName options) w))
                    = (requests w
                       ++ lookup_requests (client w) (Options.bucketName options))%list
                    /\ params (client (snd (getBucketRegion (Options.bucketName options) w)))
                       = params (client w)).
  { unfold getBucketRegion, lookup_requests.
    destruct (getBucketRegion_call (client w) (Options.bucketName options))
      as [r | name req]; [now rewrite app_nil_r|].
    unfold transport_request. destruct (events w) as [|ev rest]; [now split|].
    cbn [after_request client events requests].
    pose proof (getBucketRegion_event_writes (client w) name ev) as Hwrites.
    destruct (getBucketRegion_event (client w) name ev) as [r c'].
    cbn [fst snd client requests] in *.
    destruct Hwrites as [[_ ->] | (r' & _ & _ & ->)]; now split. }
  destruct Hlookup as [Hsent Hparams].
  unfold makeRequest, mbind, M_bind, this.
  destruct (getBucketRegion (Options.bucketName options) w) as [[region | e | x |] w1];
    cbn [snd] in Hsent, Hparams; rewrite ?app_nil_r; try exact Hsent.
  unfold transport_request, own_request. rewrite Hparams.
  destruct (events w1) as [|[e | response] rest];
    cbn [snd after_request requests fail]; rewrite Hsent, <- app_assoc; reflexivity.
Qed.

End LookupFacts.

Lemma makeRequest_requests_witness :
  let options :=
    {| Options.method := "HEAD"; Options.bucketName := Some "eu-bucket";
       Options.objectName := Some "key"; Options.headers := None;
       Options.query := None |} in
  let w := world_of (client_of "s3.amazonaws.com" false)
             [OnResponse (text_response 200 "eu-west-1");
              OnResponse (text_response 200 "")] in
  map (fun sent => (ReqOptions.host (sent_options sent), ReqOptions.path (sent_options sent)))
    (requests (snd (@makeRequest lenient_helpers blank_signing plain_parsers
                      options "" 200 w)))
  = [("s3.amazonaws.com", "/eu-bucket?location"); ("eu-bucket.s3.amazonaws.com", "/key")].
Proof.
  intros options w.
  rewrite (@makeRequest_requests lenient_helpers blank_signing plain_parsers options "" 200 w).
  vm_compute. reflexivity.
Defined.

Lemma getBucketRegion_again_witness :
  let w := world_of (client_of "s3.amazonaws.com" false)
             [OnResponse (text_response 200 "")] in
  let w1 := snd (@getBucketRegion blank_signing plain_parsers (Some "mybucket") w) in
  @getBucketRegion blank_signing plain_parsers (Some "mybucket") w1 = (Value (RegionName "us-east-1"), w1)
  /\ requests w1 = requests (snd (@getBucketRegion blank_signing plain_parsers
                                    (Some "mybucket") w1)).
Proof.
  intros w w1.
  destruct (@getBucketRegion_again blank_signing plain_parsers (Some "mybucket") w w1
              "us-east-1") as [_ Hagain].
  - vm_compute. reflexivity.
  - split; [exact Hagain|]. now rewrite Hagain.
Defined.

(** A bucket name that names a property of Object.prototype is found in
    the cache of a new client: the lookup hands on that property as the
    region and sends no location request. *)
Example getBucketRegion_inherited_name :
  let w := world_of (client_of "s3.amazonaws.com" false)
             [OnResponse (text_response 200 "eu-west-1")] in
  @getBucketRegion blank_signing plain_parsers (Some "constructor") w
  = (Value (Inherited "constructor"), w)
  /\ fst (@getBucketRegion blank_signing plain_parsers (Some "mybucket") w)
     = Value (RegionName "eu-west-1").
Proof. split; reflexivity. Qed.

Section BucketFacts.
Context `{Helpers} `{Signing} `{Parsers} `{Numbers} `{XmlPackage}.

(** Against s3.amazonaws.com, makeBucket for a bucket that is not in the
    region cache, and whose name is not the name of a property of
    Object.prototype, first asks for the location of that bucket; when the
    answer is not a 200 response, the caller gets the error of that answer
    and the request that would create the bucket is never sent. *)
Theorem makeBucket_location_first (bucketName : string) (region : option string)
    (w : World) (response : Response.t) (rest : list TransportEvent) :
  isValidBucketName bucketName = true ->
  host (params (client w)) = "s3.amazonaws.com" ->
  bucketName <> "" ->
  regionMap (client w) !! bucketName = None ->
  ~ In bucketName Object_prototype ->
  events w = OnResponse response :: rest ->
  Response.statusCode response <> 200 ->
  let c := client w in
  let location :=
    {| ReqOptions.method := "GET"; ReqOptions.host := host (params c);
       ReqOptions.port := port (params c); ReqOptions.protocol := protocol (params c);
       ReqOptions.headers := None;
       ReqOptions.path := "/" ++ bucketName ++ "?location" |} in
  makeBucket bucketName region w =
  (Failed (errorPipeline response),
   {| client := c; events := rest;
      requests :=
        (requests w
         ++ [{| sent_options :=
                  signV4 location "" (accessKey (params c)) (secretKey (params c))
                    "us-east-1";
                sent_payload := "" |}])%list |}).
Proof.
  intros Hvalid Hhost Hname Hmiss Hown Hev Hstatus c location. subst c location.
  unfold makeBucket, makeBucketWithACL. rewrite Hvalid. cbn [negb].
  apply makeRequest_region_failed. cbn [Options.bucketName].
  unfold getBucketRegion, getBucketRegion_call, regionMap_get.
  rewrite Hhost. cbn [String.eqb negb].
  destruct bucketName as [|a bucketName]; [contradiction|].
  cbn [Js.truthy Js.template negb]. rewrite Hmiss.
  destruct (existsb (String.eqb (String a bucketName)) Object_prototype) eqn:Hproto.
  { apply existsb_exists in Hproto as (property & Hin & Heq).
    apply String.eqb_eq in Heq. subst property. contradiction. }
  unfold transport_request. rewrite Hev. cbn [after_request client events requests].
  unfold getBucketRegion_event.
  destruct (Z.eqb_spec (Response.statusCode response) 200); [contradiction|].
  cbn [negb]. destruct w as [c evs reqs]. reflexivity.
Qed.

(** statObject on a response with status 200: with an etag header the
    caller gets the stat, whose etag is the header without any double quote
    (an etag between quotes comes without them) and whose content type and
    modification time are the headers as they are; without an etag header
    the listener throws a type error and the callback is not called. *)
Theorem statObject_etag (bucketName objectName : string) (w w1 : World)
    (region : Region) (response : Response.t) (rest : list TransportEvent) :
  isValidBucketName bucketName = true ->
  isValidObjectName objectName = true ->
  Js.trim_is_empty objectName = false ->
  getBucketRegion (Some bucketName) w = (Value region, w1) ->
  events w1 = OnResponse response :: rest ->
  Response.statusCode response = 200 ->
  let headers := Response.headers response in
  (forall etag, header "etag" headers = Some etag ->
     exists stat,
       fst (statObject bucketName objectName w) = Value stat
       /\ stat_etag stat = remove_quotes etag
       /\ Forall (fun c => c <> "034"%char) (list_ascii_of_string (stat_etag stat))
       /\ (forall inner,
             Forall (fun c => c <> "034"%char) (list_ascii_of_string inner) ->
             etag = dquote ++ inner ++ dquote -> stat_etag stat = inner)
       /\ stat_contentType stat = header "content-type" headers
       /\ stat_lastModified stat = header "last-modified" headers)
  /\ (header "etag" headers = None ->
      exists msg, fst (statObject bucketName objectName w) = Thrown (TypeError msg)).
Proof.
  intros Hb Ho Hne Hregion Hev Hstatus headers. subst headers.
  assert (Hfst : fst (statObject bucketName objectName w) =
                 match header "etag" (Response.headers response) with
                 | None => Thrown (TypeError "Cannot read property 'replace' of undefined")
                 | Some etag =>
                     Value {| stat_size :=
                                toNumber (header "content-length" (Response.headers response));
                              stat_etag := remove_quotes etag;
                              stat_contentType :=
                                header "content-type" (Response.headers response);
                              stat_lastModified :=
                                header "last-modified" (Response.headers response) |}
                 end).
  { unfold statObject. rewrite Hb, Ho, Hne. cbn [negb]. unfold callback.
    rewrite (makeRequest_run _ "" 200 w w1 region) by exact Hregion.
    rewrite Hev. unfold makeRequest_response. rewrite Hstatus. cbn [Z.eqb Pos.eqb negb].
    destruct (header "etag" (Response.headers response)); reflexivity. }
  rewrite Hfst. split.
  - intros etag Hetag. rewrite Hetag. eexists. split; [reflexivity|].
    cbn [stat_etag stat_contentType stat_lastModified].
    split; [reflexivity|]. split; [|split; [|split; reflexivity]].
    + clear. induction etag as [|c etag IH]; cbn [remove_quotes]; [constructor|].
      destruct (ascii_dec c "034"%char); [exact IH|]. now constructor.
    + intros inner Hinner ->. unfold dquote. rewrite append_cons, append_nil_l.
      cbn [remove_quotes].
      destruct (ascii_dec "034"%char "034"%char); [|congruence].
      clear -Hinner. induction inner as [|c inner IH].
      * rewrite append_nil_l. cbn [remove_quotes].
        destruct (ascii_dec _ _); [reflexivity | congruence].
      * apply Forall_cons_1 in Hinner as [Hc Hinner].
        rewrite append_cons. cbn [remove_quotes list_ascii_of_string] in *.
        destruct (ascii_dec c "034"%char); [contradiction|]. now rewrite (IH Hinner).
  - intros Hetag. rewrite Hetag. eexists. reflexivity.
Qed.

End BucketFacts.

Lemma makeBucket_location_first_witness :
  let w := world_of (client_of "s3.amazonaws.com" false)
             [OnResponse (text_response 404 "NoSuchBucket")] in
  let run := @makeBucket lenient_helpers blank_signing plain_parsers location_xml
               "newbucket" None w in
  fst run = Failed {| code := Some "NoSuchBucket"; message := ""; fields := [] |}
  /\ map (fun sent => (ReqOptions.method (sent_options sent),
                       ReqOptions.path (sent_options sent))) (requests (snd run))
     = [("GET", "/newbucket?location")].
Proof.
  intros w run. subst run.
  rewrite (@makeBucket_location_first lenient_helpers blank_signing plain_parsers
             location_xml "newbucket" None w (text_response 404 "NoSuchBucket") []);
    [split; reflexivity | reflexivity | reflexivity | discriminate
     | vm_compute; reflexivity | cbn; intuition discriminate | reflexivity
     | discriminate].
Defined.

Lemma statObject_etag_witness :
  let response :=
    {| Response.statusCode := 200;
       Response.headers := [("content-length", "11"); ("content-type", "text/plain");
                            ("etag", dquote ++ "abc" ++ dquote)];
       Response.body := {| chunks := []; failure := None |} |} in
  let w := world_of (client_of "play.example.com" true) [OnResponse response] in
  exists stat,
    fst (@statObject lenient_helpers blank_signing plain_parsers decimal_numbers
           "mybucket" "key" w) = Value stat
    /\ stat_etag stat = "abc" /\ stat_size stat = Some 11
    /\ stat_lastModified stat = None.
Proof.
  intros response w.
  destruct (@statObject_etag lenient_helpers blank_signing plain_parsers decimal_numbers
              "mybucket" "key" w w "us-east-1" response [] eq_refl eq_refl eq_refl
              eq_refl eq_refl eq_refl) as [Hetag _].
  destruct (Hetag (dquote ++ "abc" ++ dquote) eq_refl)
    as (stat & Hstat & _ & _ & Hinner & _ & Hmodified).
  exists stat. split; [exact Hstat|]. split; [|split; [|exact Hmodified]].
  - apply Hinner; [|reflexivity]. repeat constructor; discriminate.
  - vm_compute in Hstat. injection Hstat as <-. reflexivity.
Defined.


(** ** Post policies *)




(** What setContentLength does with a minimum that is no number: with max
    below zero the third check fires, and with any other max the call
    returns. *)
Example setContentLength_without_min :
  let fired := inl (ErrorsThrown "max has to be > 0") in
  let minus_one := Some (Number.of_Z (-1)) in
  let five := Some (Number.of_Z 5) in
  setContentLength PostPolicy_new None minus_one = fired
  /\ setContentLength PostPolicy_new (Some Number.NaN) minus_one = fired
  /\ setContentLength PostPolicy_new (Some Number.NaN) five
     = inr (push_condition PostPolicy_new
              (ConditionContentLengthRange (Some Number.NaN) five)).
Proof. repeat split. Qed.

Section PostPolicyFacts.
Context `{MomentPackage}.

Lemma call_setter_pushes (p p' : PostPolicy) (call : SetterCall) :
  call_setter p call = inr p' ->
  conditions (policy p') = (conditions (policy p) ++ pushed call)%list
  /\ is_setKeyStartsWith call = false
  /\ dom (formData p) ⊆ dom (formData p').
Proof.
  destruct call as [d | key | prefix | bucket | type | min max];
    cbn [call_setter pushed is_setKeyStartsWith].
  - unfold setExpires. intros [= <-]. cbn. rewrite app_nil_r. done.
  - unfold setKey. destruct (Js.truthy key); [|discriminate]. cbn [negb].
    intros [= <-]. cbn. split; [reflexivity|]. split; [reflexivity|].
    apply dom_insert_subseteq.
  - unfold setKeyStartsWith. destruct (Js.truthy prefix); discriminate.
  - unfold setBucket. destruct (Js.truthy bucket); [|discriminate]. cbn [negb].
    intros [= <-]. cbn. split; [reflexivity|]. split; [reflexivity|].
    apply dom_insert_subseteq.
  - unfold setContentType. destruct (Js.truthy type); [|discriminate]. cbn [negb].
    intros [= <-]. cbn. split; [reflexivity|]. split; [reflexivity|].
    apply dom_insert_subseteq.
  - unfold setContentLength.
    destruct (Number.gtb _ _); [discriminate|].
    destruct (Number.ltb _ _); [discriminate|].
    destruct (Number.ltb _ _); [discriminate|].
    intros [= <-]. cbn. done.
Qed.

Lemma call_setters_pushes (calls : list SetterCall) (p p' : PostPolicy) :
  call_setters p calls = inr p' ->
  conditions (policy p') = (conditions (policy p) ++ concat (map pushed calls))%list
  /\ forallb (fun call => negb (is_setKeyStartsWith call)) calls = true
  /\ dom (formData p) ⊆ dom (formData p').
Proof.
  revert p. induction calls as [|call calls IH]; intros p; cbn [call_setters].
  - intros [= <-]. cbn. rewrite app_nil_r. done.
  - destruct (call_setter p call) as [raised | p1] eqn:Hcall; [discriminate|].
    intros Hrest. apply call_setter_pushes in Hcall as (Hconds & Hstarts & Hdom).
    apply IH in Hrest as (Hconds' & Hall & Hdom').
    cbn [map concat forallb]. rewrite Hconds', Hconds, Hstarts, Hall, <- app_assoc.
    split; [reflexivity|]. split; [reflexivity|]. etransitivity; eassumption.
Qed.

Lemma pushed_not_starts_with (calls : list SetterCall) :
  forallb (fun c => negb (is_starts_with c)) (concat (map pushed calls)) = true.
Proof.
  induction calls as [|call calls IH]; [reflexivity|].
  cbn [map concat]. rewrite forallb_app, IH, andb_true_r.
  destruct call; reflexivity.
Qed.

(** The conditions pile up in the order of the calls, none is replaced
    or removed (a second setBucket leaves both eq conditions on the bucket
    in the policy), and no field of the form data is removed. *)
Theorem call_setters_append_only (calls : list SetterCall) (p p' : PostPolicy) :
  call_setters p calls = inr p' ->
  conditions (policy p') = (conditions (policy p) ++ concat (map pushed calls))%list
  /\ dom (formData p) ⊆ dom (formData p').
Proof.
  intros Hrun. apply call_setters_pushes in Hrun as (Hconds & _ & Hdom). done.
Qed.

(** No sequence of setter calls on a new policy that returns holds a
    call of setKeyStartsWith, and no policy built that way holds a
    starts-with condition. *)
Theorem PostPolicy_never_starts_with (calls : list SetterCall) (p' : PostPolicy) :
  call_setters PostPolicy_new calls = inr p' ->
  forallb (fun call => negb (is_setKeyStartsWith call)) calls = true
  /\ forallb (fun c => negb (is_starts_with c)) (conditions (policy p')) = true.
Proof.
  intros Hrun. apply call_setters_pushes in Hrun as (Hconds & Hcalls & _).
  split; [exact Hcalls|]. rewrite Hconds. cbn [PostPolicy_new policy conditions app].
  apply pushed_not_starts_with.
Qed.

Lemma backed_push (p : PostPolicy) (c : Condition) :
  backed p -> backed (push_condition p c).
Proof.
  intros Hbacked name value Hfield. cbn in *. apply in_or_app. left.
  now apply Hbacked.
Qed.

Lemma backed_set (p : PostPolicy) (name value : string) :
  backed p ->
  backed (set_formData (push_condition p (ConditionEq ("$" ++ name) value)) name value).
Proof.
  intros Hbacked name' value' Hfield. cbn in *. apply in_or_app.
  apply lookup_insert_Some in Hfield as [[<- <-] | [_ Hfield]].
  - right. now left.
  - left. now apply Hbacked.
Qed.

Lemma call_setter_backed (p p' : PostPolicy) (call : SetterCall) :
  call_setter p call = inr p' -> backed p -> backed p'.
Proof.
  destruct call as [d | key | prefix | bucket | type | min max]; cbn [call_setter].
  - unfold setExpires. intros [= <-] Hbacked. exact Hbacked.
  - unfold setKey. destruct (Js.truthy key); [|discriminate]. cbn [negb].
    intros [= <-]. apply (backed_set p "key").
  - unfold setKeyStartsWith. destruct (Js.truthy prefix); discriminate.
  - unfold setBucket. destruct (Js.truthy bucket); [|discriminate]. cbn [negb].
    intros [= <-]. apply (backed_set p "bucket").
  - unfold setContentType. destruct (Js.truthy type); [|discriminate]. cbn [negb].
    intros [= <-]. apply (backed_set p "Content-Type").
  - unfold setContentLength.
    destruct (Number.gtb _ _); [discriminate|].
    destruct (Number.ltb _ _); [discriminate|].
    destruct (Number.ltb _ _); [discriminate|].
    intros [= <-]. apply backed_push.
Qed.

Lemma call_setters_backed (calls : list SetterCall) (p p' : PostPolicy) :
  call_setters p calls = inr p' -> backed p -> backed p'.
Proof.
  revert p. induction calls as [|call calls IH]; intros p; cbn [call_setters].
  - now intros [= <-].
  - destruct (call_setter p call) as [raised | p1] eqn:Hcall; [discriminate|].
    intros Hrest Hbacked. eapply IH; [exact Hrest|].
    eapply call_setter_backed; eassumption.
Qed.

Lemma PostPolicy_new_backed : backed PostPolicy_new.
Proof. intros name value Hfield. cbn in Hfield. now rewrite lookup_empty in Hfield. Qed.

Lemma call_setters_fields (calls : list SetterCall) (p p' : PostPolicy) (name : string) :
  call_setters p calls = inr p' ->
  is_Some (formData p' !! name) ->
  is_Some (formData p !! name)
  \/ name = "key" \/ name = "bucket" \/ name = "Content-Type".
Proof.
  revert p. induction calls as [|call calls IH]; intros p; cbn [call_setters].
  - intros [= <-] Hfield. now left.
  - destruct (call_setter p call) as [raised | p1] eqn:Hcall; [discriminate|].
    intros Hrest Hfield. destruct (IH _ Hrest Hfield) as [Hp1 | Hname]; [|now right].
    clear IH Hrest Hfield.
    destruct call as [d | key | prefix | bucket | type | min max]; cbn [call_setter] in Hcall.
    + unfold setExpires in Hcall. injection Hcall as <-. now left.
    + unfold setKey in Hcall. destruct (Js.truthy key); [|discriminate].
      injection Hcall as <-. cbn in Hp1.
      apply lookup_insert_is_Some in Hp1 as [<- | [_ Hp1]]; [right; now left | now left].
    + unfold setKeyStartsWith in Hcall. destruct (Js.truthy prefix); discriminate.
    + unfold setBucket in Hcall. destruct (Js.truthy bucket); [|discriminate].
      injection Hcall as <-. cbn in Hp1.
      apply lookup_insert_is_Some in Hp1 as [<- | [_ Hp1]];
        [right; right; now left | now left].
    + unfold setContentType in Hcall. destruct (Js.truthy type); [|discriminate].
      injection Hcall as <-. cbn in Hp1.
      apply lookup_insert_is_Some in Hp1 as [<- | [_ Hp1]];
        [right; right; now right | now left].
    + unfold setContentLength in Hcall.
      destruct (Number.gtb _ _); [discriminate|].
      destruct (Number.ltb _ _); [discriminate|].
      destruct (Number.ltb _ _); [discriminate|].
      injection Hcall as <-. now left.
Qed.

(** In a policy built by the setters from a new one, every field of the
    form data has its eq condition on that field with that value among the
    conditions, and the form data holds no field other than key, bucket and
    Content-Type. *)
Theorem PostPolicy_fields_backed (calls : list SetterCall) (p' : PostPolicy)
    (name value : string) :
  call_setters PostPolicy_new calls = inr p' ->
  formData p' !! name = Some value ->
  In (ConditionEq ("$" ++ name) value) (conditions (policy p'))
  /\ (name = "key" \/ name = "bucket" \/ name = "Content-Type").
Proof.
  intros Hrun Hfield. split.
  - eapply call_setters_backed; [exact Hrun | apply PostPolicy_new_backed | exact Hfield].
  - destruct (call_setters_fields calls PostPolicy_new p' name Hrun) as [Hnew | Hname];
      [now exists value | | exact Hname].
    cbn in Hnew. rewrite lookup_empty in Hnew. now destruct Hnew.
Qed.

End PostPolicyFacts.


Lemma call_setters_append_only_witness :
  let calls := [@CallSetBucket seconds_moment (Some "first");
                @CallSetBucket seconds_moment (Some "second")] in
  let p' :=
    set_formData
      (push_condition
         (set_formData (push_condition PostPolicy_new (ConditionEq "$bucket" "first"))
            "bucket" "first")
         (ConditionEq "$bucket" "second"))
      "bucket" "second" in
  conditions (policy p') = [ConditionEq "$bucket" "first"; ConditionEq "$bucket" "second"]
  /\ dom (formData PostPolicy_new) ⊆ dom (formData p').
Proof.
  intros calls p'.
  apply (@call_setters_append_only seconds_moment calls PostPolicy_new p'). reflexivity.
Defined.

Lemma PostPolicy_never_starts_with_witness :
  let calls := [@CallSetKey seconds_moment (Some "photos/cat.png");
                @CallSetContentLength seconds_moment (Some (Number.of_Z 1))
                  (Some (Number.of_Z 1024))] in
  let p' :=
    push_condition
      (set_formData (push_condition PostPolicy_new (ConditionEq "$key" "photos/cat.png"))
         "key" "photos/cat.png")
      (ConditionContentLengthRange (Some (Number.of_Z 1)) (Some (Number.of_Z 1024))) in
  forallb (fun call => negb (@is_setKeyStartsWith seconds_moment call)) calls = true
  /\ forallb (fun c => negb (is_starts_with c)) (conditions (policy p')) = true.
Proof.
  intros calls p'.
  apply (@PostPolicy_never_starts_with seconds_moment calls p'). reflexivity.
Defined.

Lemma PostPolicy_fields_backed_witness :
  let calls := [@CallSetBucket seconds_moment (Some "first");
                @CallSetExpires seconds_moment 86400;
                @CallSetBucket seconds_moment (Some "second")] in
  let p' :=
    set_formData
      (push_condition
         {| policy :=
              {| conditions := [ConditionEq "$bucket" "first"];
                 expiration := Some "86400 YYYY-MM-DDThh:mm:ss.SSSZ" |};
            formData := <["bucket" := "first"]> ∅ |}
         (ConditionEq "$bucket" "second"))
      "bucket" "second" in
  In (ConditionEq "$bucket" "second") (conditions (policy p'))
  /\ ("bucket" = "key" \/ "bucket" = "bucket" \/ "bucket" = "Content-Type").
Proof.
  intros calls p'.
  apply (@PostPolicy_fields_backed seconds_moment calls p' "bucket" "second");
    [vm_compute; reflexivity | apply lookup_insert_eq].
Defined.


(** ** Presigned URLs and post policies *)

Section PresignedFacts.
Context `{Helpers} `{Signing} `{Parsers} `{MomentPackage} `{!Presigning}.

(** A lookup that has answered leaves the parameters of the client as they
    are, and answers again at once. *)
Lemma getBucketRegion_settled (bucketName : option string) (w w1 : World)
    (region : Region) :
  getBucketRegion bucketName w = (Value region, w1) ->
  params (client w1) = params (client w)
  /\ getBucketRegion bucketName w1 = (Value region, w1).
Proof.
  unfold getBucketRegion at 1.
  destruct (getBucketRegion_call (client w) bucketName) as [r | name req] eqn:Hcall.
  - intros [= <- <-]. split; [reflexivity|].
    unfold getBucketRegion. now rewrite Hcall.
  - apply getBucketRegion_call_sends in Hcall as (Hhost & Hname & ->).
    unfold transport_request. destruct (events w) as [|ev rest]; [discriminate|].
    cbn [after_request client events requests].
    pose proof (getBucketRegion_event_writes (client w) (Js.template bucketName) ev)
      as Hwrites.
    destruct (getBucketRegion_event (client w) (Js.template bucketName) ev) as [r c'].
    cbn [fst snd] in Hwrites. intros [= -> <-].
    destruct Hwrites as [[[e He] _] | (r & Hne & Hval & ->)]; [discriminate|].
    injection Hval as ->. split; [reflexivity|].
    unfold getBucketRegion, getBucketRegion_call, regionMap_get.
    cbn [client set_regionMap params regionMap].
    rewrite Hhost, Hname. cbn [String.eqb negb].
    rewrite lookup_insert_eq.
    destruct r; [contradiction | reflexivity].
Qed.

Lemma presignedPostPolicy_run (p : PostPolicy) (date : Moment) (w w1 : World)
    (region : Region) :
  getBucketRegion (formData p !! "bucket") w = (Value region, w1) ->
  exists p',
    presignedPostPolicy p date w = (Value (formData p', p'), w1)
    /\ conditions (policy p')
       = (conditions (policy p) ++ amz_conditions (client w1) region date)%list
    /\ expiration (policy p') = expiration (policy p)
    /\ formData p'
       = <["x-amz-signature" :=
             postPresignSignatureV4 region date (secretKey (params (client w1)))
               (encodePolicy (policy p'))]>
           (<["policy" := encodePolicy (policy p')]>
              (<["x-amz-credential" :=
                   accessKey (params (client w1)) ++ "/" ++ getScope region date]>
                 (<["x-amz-algorithm" := "AWS4-HMAC-SHA256"]>
                    (<["x-amz-date" := Moment_format date "YYYYMMDDTHHmmss" ++ "Z"]>
                       (formData p))))).
Proof.
  intros Hregion. unfold presignedPostPolicy, mbind, M_bind, this. rewrite Hregion.
  eexists. split; [reflexivity|]. cbn. rewrite <- !app_assoc. done.
Qed.

(** Signing a policy that the setters built: the caller gets the form data
    of the policy object, which now holds the three conditions on the date,
    the algorithm and the credential after its own; the field policy is the
    encoding of the policy with those three conditions, the signature is
    made over that encoding with the region of the bucket of the form data,
    and every other field still has its eq condition in the signed
    policy. *)
Theorem presignedPostPolicy_signs (calls : list SetterCall) (p : PostPolicy)
    (date : Moment) (w w1 : World) (region : Region) :
  call_setters PostPolicy_new calls = inr p ->
  getBucketRegion (formData p !! "bucket") w = (Value region, w1) ->
  exists p',
    presignedPostPolicy p date w = (Value (formData p', p'), w1)
    /\ conditions (policy p')
       = (conditions (policy p) ++ amz_conditions (client w1) region date)%list
    /\ formData p' !! "policy" = Some (encodePolicy (policy p'))
    /\ formData p' !! "x-amz-signature"
       = Some (postPresignSignatureV4 region date (secretKey (params (client w1)))
                 (encodePolicy (policy p')))
    /\ forall name value,
         formData p' !! name = Some value ->
         name <> "policy" -> name <> "x-amz-signature" ->
         In (ConditionEq ("$" ++ name) value) (conditions (policy p')).
Proof.
  intros Hbuilt Hregion.
  destruct (presignedPostPolicy_run p date w w1 region Hregion)
    as (p' & Hrun & Hconds & _ & Hform).
  exists p'. split; [exact Hrun|]. split; [exact Hconds|].
  split; [rewrite Hform at 1; rewrite lookup_insert_ne by discriminate;
          apply lookup_insert_eq|].
  split; [rewrite Hform at 1; apply lookup_insert_eq|].
  intros name value Hfield Hpolicy Hsignature.
  rewrite Hform in Hfield.
  rewrite lookup_insert_ne in Hfield by congruence.
  rewrite lookup_insert_ne in Hfield by congruence.
  rewrite Hconds. unfold amz_conditions. apply in_or_app.
  apply lookup_insert_Some in Hfield as [[<- <-] | [_ Hfield]];
    [right; right; right; now left|].
  apply lookup_insert_Some in Hfield as [[<- <-] | [_ Hfield]];
    [right; right; now left|].
  apply lookup_insert_Some in Hfield as [[<- <-] | [_ Hfield]];
    [right; now left|].
  left. eapply call_setters_backed; [exact Hbuilt | apply PostPolicy_new_backed | exact Hfield].
Qed.

(** The policy object is the caller's: signing it a second time adds the
    three conditions again, so that the second policy holds the conditions
    on both dates; the second lookup of the region sends nothing. *)
Theorem presignedPostPolicy_twice (p p1 : PostPolicy) (date1 date2 : Moment)
    (w w1 : World) (form1 : gmap string string) :
  presignedPostPolicy p date1 w = (Value (form1, p1), w1) ->
  exists p2 region,
    presignedPostPolicy p1 date2 w1 = (Value (formData p2, p2), w1)
    /\ conditions (policy p2)
       = (conditions (policy p) ++ amz_conditions (client w1) region date1
          ++ amz_conditions (client w1) region date2)%list.
Proof.
  intros Hfirst.
  destruct (getBucketRegion (formData p !! "bucket") w) as [[region | e | x |] w0]
    eqn:Hregion;
    try (unfold presignedPostPolicy, mbind, M_bind in Hfirst; rewrite Hregion in Hfirst;
         discriminate).
  destruct (presignedPostPolicy_run p date1 w w0 region Hregion)
    as (p1' & Hrun & Hconds & _ & Hform).
  rewrite Hrun in Hfirst. injection Hfirst as _ -> ->.
  apply getBucketRegion_settled in Hregion as [_ Hagain].
  assert (Hbucket : formData p1 !! "bucket" = formData p !! "bucket").
  { rewrite Hform. now rewrite !lookup_insert_ne by discriminate. }
  rewrite <- Hbucket in Hagain.
  destruct (presignedPostPolicy_run p1 date2 w1 w1 region Hagain)
    as (p2 & Hrun2 & Hconds2 & _).
  exists p2, region. split; [exact Hrun2|].
  now rewrite Hconds2, Hconds, <- app_assoc.
Qed.


End PresignedFacts.


Lemma presignedPostPolicy_signs_witness :
  let calls := [@CallSetBucket seconds_moment (Some "mybucket");
                @CallSetKey seconds_moment (Some "photo.png")] in
  let p :=
    set_formData
      (push_condition
         (set_formData (push_condition PostPolicy_new (ConditionEq "$bucket" "mybucket"))
            "bucket" "mybucket")
         (ConditionEq "$key" "photo.png"))
      "key" "photo.png" in
  let w := world_of (client_of "play.example.com" true) [] in
  exists p',
    fst (@presignedPostPolicy blank_signing plain_parsers seconds_moment plain_presigning
           p 0 w) = Value (formData p', p')
    /\ formData p' !! "policy" = Some "5 conditions"
    /\ formData p' !! "x-amz-signature" = Some "signed(us-east-1,5 conditions)".
Proof.
  intros calls p w.
  destruct (@presignedPostPolicy_signs blank_signing plain_parsers seconds_moment
              plain_presigning calls p 0 w w "us-east-1")
    as (p' & Hrun & Hconds & Hpolicy & Hsignature & _);
    [vm_compute; reflexivity | vm_compute; reflexivity |].
  exists p'. split; [now rewrite Hrun|].
  assert (Hencoded : @encodePolicy seconds_moment plain_presigning (policy p')
                     = "5 conditions").
  { cbn [encodePolicy plain_presigning]. rewrite Hconds. reflexivity. }
  rewrite Hpolicy, Hsignature, Hencoded. split; reflexivity.
Defined.

Lemma presignedPostPolicy_twice_witness :
  let p := set_formData (push_condition PostPolicy_new (ConditionEq "$bucket" "mybucket"))
             "bucket" "mybucket" in
  let w := world_of (client_of "play.example.com" true) [] in
  let first := @presignedPostPolicy blank_signing plain_parsers seconds_moment
                 plain_presigning p 10 w in
  let p1 := match fst first with Value (_, p1) => p1 | _ => p end in
  exists p2 region,
    @presignedPostPolicy blank_signing plain_parsers seconds_moment plain_presigning
      p1 20 w = (Value (formData p2, p2), w)
    /\ conditions (policy p2)
       = (conditions (policy p)
          ++ @amz_conditions seconds_moment plain_presigning (client w) region 10
          ++ @amz_conditions seconds_moment plain_presigning (client w) region 20)%list.
Proof.
  intros p w first p1.
  apply (@presignedPostPolicy_twice blank_signing plain_parsers seconds_moment
           plain_presigning p p1 10 20 w w
           (match fst first with Value (form1, _) => form1 | _ => ∅ end)).
  vm_compute. reflexivity.
Defined.



(** ** The user agent *)

Lemma setAppInfo_set_userAgent (c c' : Client) (appName appVersion : string) :
  setAppInfo c appName appVersion = inr c' ->
  c' = set_userAgent c (userAgent (params c) ++ appSuffix (appName, appVersion)).
Proof.
  unfold setAppInfo.
  destruct (Js.trim_is_empty appName); [discriminate|].
  destruct (Js.trim_is_empty appVersion); [discriminate|].
  intros [= <-]. reflexivity.
Qed.

Section AppInfoFacts.
Context `{Platform}.

(** The user agent of a client is the agent of the library followed by one
    suffix for each call of setAppInfo that returned, in the order of the
    calls: nothing limits the calls to one, and nothing else of the client
    changes. *)
Theorem setAppInfos_userAgent (p : ConstructorParams) (parsedUrl : ParsedUrl)
    (override : option Transport) (infos : list (string * string)) (c c' : Client) :
  constructor p parsedUrl override = inr c ->
  setAppInfos c infos = inr c' ->
  c' = set_userAgent c (libraryAgent ++ String.concat "" (map appSuffix infos)).
Proof.
  intros Hnew.
  assert (Hagent : userAgent (params c) = libraryAgent).
  { revert Hnew. unfold constructor.
    destruct (url_hostname parsedUrl) as [hostname|]; [|discriminate].
    destruct (_ && _); [discriminate|].
    destruct override as [t|]; [|destruct (select_transport _ _) as [x | [[t s] n]]];
      intros Hb; inversion Hb; reflexivity. }
  rewrite <- Hagent. clear Hnew Hagent.
  revert c. induction infos as [|[appName appVersion] infos IH]; intros c; cbn [setAppInfos].
  - intros [= <-]. cbn [map String.concat]. rewrite append_nil_r.
    destruct c as [[] ? ? ?]. reflexivity.
  - destruct (setAppInfo c appName appVersion) as [x | c1] eqn:Hset; [discriminate|].
    intros Hrest. apply IH in Hrest. apply setAppInfo_set_userAgent in Hset.
    subst c1. rewrite Hrest. unfold set_userAgent. cbn [params userAgent host port protocol
      accessKey secretKey transport minioStorage regionMap map].
    do 2 f_equal. rewrite append_assoc. f_equal.
    destruct infos as [|info infos]; [cbn; now rewrite append_nil_r|].
    cbn [map String.concat]. now rewrite append_nil_l.
Qed.

End AppInfoFacts.

Section UserAgentFacts.
Context `{Helpers} `{Signing} `{Parsers}.

Lemma getBucketRegion_userAgent (bucketName : option string) (w : World) (agent : string) :
  getBucketRegion bucketName (world_userAgent w agent) =
  (fst (getBucketRegion bucketName w),
   world_userAgent (snd (getBucketRegion bucketName w)) agent).
Proof.
  unfold getBucketRegion.
  change (getBucketRegion_call (client (world_userAgent w agent)) bucketName)
    with (getBucketRegion_call (client w) bucketName).
  destruct (getBucketRegion_call (client w) bucketName) as [r | name req]; [reflexivity|].
  unfold transport_request. cbn [world_userAgent events].
  destruct (events w) as [|ev rest]; [reflexivity|].
  cbn [after_request client events requests].
  destruct ev as [e | response]; cbn [getBucketRegion_event]; [reflexivity|].
  destruct (negb (Response.statusCode response =? 200)); [reflexivity|].
  destruct (bucketRegionPipeline response) as [e | r]; reflexivity.
Qed.

Lemma makeRequest_userAgent (options : Options.t) (payload : string) (statusCode : Z)
    (w : World) (agent : string) :
  makeRequest options payload statusCode (world_userAgent w agent) =
  (fst (makeRequest options payload statusCode w),
   world_userAgent (snd (makeRequest options payload statusCode w)) agent).
Proof.
  unfold makeRequest, mbind, M_bind, this.
  rewrite getBucketRegion_userAgent.
  destruct (getBucketRegion (Options.bucketName options) w) as [[region | e | x |] w1];
    cbn [fst snd]; try reflexivity.
  unfold transport_request. cbn [world_userAgent events].
  destruct (events w1) as [|[e | response] rest]; reflexivity.
Qed.

(** What setAppInfo adds to the user agent reaches no request: after the
    call every request of makeRequest, the location request of the region
    lookup included, is the one the client would have sent before it, with
    the same outcome for the caller and the same cache of regions. *)
Theorem setAppInfo_never_sent (appName appVersion : string) (c' : Client)
    (options : Options.t) (payload : string) (statusCode : Z) (w : World) :
  setAppInfo (client w) appName appVersion = inr c' ->
  let before := makeRequest options payload statusCode w in
  let after :=
    makeRequest options payload statusCode
      {| client := c'; events := events w; requests := requests w |} in
  fst after = fst before
  /\ requests (snd after) = requests (snd before)
  /\ events (snd after) = events (snd before)
  /\ regionMap (client (snd after)) = regionMap (client (snd before))
  /\ userAgent (params (client (snd after)))
     = userAgent (params (client w)) ++ " " ++ appName ++ "/" ++ appVersion.
Proof.
  intros Hset before after. subst before after.
  apply setAppInfo_set_userAgent in Hset. subst c'.
  change {| client := set_userAgent (client w) ?a; events := events w;
            requests := requests w |}
    with (world_userAgent w a).
  rewrite makeRequest_userAgent. cbn [fst snd world_userAgent client events requests
    set_userAgent regionMap params userAgent].
  unfold appSuffix. cbn [fst snd]. repeat split.
Qed.

End UserAgentFacts.

Lemma setAppInfos_userAgent_witness :
  let p := {| endPoint := "http://play.example.com:9000"; cp_accessKey := "access";
              cp_secretKey := "secret" |} in
  let parsedUrl := {| url_protocol := Some "http:"; url_hostname := Some "play.example.com";
                      url_port := Some 9000 |} in
  let c := match @constructor some_platform p parsedUrl None with
           | inr c => c
           | inl _ => client_of "" true
           end in
  let c' := match setAppInfos c [("app", "1.0"); ("plugin", "2.1")] with
            | inr c' => c'
            | inl _ => c
            end in
  userAgent (params c') = @libraryAgent some_platform ++ " app/1.0 plugin/2.1".
Proof.
  intros p parsedUrl c c'.
  rewrite (@setAppInfos_userAgent some_platform p parsedUrl None
             [("app", "1.0"); ("plugin", "2.1")] c c');
    [reflexivity | vm_compute; reflexivity | vm_compute; reflexivity].
Defined.

Lemma setAppInfo_never_sent_witness :
  let c := client_of "play.example.com" true in
  let w := world_of c [OnResponse (text_response 200 "")] in
  let options := {| Options.method := "GET"; Options.bucketName := Some "mybucket";
                    Options.objectName := None; Options.headers := None;
                    Options.query := None |} in
  let c' := set_userAgent c "Minio (linux; x64) minio-js/0.2.5 app/1.0" in
  requests (snd (@makeRequest lenient_helpers blank_signing plain_parsers options "" 200
                   (world_of c' [OnResponse (text_response 200 "")])))
  = requests (snd (@makeRequest lenient_helpers blank_signing plain_parsers options "" 200 w)).
Proof.
  intros c w options c'.
  destruct (@setAppInfo_never_sent lenient_helpers blank_signing plain_parsers
              "app" "1.0" c' options "" 200 w eq_refl) as (_ & Hrequests & _).
  exact Hrequests.
Defined.


(** ** Removing an incomplete upload *)

Section IncompleteUploadFacts.
Context `{Helpers} `{Signing} `{Parsers} `{UploadLookup}.

(** When the lookup of the upload hands on undefined, because no upload is
    in progress, removeIncompleteUpload goes on all the same: it makes the
    DELETE request for the object with the query uploadId=undefined, and
    expects the status 204 of it. *)
Theorem removeIncompleteUpload_without_upload (bucketName objectName : string)
    (w w1 : World) :
  isValidBucketName bucketName = true ->
  isValidObjectName objectName = true ->
  Js.trim_is_empty objectName = false ->
  Client_findUploadId bucketName objectName w = (Value None, w1) ->
  let options :=
    {| Options.method := "DELETE"; Options.bucketName := Some bucketName;
       Options.objectName := Some objectName; Options.headers := None;
       Options.query := Some "uploadId=undefined" |} in
  exists run,
    removeIncompleteUpload bucketName objectName = inr run
    /\ run w = makeRequest options "" 204 w1
    /\ exists path,
         ReqOptions.path (getRequestOptions (client w1) options)
         = path ++ "?uploadId=undefined".
Proof.
  intros Hbucket Hobject Htrim Hlookup options. subst options.
  unfold removeIncompleteUpload. rewrite Hbucket, Hobject, Htrim. cbn [negb].
  eexists. split; [reflexivity|]. split.
  - unfold mbind, M_bind. rewrite Hlookup. reflexivity.
  - unfold getRequestOptions. cbn [Options.bucketName Options.objectName Options.query].
    destruct (minioStorage (client w1)); cbn [ReqOptions.path Js.truthy Js.template];
      eexists; reflexivity.
Qed.

End IncompleteUploadFacts.

Lemma removeIncompleteUpload_without_upload_witness :
  let w := world_of (client_of "play.example.com" true)
             [OnResponse (text_response 204 "")] in
  exists run,
    @removeIncompleteUpload lenient_helpers blank_signing plain_parsers no_uploads
      "mybucket" "photo.png" = inr run
    /\ map (fun sent => (ReqOptions.method (sent_options sent),
                         ReqOptions.path (sent_options sent)))
         (requests (snd (run w)))
       = [("DELETE", "/mybucket/photo.png?uploadId=undefined")].
Proof.
  intros w.
  destruct (@removeIncompleteUpload_without_upload lenient_helpers blank_signing
              plain_parsers no_uploads "mybucket" "photo.png" w w
              eq_refl eq_refl eq_refl eq_refl) as (run & Hrun & Hsends & _).
  exists run. split; [exact Hrun|]. rewrite Hsends. vm_compute. reflexivity.
Defined.

(** ** The transport of the tests *)

Lemma addRequests_app (added : list MockTransport.Request) (m : MockTransport.t) :
  addRequests m added = (m ++ added)%list.
Proof.
  unfold addRequests. revert m.
  induction added as [|req added IH]; intros m; cbn [fold_left].
  - now rewrite app_nil_r.
  - rewrite IH. unfold MockTransport.addRequest. destruct req. cbn.
    now rewrite <- app_assoc.
Qed.

Lemma MockTransport_r_answer (req : MockTransport.Request) (params : ReqOptions.t) :
  MockTransport.verifies req params = true ->
  MockTransport._r (Some req) params true = MockTransport.answer req.
Proof.
  unfold MockTransport._r, MockTransport.verifies, MockTransport.answer.
  intros ->. cbn [negb].
  destruct req as [verify [status|] [headers|] [stream|]]; cbn;
    try reflexivity; destruct status; reflexivity.
Qed.

(** The mock answers in the order of the calls of addRequest: after any
    number of them, as many requests whose params pass the stored checks
    get the stored answers one by one, first added first, each with the
    status 200 where none or 0 was stored and no headers where none were
    stored.  No answer has the status 0 and none delivers a chunk: without
    a stored stream the body is empty, and a stored stream never reaches the
    body, which stays open.  The request after the last stored one throws a
    TypeError, and a request made without a callback, as the region lookup
    makes its location request, is never answered. *)
Theorem MockTransport_serves_in_order (m : MockTransport.t)
    (added : list MockTransport.Request) (params : list ReqOptions.t) :
  Forall2 (fun req p => MockTransport.verifies req p = true) (m ++ added)%list params ->
  MockTransport.serve_all (addRequests m added) params
  = (map MockTransport.answer (m ++ added)%list, [])
  /\ Forall (fun req => MockTransport.delivers_nothing (MockTransport.answer req))
       (m ++ added)%list
  /\ (forall p callback,
        MockTransport.serve (snd (MockTransport.serve_all (addRequests m added) params))
          p callback
        = (MockTransport.TypeErrorThrown, []))
  /\ forall req p,
       MockTransport._r req p false = MockTransport.TypeErrorThrown
       \/ MockTransport._r req p false = MockTransport.VerifyThrew.
Proof.
  rewrite addRequests_app. generalize (m ++ added)%list. clear m added.
  intros queue Hverified.
  assert (Hserved :
            MockTransport.serve_all queue params = (map MockTransport.answer queue, [])).
  { induction Hverified as [|req p queue params Hreq Hrest IH]; [reflexivity|].
    cbn [MockTransport.serve_all MockTransport.serve MockTransport.request map].
    rewrite IH, (MockTransport_r_answer req p Hreq). reflexivity. }
  split; [exact Hserved|]. split.
  - clear. induction queue as [|req queue IH]; constructor; [|exact IH].
    unfold MockTransport.answer, MockTransport.delivers_nothing.
    destruct (MockTransport.responseStream req);
      destruct (MockTransport.statusCode req) as [[| |]|]; cbn;
      try split; try discriminate; reflexivity.
  - split; [intros p callback; rewrite Hserved; reflexivity|].
    intros [req|] p; [|now left]. unfold MockTransport._r.
    destruct (negb _); [now right | now left].
Qed.

Lemma MockTransport_serves_in_order_witness :
  let missing :=
    {| MockTransport.verifyParams := None; MockTransport.statusCode := None;
       MockTransport.responseHeaders := None; MockTransport.responseStream := None |} in
  let first :=
    {| MockTransport.verifyParams :=
         Some (fun params => String.eqb (ReqOptions.method params) "GET");
       MockTransport.statusCode := Some 404;
       MockTransport.responseHeaders := Some [("content-type", "text/xml")];
       MockTransport.responseStream :=
         Some {| chunks := ["NoSuchBucket"]; failure := None |} |} in
  let get :=
    {| ReqOptions.method := "GET"; ReqOptions.host := "play.example.com";
       ReqOptions.port := 9000; ReqOptions.protocol := "http:";
       ReqOptions.headers := None; ReqOptions.path := "/" |} in
  fst (MockTransport.serve_all (addRequests MockTransport.new [first; missing]) [get; get])
  = [MockTransport.RespondedOpen 404 [("content-type", "text/xml")];
     MockTransport.Responded
       {| Response.statusCode := 200; Response.headers := [];
          Response.body := {| chunks := []; failure := None |} |}].
Proof.
  intros missing first get.
  destruct (MockTransport_serves_in_order MockTransport.new [first; missing] [get; get])
    as [Hserved _].
  - repeat constructor.
  - rewrite Hserved. reflexivity.
Defined.


(** ** Listing incomplete uploads *)

Section IncompleteUploadsFacts.
Context `{Helpers} `{Multipart} `{UploadLister}.



Lemma eachSeries_uploads_stops (bucket : string) (before after : list Upload)
    (upload : Upload) (sized : list UploadEntry) (err : Error) :
  eachSeries_uploads bucket before = (sized, None) ->
  listAllParts bucket (upload_key upload) (upload_uploadId upload) = inl err ->
  eachSeries_uploads bucket (before ++ upload :: after) = (sized, Some err).
Proof.
  revert sized. induction before as [|first before IH]; intros sized; cbn [eachSeries_uploads app].
  - intros [= <-] ->. reflexivity.
  - destruct (listAllParts bucket (upload_key first) (upload_uploadId first))
      as [e | parts]; [discriminate|].
    destruct (eachSeries_uploads bucket before) as [written e] eqn:Hbefore.
    intros [= <- ->] Hfails. now rewrite (IH written eq_refl Hfails).
Qed.


Lemma listIncompleteUploads_listNext_error (fuel : nat) (bucket : string)
    (prefix delimiter keyMarker uploadIdMarker : option string) (listing : UploadsListing)
    (e : Error) :
  listIncompleteUploads_listNext fuel bucket prefix delimiter keyMarker uploadIdMarker
    = Some listing ->
  uploads_ending listing = UploadsErrored e ->
  exists keyMarker uploadIdMarker,
    listIncompleteUploadsOnce bucket prefix keyMarker uploadIdMarker delimiter = inl e.
Proof.
  revert listing keyMarker uploadIdMarker.
  induction fuel as [|fuel IH]; intros listing keyMarker uploadIdMarker;
    cbn [listIncompleteUploads_listNext]; [discriminate|].
  destruct (listIncompleteUploadsOnce bucket prefix keyMarker uploadIdMarker delimiter)
    as [e' | result] eqn:Honce.
  - intros [= <-] [= <-]. eauto.
  - destruct (eachSeries_uploads bucket (uploads result)) as [written err].
    destruct err as [err|]; [intros [= <-]; discriminate|].
    destruct (uploads_isTruncated result); [|intros [= <-]; discriminate].
    destruct (listIncompleteUploads_listNext fuel bucket prefix delimiter _ _)
      as [rest|] eqn:Hrest; [|discriminate].
    intros [= <-]. cbn [uploads_ending]. eapply IH. exact Hrest.
Qed.


(** An error event on the stream of listIncompleteUploads is an error of a
    page of the listing: an error of listAllParts never reaches the
    stream. *)
Theorem listIncompleteUploads_error_of_page (fuel : nat) (bucket : string)
    (prefix : option string) (recursive : bool) (listing : UploadsListing) (e : Error) :
  listIncompleteUploads fuel bucket prefix recursive = inr (Some listing) ->
  uploads_ending listing = UploadsErrored e ->
  exists keyMarker uploadIdMarker,
    listIncompleteUploadsOnce bucket prefix keyMarker uploadIdMarker
      (if recursive then None else Some "/") = inl e.
Proof.
  unfold listIncompleteUploads. destruct (negb (isValidBucketName bucket)); [discriminate|].
  intros [= Hrun]. eapply listIncompleteUploads_listNext_error. exact Hrun.
Qed.

(** When listAllParts fails for an upload of the first page, the stream of
    listIncompleteUploads has been written the prefixes of the page and the
    uploads before that one, and then neither ends nor fails: the callback
    that should pass the error on names e, which is not declared, and
    throws a reference error instead; the error of listAllParts is lost. *)
Theorem listIncompleteUploads_parts_error (fuel : nat) (bucket : string)
    (prefix : option string) (recursive : bool) (result : ListUploadsResult)
    (before after : list Upload) (upload : Upload) (sized : list UploadEntry)
    (err : Error) :
  isValidBucketName bucket = true ->
  listIncompleteUploadsOnce bucket prefix None None (if recursive then None else Some "/")
    = inr result ->
  uploads result = (before ++ upload :: after)%list ->
  eachSeries_uploads bucket before = (sized, None) ->
  listAllParts bucket (upload_key upload) (upload_uploadId upload) = inl err ->
  listIncompleteUploads (S fuel) bucket prefix recursive
  = inr (Some {| entries := (map PrefixEntry (prefixes result) ++ sized)%list;
                 uploads_ending := UploadsCrashed (ReferenceError "e") |}).
Proof.
  intros Hbucket Honce Huploads Hbefore Hfails.
  unfold listIncompleteUploads. rewrite Hbucket. cbn [negb listIncompleteUploads_listNext].
  rewrite Honce, Huploads, (eachSeries_uploads_stops _ _ _ _ _ _ Hbefore Hfails).
  reflexivity.
Qed.

End IncompleteUploadsFacts.


Lemma listIncompleteUploads_error_of_page_witness :
  let failing : UploadLister :=
    {| listIncompleteUploadsOnce := fun _ _ _ _ _ =>
         inl {| code := Some "AccessDenied"; message := "denied"; fields := [] |} |} in
  exists keyMarker uploadIdMarker,
    @listIncompleteUploadsOnce failing "mybucket" None keyMarker uploadIdMarker (Some "/")
    = inl {| code := Some "AccessDenied"; message := "denied"; fields := [] |}.
Proof.
  intros failing.
  apply (@listIncompleteUploads_error_of_page lenient_helpers broken_parts failing
           1 "mybucket" None false
           {| entries := [];
              uploads_ending :=
                UploadsErrored {| code := Some "AccessDenied"; message := "denied";
                                  fields := [] |} |});
    reflexivity.
Defined.

Lemma listIncompleteUploads_parts_error_witness :
  @listIncompleteUploads lenient_helpers broken_parts two_uploads 1 "mybucket" None true
  = inr (Some {| entries := [PrefixEntry "photos/";
                             SizedUpload "video.mp4" "upload-1" 5243904];
                 uploads_ending := UploadsCrashed (ReferenceError "e") |}).
Proof.
  apply (@listIncompleteUploads_parts_error lenient_helpers broken_parts two_uploads
           0 "mybucket" None true
           {| uploads := [{| upload_key := "video.mp4"; upload_uploadId := "upload-1" |};
                          {| upload_key := "broken.bin"; upload_uploadId := "upload-2" |}];
              prefixes := ["photos/"];
              uploads_isTruncated := false;
              nextKeyMarker := None;
              nextUploadIdMarker := None |}
           [{| upload_key := "video.mp4"; upload_uploadId := "upload-1" |}] []
           {| upload_key := "broken.bin"; upload_uploadId := "upload-2" |}
           [SizedUpload "video.mp4" "upload-1" 5243904]
           {| code := Some "InternalError"; message := "parts"; fields := [] |});
    reflexivity.
Defined.


Section IncompleteUploadsPages.
Context `{Helpers} `{Multipart} `{UploadLister}.




End IncompleteUploadsPages.

